(** * StoryViewer: prefetch pipeline, playback controller and page navigation

    A shallow embedding of the stateful core of [components/StoryViewer.tsx]:
    the per-page asset records and [updatePage], the audio controller
    ([stopAudio], [playAudioForCurrentPage], [handlePlayPauseToggle]), page
    navigation ([handleNextPage], [handlePrevPage]), the autoplay effect and
    the [prefetchAssets] loop.

    Conventions.
    - A JavaScript value that may be [undefined] is an [option]; a property
      that is absent and a property holding [undefined] read the same, so a
      page object is a record of options.
    - React state and the two refs are fields of one [State] record, next to
      the part of the Web Audio platform the component talks to (the audio
      contexts and buffer source nodes it created, indexed by identity).
    - A handler is a computation in a state-and-exception monad.  It reads
      React state from the snapshot of the render it was created in and the
      refs from the current state, as the closures of the source do.
    - The platform acts at once: a new context is running, [close()] closes
      it, and the awaited [suspend()] and [resume()] of the toggle handler
      settle before the next event is handled; [splitRun] is the viewer
      without that last assumption, the handler cut at its await.  The
      awaits of [prefetchAssets] are genuine suspension points, answered by
      a [Gateway].

    Around the viewer, the story form of [App.tsx] and the chat window of
    [components/ChatBot.tsx] (with the chat singleton of
    [services/geminiService.ts]) are embedded as event machines: a handler
    runs up to its [await] at the click, and the rest of it when the
    request settles.  React renders between two events, so a handler sees
    the state the event before it left. *)

From Stdlib Require Import ZArith String Lia.
From stdpp Require Import base option list sorting.

(** ** Data model *)

(** An [AudioBuffer] is an opaque platform object; only its identity matters. *)
Definition AudioBuffer := nat.

(** [interface StoryPage] (types.ts): the immutable input pages. *)
Module StoryPage.
Record t := mk {
  text : string;
  imagePrompt : string;
  imageUrl : option string
}.
End StoryPage.

(** [interface StoryPageState extends StoryPage], as the object is at run
    time: every property may be [undefined]. *)
Record StoryPageState := mkStoryPageState {
  text : option string;
  imagePrompt : option string;
  imageUrl : option string;
  audioData : option string;
  audioBuffer : option AudioBuffer;
  isImageLoading : option bool;
  isAudioLoading : option bool;
  imageError : option bool;
  audioError : option bool
}.

(** [Partial<StoryPageState>]: for each property, [None] when the key is not
    mentioned, [Some v] when it is, with the value [v] (possibly
    [undefined]). *)
Module Partial.
Record t := mk {
  text : option (option string);
  imagePrompt : option (option string);
  imageUrl : option (option string);
  audioData : option (option string);
  audioBuffer : option (option AudioBuffer);
  isImageLoading : option (option bool);
  isAudioLoading : option (option bool);
  imageError : option (option bool);
  audioError : option (option bool)
}.
End Partial.

(** The object [{}] read as a page. *)
Definition emptyObject : StoryPageState :=
  mkStoryPageState None None None None None None None None None.

(** One property of [{ ...base, ...updates }]. *)
Definition spreadField {T : Type} (base : option T) (upd : option (option T)) : option T :=
  match upd with
  | Some v => v
  | None => base
  end.

(** [{ ...base, ...updates }]. *)
Definition spread (base : StoryPageState) (updates : Partial.t) : StoryPageState :=
  {| text := spreadField (text base) (Partial.text updates);
     imagePrompt := spreadField (imagePrompt base) (Partial.imagePrompt updates);
     imageUrl := spreadField (imageUrl base) (Partial.imageUrl updates);
     audioData := spreadField (audioData base) (Partial.audioData updates);
     audioBuffer := spreadField (audioBuffer base) (Partial.audioBuffer updates);
     isImageLoading := spreadField (isImageLoading base) (Partial.isImageLoading updates);
     isAudioLoading := spreadField (isAudioLoading base) (Partial.isAudioLoading updates);
     imageError := spreadField (imageError base) (Partial.imageError updates);
     audioError := spreadField (audioError base) (Partial.audioError updates) |}.

(** A JavaScript array of pages: a slot is [None] when it is empty (a hole
    left by writing past the end) and reads as [undefined]. *)
Abbreviation PageArray := (list (option StoryPageState)).

(** [arr[i]] for a natural index. *)
Definition arrayGet (arr : PageArray) (i : nat) : option StoryPageState :=
  mjoin (arr !! i).

(** [arr[i] = o]: in range the slot is replaced; past the end the array grows
    to length [i + 1], the slots in between staying empty.  The second case
    is what the source does for an array index, that is below [2^32 - 1],
    and up to the difference between an empty slot and one that holds
    [undefined], which read the same; the viewer only ever writes in range. *)
Definition arraySet (arr : PageArray) (i : nat) (o : StoryPageState) : PageArray :=
  if decide (i < length arr) then <[i := Some o]> arr
  else arr ++ replicate (i - length arr) None ++ [Some o].

(** [{ ...x }] of a slot: spreading [undefined] gives [{}]. *)
Definition spreadSlot (slot : option StoryPageState) : StoryPageState :=
  default emptyObject slot.

(** The updater passed to [setStoryPages] by [updatePage] (lines 44-50):
<<
  prev => { const newPages = [...prev];
            newPages[index] = { ...newPages[index], ...updates };
            return newPages; }
>> *)
Definition updatePage (index : nat) (updates : Partial.t) (prev : PageArray) : PageArray :=
  let newPages := prev in
  arraySet newPages index (spread (spreadSlot (arrayGet newPages index)) updates).

(** What the claim of a merge says about one property. *)
Definition mergedField {T : Type} (old : option T) (upd : option (option T)) (new : option T) : Prop :=
  match upd with
  | Some v => new = v
  | None => new = old
  end.


(** ** The Web Audio platform and the component state *)

(** [AudioContext.state]. *)
Inductive AudioContextState := running | suspended | closed.

(** The one completion callback the component installs (lines 79-83):
    [() => { if (audioContextRef.current?.state !== 'suspended') stopAudio(); }]. *)
Inductive Callback := StopUnlessSuspended.

(** Life cycle of an [AudioBufferSourceNode]: [start()] not yet called,
    started and producing output, or ended (stopped or played to the end). *)
Inductive SourcePhase := Unstarted | Started | Ended.

Record AudioBufferSourceNode := mkSource {
  context : nat;                 (* the context that created the node *)
  buffer : option AudioBuffer;
  connected : bool;              (* connected to [context.destination] *)
  onended : option Callback;
  phase : SourcePhase
}.

Inductive PlaybackStatus := playing | paused | stopped.

(** React state ([useState]), refs ([useRef]) and the platform objects the
    component created.  An object is named by its position in [contexts] or
    [sources]; a ref holds such a name or [null]. *)
Record State := mkState {
  currentPageIndex : Z;
  storyPages : PageArray;
  playbackStatus : PlaybackStatus;
  shouldAutoplay : bool;
  audioContextRef : option nat;
  audioSourceRef : option nat;
  contexts : list AudioContextState;
  sources : list AudioBufferSourceNode
}.

#[global] Instance AudioContextState_eq_dec : EqDecision AudioContextState.
Proof. solve_decision. Defined.
#[global] Instance SourcePhase_eq_dec : EqDecision SourcePhase.
Proof. solve_decision. Defined.
#[global] Instance PlaybackStatus_eq_dec : EqDecision PlaybackStatus.
Proof. solve_decision. Defined.

Definition with_currentPageIndex (v : Z) (st : State) : State :=
  mkState v (storyPages st) (playbackStatus st) (shouldAutoplay st)
          (audioContextRef st) (audioSourceRef st) (contexts st) (sources st).
Definition with_storyPages (v : PageArray) (st : State) : State :=
  mkState (currentPageIndex st) v (playbackStatus st) (shouldAutoplay st)
          (audioContextRef st) (audioSourceRef st) (contexts st) (sources st).
Definition with_playbackStatus (v : PlaybackStatus) (st : State) : State :=
  mkState (currentPageIndex st) (storyPages st) v (shouldAutoplay st)
          (audioContextRef st) (audioSourceRef st) (contexts st) (sources st).
Definition with_shouldAutoplay (v : bool) (st : State) : State :=
  mkState (currentPageIndex st) (storyPages st) (playbackStatus st) v
          (audioContextRef st) (audioSourceRef st) (contexts st) (sources st).
Definition with_audioContextRef (v : option nat) (st : State) : State :=
  mkState (currentPageIndex st) (storyPages st) (playbackStatus st) (shouldAutoplay st)
          v (audioSourceRef st) (contexts st) (sources st).
Definition with_audioSourceRef (v : option nat) (st : State) : State :=
  mkState (currentPageIndex st) (storyPages st) (playbackStatus st) (shouldAutoplay st)
          (audioContextRef st) v (contexts st) (sources st).
Definition with_contexts (v : list AudioContextState) (st : State) : State :=
  mkState (currentPageIndex st) (storyPages st) (playbackStatus st) (shouldAutoplay st)
          (audioContextRef st) (audioSourceRef st) v (sources st).
Definition with_sources (v : list AudioBufferSourceNode) (st : State) : State :=
  mkState (currentPageIndex st) (storyPages st) (playbackStatus st) (shouldAutoplay st)
          (audioContextRef st) (audioSourceRef st) (contexts st) v.

Definition with_onended (v : option Callback) (s : AudioBufferSourceNode) : AudioBufferSourceNode :=
  mkSource (context s) (buffer s) (connected s) v (phase s).
Definition with_buffer (v : option AudioBuffer) (s : AudioBufferSourceNode) : AudioBufferSourceNode :=
  mkSource (context s) v (connected s) (onended s) (phase s).
Definition with_connected (v : bool) (s : AudioBufferSourceNode) : AudioBufferSourceNode :=
  mkSource (context s) (buffer s) v (onended s) (phase s).
Definition with_phase (v : SourcePhase) (s : AudioBufferSourceNode) : AudioBufferSourceNode :=
  mkSource (context s) (buffer s) (connected s) (onended s) v.

(** ** Computations: state passing with exceptions *)

Inductive Error := InvalidStateError | TypeError.

(** How a piece of JavaScript completes: normally with a value, or by
    throwing; either way the mutations made so far stay. *)
Inductive Completion (A : Type) :=
| Normal (a : A) (st : State)
| Throw (e : Error) (st : State).
Arguments Normal {A} a st.
Arguments Throw {A} e st.

Definition M (A : Type) : Type := State -> Completion A.

Definition ret {A} (a : A) : M A := fun st => Normal a st.
Definition raise {A} (e : Error) : M A := fun st => Throw e st.
Definition bind {A B} (c : M A) (k : A -> M B) : M B :=
  fun st => match c st with
            | Normal a st' => k a st'
            | Throw e st' => Throw e st'
            end.
(** [try { c } catch (e) { h e }]. *)
Definition tryCatch {A} (c : M A) (h : Error -> M A) : M A :=
  fun st => match c st with
            | Normal a st' => Normal a st'
            | Throw e st' => h e st'
            end.
Definition get : M State := fun st => Normal st st.
Definition modify (f : State -> State) : M unit := fun st => Normal tt (f st).

Declare Scope M_scope.
Delimit Scope M_scope with M.
Bind Scope M_scope with M.
Notation "x <- c1 ;; c2" := (bind c1 (fun x => c2))
  (at level 100, c1 at next level, right associativity) : M_scope.
Notation "c1 ;; c2" := (bind c1 (fun _ => c2))
  (at level 100, c2 at level 200, right associativity) : M_scope.
Local Open Scope M_scope.

(** The state a computation leaves, however it completes. *)
Definition stateOf {A} (c : Completion A) : State :=
  match c with
  | Normal _ st => st
  | Throw _ st => st
  end.

(** React setters and ref assignments. *)
Definition setCurrentPageIndex (f : Z -> Z) : M unit :=
  modify (fun st => with_currentPageIndex (f (currentPageIndex st)) st).
Definition setStoryPages (f : PageArray -> PageArray) : M unit :=
  modify (fun st => with_storyPages (f (storyPages st)) st).
Definition setPlaybackStatus (v : PlaybackStatus) : M unit :=
  modify (with_playbackStatus v).
Definition setShouldAutoplay (v : bool) : M unit :=
  modify (with_shouldAutoplay v).
Definition setAudioContextRef (v : option nat) : M unit :=
  modify (with_audioContextRef v).
Definition setAudioSourceRef (v : option nat) : M unit :=
  modify (with_audioSourceRef v).

(** [ctx.state], for the context named [c]. *)
Definition contextState (c : nat) (st : State) : option AudioContextState :=
  contexts st !! c.

(** [audioContextRef.current?.state]. *)
Definition refContextState (st : State) : option AudioContextState :=
  c ← audioContextRef st; contextState c st.

Definition setContextState (c : nat) (v : AudioContextState) : M unit :=
  modify (fun st => with_contexts (<[c := v]> (contexts st)) st).

Definition alterSource (sid : nat) (f : AudioBufferSourceNode -> AudioBufferSourceNode) : M unit :=
  modify (fun st => with_sources (alter f sid (sources st)) st).

(** [new AudioContext({ sampleRate: 24000 })]: a fresh context, running. *)
Definition newAudioContext : M nat :=
  fun st => Normal (length (contexts st)) (with_contexts (contexts st ++ [running]) st).

(** [context.createBufferSource()]. *)
Definition createBufferSource (c : nat) : M nat :=
  fun st => Normal (length (sources st))
                   (with_sources (sources st ++ [mkSource c None false None Unstarted]) st).

(** [source.start()]: throws [InvalidStateError] when called twice. *)
Definition sourceStart (sid : nat) : M unit :=
  fun st => match sources st !! sid with
            | Some s =>
                match phase s with
                | Unstarted => alterSource sid (with_phase Started) st
                | _ => Throw InvalidStateError st
                end
            | None => Throw TypeError st
            end.

(** [ctx.close()]: returns a promise that is not awaited; the context is
    closed and its output released. *)
Definition contextClose (c : nat) : M unit := setContextState c closed.

(** [await ctx.suspend()] and [await ctx.resume()]: rejected on a closed
    context. *)
Definition contextSuspend (c : nat) : M unit :=
  fun st => match contextState c st with
            | Some closed | None => Throw InvalidStateError st
            | Some _ => setContextState c suspended st
            end.
Definition contextResume (c : nat) : M unit :=
  fun st => match contextState c st with
            | Some closed | None => Throw InvalidStateError st
            | Some _ => setContextState c running st
            end.

(** JavaScript truthiness of the values the component tests. *)
Definition truthyString (s : string) : bool := negb (String.eqb s EmptyString).
Definition truthyOptString (s : option string) : bool :=
  match s with Some s => truthyString s | None => false end.
Definition truthyBool (b : option bool) : bool := default false b.
Definition truthyObject {A} (o : option A) : bool := bool_decide (is_Some o).

(** [arr[i]] for an integer index: [undefined] below zero. *)
Definition arrayGetZ (arr : PageArray) (i : Z) : option StoryPageState :=
  if decide (i < 0)%Z then None else arrayGet arr (Z.to_nat i).

(** How an awaited promise settles; [Pending] is a promise that has not
    settled by the time the pipeline is observed. *)
Inductive Promise (A : Type) :=
| Fulfilled (a : A)
| Rejected
| Pending.
Arguments Fulfilled {A} a.
Arguments Rejected {A}.
Arguments Pending {A}.

(** ** The story form and the chat window *)

(** A JavaScript string as the two forms see it: a sequence of UTF-16
    code units. *)
Abbreviation JSString := (list N).

Definition fromAscii (s : string) : JSString :=
  map Ascii.N_of_ascii (list_ascii_of_string s).

(** The code units ECMAScript's [WhiteSpace] and [LineTerminator] name,
    which [String.prototype.trim] strips. *)
Definition isWhiteSpace (c : N) : bool :=
  bool_decide (c ∈ [9; 10; 11; 12; 13; 32; 160; 5760; 8232; 8233; 8239; 8287;
                    12288; 65279]%N)
  || (N.leb 8192 c && N.leb c 8202).

Fixpoint trimStart (s : JSString) : JSString :=
  match s with
  | c :: s' => if isWhiteSpace c then trimStart s' else s
  | [] => []
  end.

Definition trimEnd (s : JSString) : JSString := rev (trimStart (rev s)).

(** [s.trim()]. *)
Definition trim (s : JSString) : JSString := trimEnd (trimStart s).

(** [!s.trim()]: the empty string is the one falsy string. *)
Definition isBlank (s : JSString) : bool := bool_decide (trim s = []).

(** [ChatBot.tsx], with the chat singleton of [geminiService.ts]. *)
Module ChatBot.

Inductive Sender := user | bot.

(** [interface ChatMessage] (types.ts). *)
Record ChatMessage := mkMessage {
  sender : Sender;
  text : JSString
}.

(** The component's state, the module variable [chatInstance] with the
    number of chats created so far, and the requests that have been sent
    and have not settled: the chat each went to and its message. *)
Record State := mkState {
  isOpen : bool;
  messages : list ChatMessage;
  userInput : JSString;
  isLoading : bool;
  chatInstance : option nat;
  chatsCreated : nat;
  inFlight : list (nat * JSString)
}.

Definition greeting : ChatMessage :=
  mkMessage bot (fromAscii "Hi there! I'm Sparky! You can ask me anything about the story.").

Definition apology : JSString :=
  fromAscii "Uh oh! My circuits are fizzled. I can't talk right now.".

Definition initialState : State :=
  {| isOpen := false;
     messages := [greeting];
     userInput := [];
     isLoading := false;
     chatInstance := None;
     chatsCreated := 0;
     inFlight := [] |}.

(** [getChatInstance] (geminiService.ts, lines 106-116): the chat, created
    on first use; [ai.chats.create] is taken to succeed. *)
Definition getChatInstance (st : State) : nat * State :=
  match chatInstance st with
  | Some c => (c, st)
  | None =>
      (chatsCreated st,
       {| isOpen := isOpen st;
          messages := messages st;
          userInput := userInput st;
          isLoading := isLoading st;
          chatInstance := Some (chatsCreated st);
          chatsCreated := S (chatsCreated st);
          inFlight := inFlight st |})
  end.

(** [handleSendMessage] (lines 22-41) up to its [await]: the closure's
    [userInput] is the one of the latest render. *)
Definition handleSendMessage (st : State) : State :=
  if isBlank (userInput st) then st
  else
    let message := userInput st in
    let '(chat, st1) :=
      getChatInstance
        {| isOpen := isOpen st;
           messages := messages st ++ [mkMessage user message];
           userInput := [];
           isLoading := true;
           chatInstance := chatInstance st;
           chatsCreated := chatsCreated st;
           inFlight := inFlight st |} in
    {| isOpen := isOpen st1;
       messages := messages st1;
       userInput := userInput st1;
       isLoading := isLoading st1;
       chatInstance := chatInstance st1;
       chatsCreated := chatsCreated st1;
       inFlight := inFlight st1 ++ [(chat, message)] |}.

(** The rest of [handleSendMessage], when the [k]-th request in flight
    settles: with the reply's text, or [None] when it is rejected. *)
Definition resume (k : nat) (reply : option JSString) (st : State) : State :=
  match inFlight st !! k with
  | None => st
  | Some _ =>
      {| isOpen := isOpen st;
         messages := messages st ++ [mkMessage bot (default apology reply)];
         userInput := userInput st;
         isLoading := false;
         chatInstance := chatInstance st;
         chatsCreated := chatsCreated st;
         inFlight := delete k (inFlight st) |}
  end.

Definition with_isOpen (v : bool) (st : State) : State :=
  {| isOpen := v;
     messages := messages st;
     userInput := userInput st;
     isLoading := isLoading st;
     chatInstance := chatInstance st;
     chatsCreated := chatsCreated st;
     inFlight := inFlight st |}.

Definition with_userInput (v : JSString) (st : State) : State :=
  {| isOpen := isOpen st;
     messages := messages st;
     userInput := v;
     isLoading := isLoading st;
     chatInstance := chatInstance st;
     chatsCreated := chatsCreated st;
     inFlight := inFlight st |}.

(** What can happen to the chat window.  The input and the send button
    exist while the window is open; the input is disabled while a reply
    is awaited (line 93), the Enter key sends unless one is (line 90), and
    the button is disabled then and on a blank input (line 97). *)
Inductive Event :=
| OpenChat
| CloseChat
| Typed (s : JSString)
| PressEnter
| ClickSend
| Settles (k : nat) (reply : option JSString).

Definition step (e : Event) (st : State) : State :=
  match e with
  | OpenChat => with_isOpen true st
  | CloseChat => if isOpen st then with_isOpen false st else st
  | Typed s => if isOpen st && negb (isLoading st) then with_userInput s st else st
  | PressEnter =>
      if isOpen st && negb (isLoading st) then handleSendMessage st else st
  | ClickSend =>
      if isOpen st && negb (isLoading st || isBlank (userInput st))
      then handleSendMessage st else st
  | Settles k reply => resume k reply st
  end.

Definition run (evs : list Event) (st : State) : State := foldl (flip step) st evs.

(** A question and the answer shown for it. *)
Definition exchange (qa : JSString * JSString) : list ChatMessage :=
  [mkMessage user qa.1; mkMessage bot qa.2].

(** The questions that wait for their answer. *)
Definition awaited (st : State) : list ChatMessage :=
  map (fun r => mkMessage user r.2) (inFlight st).

(** What every run of the chat window keeps. *)
Definition Transcript (st : State) : Prop :=
  (exists turns,
     messages st = greeting :: concat (map exchange turns) ++ awaited st
     /\ Forall (fun qa => isBlank qa.1 = false) turns)
  /\ length (inFlight st) = (if isLoading st then 1 else 0)
  /\ Forall (fun r => r.1 = 0 /\ isBlank r.2 = false) (inFlight st)
  /\ chatInstance st = (if decide (chatsCreated st = 0) then None else Some 0)
  /\ chatsCreated st <= 1.

End ChatBot.

(** [App.tsx]: the story form. *)
Module App.

Record State := mkState {
  storyPages : list StoryPage.t;
  prompt : JSString;
  isLoading : bool;
  isIdeaLoading : bool;
  error : option string;
  storyRequests : list JSString;
  ideaRequests : nat
}.

Definition initialState : State :=
  {| storyPages := [];
     prompt := fromAscii "A curious squirrel who finds a magical glowing acorn";
     isLoading := false;
     isIdeaLoading := false;
     error := None;
     storyRequests := [];
     ideaRequests := 0 |}.

(** [{ ...p, imageUrl: undefined }] (line 27). *)
Definition withoutImage (p : StoryPage.t) : StoryPage.t :=
  StoryPage.mk (StoryPage.text p) (StoryPage.imagePrompt p) None.

(** [handleGenerateStory] (lines 16-34) up to its [await]. *)
Definition handleGenerateStory (st : State) : State :=
  if isBlank (prompt st) then
    {| storyPages := storyPages st;
       prompt := prompt st;
       isLoading := isLoading st;
       isIdeaLoading := isIdeaLoading st;
       error := Some "Please enter a story idea!"%string;
       storyRequests := storyRequests st;
       ideaRequests := ideaRequests st |}
  else
    {| storyPages := [];
       prompt := prompt st;
       isLoading := true;
       isIdeaLoading := isIdeaLoading st;
       error := None;
       storyRequests := storyRequests st ++ [prompt st];
       ideaRequests := ideaRequests st |}.

(** The rest of [handleGenerateStory], when the [k]-th story request
    settles: with the pages, or [None] when the request or the reading of
    its result throws. *)
Definition storySettles (k : nat) (result : option (list StoryPage.t)) (st : State) : State :=
  match storyRequests st !! k with
  | None => st
  | Some _ =>
      {| storyPages := match result with
                       | Some pages => map withoutImage pages
                       | None => storyPages st
                       end;
         prompt := prompt st;
         isLoading := false;
         isIdeaLoading := isIdeaLoading st;
         error := match result with
                  | Some _ => error st
                  | None =>
                      Some "Oops! Something went wrong while creating the story. Please try again."%string
                  end;
         storyRequests := delete k (storyRequests st);
         ideaRequests := ideaRequests st |}
  end.

(** [handleGenerateIdea] (lines 36-48) up to its [await]. *)
Definition handleGenerateIdea (st : State) : State :=
  {| storyPages := storyPages st;
     prompt := prompt st;
     isLoading := isLoading st;
     isIdeaLoading := true;
     error := None;
     storyRequests := storyRequests st;
     ideaRequests := S (ideaRequests st) |}.

(** The rest of [handleGenerateIdea], when an idea request settles:
    [generateStoryIdea] (geminiService.ts, lines 55-61) trims the text. *)
Definition ideaSettles (result : option JSString) (st : State) : State :=
  match ideaRequests st with
  | 0 => st
  | S n =>
      {| storyPages := storyPages st;
         prompt := match result with
                   | Some t => trim t
                   | None => prompt st
                   end;
         isLoading := isLoading st;
         isIdeaLoading := false;
         error := match result with
                  | Some _ => error st
                  | None =>
                      Some "Oops! I ran out of ideas. Please try again in a moment."%string
                  end;
         storyRequests := storyRequests st;
         ideaRequests := n |}
  end.

(** [handleNewStory] (lines 50-53). *)
Definition handleNewStory (st : State) : State :=
  {| storyPages := [];
     prompt := prompt st;
     isLoading := isLoading st;
     isIdeaLoading := isIdeaLoading st;
     error := None;
     storyRequests := storyRequests st;
     ideaRequests := ideaRequests st |}.

Definition with_prompt (v : JSString) (st : State) : State :=
  {| storyPages := storyPages st;
     prompt := v;
     isLoading := isLoading st;
     isIdeaLoading := isIdeaLoading st;
     error := error st;
     storyRequests := storyRequests st;
     ideaRequests := ideaRequests st |}.

(** The form is rendered while there is no story (line 66), the viewer
    with its new-story button otherwise; the form's controls are disabled
    while either request is awaited (lines 76, 80, 95). *)
Definition formShown (st : State) : bool := bool_decide (storyPages st = []).
Definition formEnabled (st : State) : bool :=
  formShown st && negb (isLoading st || isIdeaLoading st).

Inductive Event :=
| TypePrompt (s : JSString)
| ClickGenerate
| ClickIdea
| ClickNewStory
| StorySettles (k : nat) (result : option (list StoryPage.t))
| IdeaSettles (result : option JSString).

Definition step (e : Event) (st : State) : State :=
  match e with
  | TypePrompt s => if formEnabled st then with_prompt s st else st
  | ClickGenerate => if formEnabled st then handleGenerateStory st else st
  | ClickIdea => if formEnabled st then handleGenerateIdea st else st
  | ClickNewStory => if formShown st then st else handleNewStory st
  | StorySettles k result => storySettles k result st
  | IdeaSettles result => ideaSettles result st
  end.

Definition run (evs : list Event) (st : State) : State := foldl (flip step) st evs.

(** The viewer is mounted. *)
Definition viewerShown (st : State) : bool := negb (formShown st).

(** What every run of the form keeps: the story carries no image, at
    most one request is awaited, its flag is set, the form is shown while
    it is, and no story was asked for with a blank prompt. *)
Definition OneRequest (st : State) : Prop :=
  Forall (fun p => StoryPage.imageUrl p = None) (storyPages st)
  /\ length (storyRequests st) = (if isLoading st then 1 else 0)
  /\ ideaRequests st = (if isIdeaLoading st then 1 else 0)
  /\ isLoading st && isIdeaLoading st = false
  /\ (isLoading st || isIdeaLoading st = true -> storyPages st = [])
  /\ Forall (fun q => isBlank q = false) (storyRequests st).

End App.

Section Controller.

(** Whether [stop()] on a source that has already ended throws: a
    property of the browser, which the source allows for (line 58). *)
Variable stopThrowsAfterEnd : bool.

(** [source.stop()]. *)
Definition sourceStop (sid : nat) : M unit :=
  fun st => match sources st !! sid with
            | Some s =>
                match phase s with
                | Unstarted => Throw InvalidStateError st
                | Started => alterSource sid (with_phase Ended) st
                | Ended => if stopThrowsAfterEnd then Throw InvalidStateError st
                           else Normal tt st
                end
            | None => Throw TypeError st
            end.

(** [stopAudio] (lines 52-67). *)
Definition stopAudio : M unit :=
  cur <- get ;;
  match audioSourceRef cur with
  | Some sid =>
      alterSource sid (with_onended None) ;;
      tryCatch (sourceStop sid) (fun _ => ret tt (* console.warn *))
  | None => ret tt
  end ;;
  cur <- get ;;
  match audioContextRef cur with
  | Some c =>
      if decide (contextState c cur = Some closed) then ret tt
      else contextClose c
  | None => ret tt
  end ;;
  setAudioSourceRef None ;;
  setAudioContextRef None ;;
  setPlaybackStatus stopped.

(** [playAudioForCurrentPage] (lines 69-89); [currentPage] is the page of
    the render the callback belongs to. *)
Definition playAudioForCurrentPage (currentPage : StoryPageState) : M unit :=
  match audioBuffer currentPage with
  | None => ret tt
  | Some buf =>
      stopAudio ;;
      context <- newAudioContext ;;
      source <- createBufferSource context ;;
      alterSource source (with_buffer (Some buf)) ;;
      alterSource source (with_connected true) ;;
      alterSource source (with_onended (Some StopUnlessSuspended)) ;;
      sourceStart source ;;
      setAudioContextRef (Some context) ;;
      setAudioSourceRef (Some source) ;;
      setPlaybackStatus playing
  end.

(** The body of the completion callback. *)
Definition runCallback (cb : Callback) : M unit :=
  match cb with
  | StopUnlessSuspended =>
      cur <- get ;;
      if decide (refContextState cur = Some suspended) then ret tt else stopAudio
  end.

(** The autoplay effect (lines 128-136), for the render with state [r]. *)
Definition autoplayEffect (r : State) (currentPage : StoryPageState) : M unit :=
  if shouldAutoplay r then
    match arrayGetZ (storyPages r) (currentPageIndex r) with
    | None => raise TypeError
    | Some pageToPlay =>
        if truthyObject (audioBuffer pageToPlay) then
          playAudioForCurrentPage currentPage ;;
          setShouldAutoplay false
        else ret tt
    end
  else ret tt.

(** [handlePlayPauseToggle] (lines 139-154). *)
Definition handlePlayPauseToggle (r : State) (currentPage : StoryPageState) : M unit :=
  setShouldAutoplay false ;;
  match playbackStatus r with
  | playing =>
      cur <- get ;;
      if decide (refContextState cur = Some running) then
        match audioContextRef cur with
        | Some c => contextSuspend c ;; setPlaybackStatus paused
        | None => raise TypeError
        end
      else ret tt
  | paused =>
      cur <- get ;;
      if decide (refContextState cur = Some suspended) then
        match audioContextRef cur with
        | Some c => contextResume c ;; setPlaybackStatus playing
        | None => raise TypeError
        end
      else ret tt
  | stopped => playAudioForCurrentPage currentPage
  end.

(** [handleNextPage] (lines 156-162). *)
Definition handleNextPage (r : State) : M unit :=
  if decide (currentPageIndex r < Z.of_nat (length (storyPages r)) - 1)%Z then
    stopAudio ;;
    setCurrentPageIndex (fun prev => prev + 1)%Z ;;
    setShouldAutoplay true
  else ret tt.

(** [handlePrevPage] (lines 164-170). *)
Definition handlePrevPage (r : State) : M unit :=
  if decide (currentPageIndex r > 0)%Z then
    stopAudio ;;
    setCurrentPageIndex (fun prev => prev - 1)%Z ;;
    setShouldAutoplay false
  else ret tt.

(** ** The component as a machine *)

(** [const currentPage = storyPages[currentPageIndex]] (line 42).  A render
    reads [currentPage.audioBuffer] (line 89), so it throws when there is
    no such page. *)
Definition currentPage (st : State) : option StoryPageState :=
  arrayGetZ (storyPages st) (currentPageIndex st).

(** [isPlayButtonDisabled] (line 178). *)
Definition isPlayButtonDisabled (page : StoryPageState) : bool :=
  truthyBool (isAudioLoading page) || truthyBool (audioError page)
  || negb (truthyObject (audioBuffer page)).

(** What can happen to a mounted viewer: a click on one of the three
    buttons, a functional update of the page array, or a started source
    playing to its end. *)
Inductive Event :=
| ClickPlayPause
| ClickNext
| ClickPrev
| PagesUpdated (index : nat) (updates : Partial.t)
| SourceEnds (sid : nat).

(** The platform ends a started source of a running context and calls its
    [onended] callback, if one is installed. *)
Definition sourceEnds (sid : nat) : M unit :=
  fun st =>
    match sources st !! sid with
    | Some s =>
        if decide (phase s = Started /\ contextState (context s) st = Some running) then
          (alterSource sid (with_phase Ended) ;;
           match onended s with
           | Some cb => runCallback cb
           | None => ret tt
           end) st
        else Normal tt st
    | None => Normal tt st
    end.

(** The handler an event runs, with the closures of the latest render.  A
    disabled button (lines 214, 223, 239) ignores the click. *)
Definition dispatch (e : Event) : M unit :=
  fun st =>
    match currentPage st with
    | None => Throw TypeError st
    | Some page =>
        match e with
        | ClickPlayPause =>
            if isPlayButtonDisabled page then Normal tt st
            else handlePlayPauseToggle st page st
        | ClickNext =>
            if decide (currentPageIndex st = Z.of_nat (length (storyPages st)) - 1)%Z
            then Normal tt st
            else handleNextPage st st
        | ClickPrev =>
            if decide (currentPageIndex st = 0)%Z then Normal tt st
            else handlePrevPage st st
        | PagesUpdated index updates => setStoryPages (updatePage index updates) st
        | SourceEnds sid => sourceEnds sid st
        end
    end.

(** The render that follows a handler, and the autoplay effect it runs. *)
Definition afterRender : M unit :=
  fun st =>
    match currentPage st with
    | None => Throw TypeError st
    | Some page => autoplayEffect st page st
    end.

Definition step (e : Event) : M unit := dispatch e ;; afterRender.

Fixpoint run (evs : list Event) : M unit :=
  match evs with
  | [] => ret tt
  | e :: evs' => step e ;; run evs'
  end.

(** [useState] initialisers (lines 26-40) for the [pages] prop. *)
Definition initialPage (p : StoryPage.t) : StoryPageState :=
  {| text := Some (StoryPage.text p);
     imagePrompt := Some (StoryPage.imagePrompt p);
     imageUrl := StoryPage.imageUrl p;
     audioData := None;
     audioBuffer := None;
     isImageLoading := Some false;
     isAudioLoading := Some false;
     imageError := Some false;
     audioError := Some false |}.

Definition initialStoryPages (pages : list StoryPage.t) : PageArray :=
  map (fun p => Some (initialPage p)) pages.

Definition initialState (pages : list StoryPage.t) : State :=
  {| currentPageIndex := 0;
     storyPages := initialStoryPages pages;
     playbackStatus := stopped;
     shouldAutoplay := false;
     audioContextRef := None;
     audioSourceRef := None;
     contexts := [];
     sources := [] |}.

(** ** Sessions *)

(** A source is a live output session when it has been started, has not
    ended, and its context has not been closed. *)
Definition isLive (st : State) (sid : nat) : bool :=
  match sources st !! sid with
  | Some s =>
      bool_decide (phase s = Started)
      && match contexts st !! context s with
         | Some c => negb (bool_decide (c = closed))
         | None => false
         end
  | None => false
  end.

Definition liveSessions (st : State) : list nat :=
  List.filter (isLive st) (seq 0 (length (sources st))).

(** A source is fully released: callback disconnected, output halted,
    context closed. *)
Definition released (st : State) (sid : nat) : Prop :=
  exists s, sources st !! sid = Some s
    /\ onended s = None /\ phase s = Ended
    /\ contexts st !! context s = Some closed.

(** The controller owns every live session: a source names a context that
    exists, and a live source is the one [audioSourceRef] holds. *)
Definition Owned (st : State) : Prop :=
  (forall sid s, sources st !! sid = Some s -> context s < length (contexts st))
  /\ (forall sid, isLive st sid = true -> audioSourceRef st = Some sid).

(** The status agrees with the context the controller holds. *)
Definition Coherent (st : State) : Prop :=
  match playbackStatus st with
  | playing => refContextState st = Some running
  | paused => refContextState st = Some suspended
  | stopped => audioContextRef st = None /\ audioSourceRef st = None
  end.

(** [Owned], as a test that runs. *)
Definition ownedb (st : State) : bool :=
  forallb (fun s => context s <? length (contexts st)) (sources st)
  && forallb (fun sid => implb (isLive st sid)
                               (bool_decide (audioSourceRef st = Some sid)))
             (seq 0 (length (sources st))).

(** The invariant of the controller. *)
Definition Inv (st : State) : Prop := Owned st /\ Coherent st.

(** The autoplay intent as a number: [1] when armed. *)
Definition armed (st : State) : nat := if shouldAutoplay st then 1 else 0.

(** The number of times a run arms the intent. *)
Definition nextClicks (evs : list Event) : nat :=
  length (List.filter (fun e => match e with ClickNext => true | _ => false end) evs).

(** Sessions created between two states. *)
Definition sessionsCreated (before after : State) : nat :=
  length (sources after) - length (sources before).

(** Sessions the autoplay effect creates along a run. *)
Fixpoint autoplays (evs : list Event) (st : State) : nat :=
  match evs with
  | [] => 0
  | e :: evs' =>
      match dispatch e st with
      | Normal _ mid =>
          match afterRender mid with
          | Normal _ st' => sessionsCreated mid st' + autoplays evs' st'
          | Throw _ st' => sessionsCreated mid st'
          end
      | Throw _ _ => 0
      end
  end.

(** ** The prefetch pipeline *)

Definition Bytes := list Byte.byte.

(** What the pipeline calls and does not define: the two gateway requests
    of [services/geminiService.ts], [decode] and [decodeAudioData] of
    [utils/audio], and closing the temporary decoding context.  The
    answer to an awaited call may depend on [k], the number of awaits the
    pipeline has made before it. *)
Record Gateway := mkGateway {
  generateImage : nat -> string -> Promise string;
  generateSpeech : nat -> string -> Promise string;
  decode : string -> option Bytes;          (* [None]: throws *)
  decodeAudioData : nat -> Bytes -> Promise AudioBuffer;
  closeTempContext : nat -> Promise unit
}.

Inductive Request :=
| GenerateImage (prompt : string)
| GenerateSpeech (text : string)
| DecodeAudioData (bytes : Bytes)
| CloseTempContext.

(** What [prefetchAssets] does, in order, while it handles page [index]. *)
Inductive Action :=
| UpdatePage (index : nat) (updates : Partial.t)
| Await (k : nat) (index : nat) (rq : Request)       (* suspends on its [k]-th await *)
| Resume (k : nat) (index : nat) (fulfilled : bool)  (* that promise settled *)
| NewTempContext (index : nat)
| ConsoleError (index : nat)
| Uncaught (index : nat).                            (* a [TypeError] leaves the loop *)

(** The object literals passed to [updatePage] (lines 96-118). *)
Definition imageLoading : Partial.t :=
  Partial.mk None None None None None (Some (Some true)) None None None.
Definition imageLoaded (imageUrl : string) : Partial.t :=
  Partial.mk None None (Some (Some imageUrl)) None None (Some (Some false)) None None None.
Definition imageFailed : Partial.t :=
  Partial.mk None None None None None (Some (Some false)) None (Some (Some true)) None.
Definition audioLoading : Partial.t :=
  Partial.mk None None None None None None (Some (Some true)) None None.
Definition audioLoaded (audioData : string) (audioBuffer : AudioBuffer) : Partial.t :=
  Partial.mk None None None (Some (Some audioData)) (Some (Some audioBuffer))
             None (Some (Some false)) None None.
Definition audioFailed : Partial.t :=
  Partial.mk None None None None None None (Some (Some false)) None (Some (Some true)).

(** A stretch of the loop body: what it does, and the number of awaits made
    so far if control reaches its end ([None] when it is suspended on a
    pending promise or left by an uncaught exception). *)
Definition Block : Type := list Action * option nat.

Definition skip (k : nat) : Block := ([], Some k).
Definition abort (index : nat) : Block := ([Uncaught index], None).
Definition prefix (l : list Action) (b : Block) : Block := (l ++ b.1, b.2).
Definition andThen (b : Block) (f : nat -> Block) : Block :=
  match b.2 with
  | Some k => prefix b.1 (f k)
  | None => b
  end.

(** [await p] inside a [try]: the rest of the [try] block runs when the
    promise is fulfilled, the [catch] block when it is rejected, and
    nothing while it is pending. *)
Definition awaitThen {A} (k index : nat) (rq : Request) (p : Promise A)
    (onFulfilled : A -> Block) (onRejected : Block) : Block :=
  match p with
  | Fulfilled a => prefix [Await k index rq; Resume k index true] (onFulfilled a)
  | Rejected => prefix [Await k index rq; Resume k index false] onRejected
  | Pending => ([Await k index rq], None)
  end.

(** Lines 96-103. *)
Definition fetchImage (gw : Gateway) (k index : nat) (prompt : string) : Block :=
  prefix [UpdatePage index imageLoading]
    (awaitThen k index (GenerateImage prompt) (generateImage gw k prompt)
       (fun imageUrl => ([UpdatePage index (imageLoaded imageUrl)], Some (S k)))
       ([ConsoleError index; UpdatePage index imageFailed], Some (S k))).

(** Lines 108-119. *)
Definition fetchAudio (gw : Gateway) (k index : nat) (txt : string) : Block :=
  let catch (k' : nat) : Block :=
    ([ConsoleError index; UpdatePage index audioFailed], Some k') in
  prefix [UpdatePage index audioLoading]
    (awaitThen k index (GenerateSpeech txt) (generateSpeech gw k txt)
       (fun audioData =>
          prefix [NewTempContext index]
            match decode gw audioData with
            | None => catch (S k)
            | Some decodedBytes =>
                awaitThen (S k) index (DecodeAudioData decodedBytes)
                  (decodeAudioData gw (S k) decodedBytes)
                  (fun audioBuffer =>
                     awaitThen (S (S k)) index CloseTempContext
                       (closeTempContext gw (S (S k)))
                       (fun _ => ([UpdatePage index (audioLoaded audioData audioBuffer)],
                                  Some (S (S (S k)))))
                       (catch (S (S (S k)))))
                  (catch (S (S k)))
            end)
       (catch (S k))).

(** Lines 95-104: [if (pages[i].imagePrompt && !storyPages[i].imageUrl)]. *)
Definition imagePart (gw : Gateway) (pages : list StoryPage.t) (storyPages : PageArray)
    (i k : nat) : Block :=
  match pages !! i with
  | None => abort i
  | Some p =>
      if truthyString (StoryPage.imagePrompt p) then
        match arrayGet storyPages i with
        | None => abort i
        | Some s =>
            if truthyOptString (imageUrl s) then skip k
            else fetchImage gw k i (StoryPage.imagePrompt p)
        end
      else skip k
  end.

(** Lines 107-120: [if (pages[i].text && !storyPages[i].audioBuffer)]. *)
Definition audioPart (gw : Gateway) (pages : list StoryPage.t) (storyPages : PageArray)
    (i k : nat) : Block :=
  match pages !! i with
  | None => abort i
  | Some p =>
      if truthyString (StoryPage.text p) then
        match arrayGet storyPages i with
        | None => abort i
        | Some s =>
            if truthyObject (audioBuffer s) then skip k
            else fetchAudio gw k i (StoryPage.text p)
        end
      else skip k
  end.

Definition loopBody (gw : Gateway) (pages : list StoryPage.t) (storyPages : PageArray)
    (i k : nat) : Block :=
  andThen (imagePart gw pages storyPages i k)
          (fun k1 => audioPart gw pages storyPages i k1).

(** [for (let i = ...; i < pages.length; i++)], with [n] iterations left. *)
Fixpoint prefetchFrom (gw : Gateway) (pages : list StoryPage.t) (storyPages : PageArray)
    (n i k : nat) : list Action :=
  match n with
  | 0 => []
  | S n' =>
      let b := loopBody gw pages storyPages i k in
      match b.2 with
      | Some k' => b.1 ++ prefetchFrom gw pages storyPages n' (S i) k'
      | None => b.1
      end
  end.

(** [prefetchAssets] (lines 92-122), run by the effect of the first render:
    the [storyPages] of its closure is the initial state. *)
Definition prefetchAssets (gw : Gateway) (pages : list StoryPage.t) : list Action :=
  prefetchFrom gw pages (initialStoryPages pages) (length pages) 0 0.

(** The effect of the pipeline on the page array. *)
Definition applyAction (arr : PageArray) (a : Action) : PageArray :=
  match a with
  | UpdatePage index updates => updatePage index updates arr
  | _ => arr
  end.

Definition applyLog (log : list Action) (arr : PageArray) : PageArray :=
  fold_left applyAction log arr.

Definition pageOf (a : Action) : nat :=
  match a with
  | UpdatePage i _ | Await _ i _ | Resume _ i _
  | NewTempContext i | ConsoleError i | Uncaught i => i
  end.

(** A fetch attempt: the request for an image, or for speech. *)
Definition isImageRequest (a : Action) : bool :=
  match a with
  | Await _ _ (GenerateImage _) => true
  | _ => false
  end.
Definition isSpeechRequest (a : Action) : bool :=
  match a with
  | Await _ _ (GenerateSpeech _) => true
  | _ => false
  end.

Definition onPage (i : nat) (a : Action) : bool := bool_decide (pageOf a = i).

(** A fetch attempt for the image, or the audio, of page [i]. *)
Definition isImageFetch (i : nat) (a : Action) : bool := onPage i a && isImageRequest a.
Definition isAudioFetch (i : nat) (a : Action) : bool := onPage i a && isSpeechRequest a.

Definition countIf {A} (f : A -> bool) (l : list A) : nat :=
  length (List.filter f l).

(** [storyPages[i].imageError] and [storyPages[i].audioError], as the view
    tests them. *)
Definition imageErrorAt (arr : PageArray) (i : nat) : bool :=
  match arrayGet arr i with
  | Some s => truthyBool (imageError s)
  | None => false
  end.
Definition audioErrorAt (arr : PageArray) (i : nat) : bool :=
  match arrayGet arr i with
  | Some s => truthyBool (audioError s)
  | None => false
  end.

(** An update that raises an error flag, and one that leaves a raised
    flag alone. *)
Definition raisesFlag (upd : option (option bool)) : bool :=
  match upd with
  | Some (Some true) => true
  | _ => false
  end.
Definition keepsFlag (upd : option (option bool)) : bool :=
  match upd with
  | None | Some (Some true) => true
  | _ => false
  end.

Definition setsImageError (a : Action) : bool :=
  match a with
  | UpdatePage _ u => raisesFlag (Partial.imageError u)
  | _ => false
  end.
Definition setsAudioError (a : Action) : bool :=
  match a with
  | UpdatePage _ u => raisesFlag (Partial.audioError u)
  | _ => false
  end.
Definition keepsErrors (a : Action) : bool :=
  match a with
  | UpdatePage _ u => keepsFlag (Partial.imageError u) && keepsFlag (Partial.audioError u)
  | _ => true
  end.

(** No action satisfying [quiet] comes after one satisfying [trigger]. *)
Fixpoint quietAfter (trigger quiet : Action -> bool) (log : list Action) : bool :=
  match log with
  | [] => true
  | a :: rest =>
      (if trigger a then forallb (fun b => negb (quiet b)) rest else true)
      && quietAfter trigger quiet rest
  end.

(** Every await is the last thing the pipeline did, or is directly
    followed by its own resumption. *)
Fixpoint awaitsInTurn (log : list Action) : bool :=
  match log with
  | [] => true
  | Await k i _ :: rest =>
      match rest with
      | [] => true
      | Resume k' i' _ :: _ => (k' =? k) && (i' =? i) && awaitsInTurn rest
      | _ => false
      end
  | _ :: rest => awaitsInTurn rest
  end.

(** The log does not end on an unanswered await. *)
Definition endsSettled (log : list Action) : bool :=
  match last log with
  | Some (Await _ _ _) => false
  | _ => true
  end.

(** What every run of the loop body satisfies, page aside. *)
Definition bodyOk (completes : bool) (log : list Action) : bool :=
  awaitsInTurn log
  && (if completes then endsSettled log else true)
  && (countIf isImageRequest log <=? 1)
  && (countIf isSpeechRequest log <=? 1)
  && quietAfter setsImageError isImageRequest log
  && quietAfter setsAudioError isSpeechRequest log
  && quietAfter isSpeechRequest isImageRequest log
  && forallb keepsErrors log.

(** The shape of a pipeline log that starts at page [i]: the bodies of
    pages [i], [i + 1], ... in turn, the last one possibly cut short. *)
Inductive PipelineLog : nat -> list Action -> Prop :=
| PipelineLog_end i : PipelineLog i []
| PipelineLog_cut i body :
    Forall (fun a => pageOf a = i) body -> bodyOk false body = true ->
    PipelineLog i body
| PipelineLog_next i body rest :
    Forall (fun a => pageOf a = i) body -> bodyOk true body = true ->
    PipelineLog (S i) rest ->
    PipelineLog i (body ++ rest).

(** The order of the story on actions. *)
Definition pageOrder (a b : Action) : Prop := pageOf a <= pageOf b.

(** The reading of the design contract by which no fetch waits for
    another: whatever the other requests do, the image fetch of every page
    that needs one is issued. *)
Definition NonBlockingPipeline : Prop :=
  forall (gw : Gateway) (pages : list StoryPage.t) (j : nat) (p : StoryPage.t),
    pages !! j = Some p ->
    truthyString (StoryPage.imagePrompt p) = true ->
    truthyOptString (StoryPage.imageUrl p) = false ->
    In (UpdatePage j imageLoading) (prefetchAssets gw pages)
    /\ exists k, In (Await k j (GenerateImage (StoryPage.imagePrompt p)))
                    (prefetchAssets gw pages).

(** ** A two-page story, used to run the definitions *)

Definition examplePages : list StoryPage.t :=
  [StoryPage.mk "A" "p1" None; StoryPage.mk "B" "p2" None].

(** A gateway whose image requests never settle. *)
Definition slowGateway : Gateway :=
  {| generateImage := fun _ _ => Pending;
     generateSpeech := fun _ txt => Fulfilled txt;
     decode := fun _ => Some [];
     decodeAudioData := fun k _ => Fulfilled k;
     closeTempContext := fun _ => Fulfilled tt |}.

(** A gateway whose image requests fail and whose audio cannot be decoded. *)
Definition failingGateway : Gateway :=
  {| generateImage := fun _ _ => Rejected;
     generateSpeech := fun _ txt => Fulfilled txt;
     decode := fun _ => None;
     decodeAudioData := fun k _ => Fulfilled k;
     closeTempContext := fun _ => Fulfilled tt |}.

(** A page whose audio has been fetched and decoded into [buf]. *)
Definition readyPage (p : StoryPage.t) (buf : AudioBuffer) : StoryPageState :=
  spread (initialPage p) (audioLoaded (StoryPage.text p) buf).

(** The viewer on page 0 of a story whose two pages have their audio. *)
Definition readyState : State :=
  with_storyPages
    [Some (readyPage (StoryPage.mk "A" "p1" None) 7);
     Some (readyPage (StoryPage.mk "B" "p2" None) 8)]
    (initialState examplePages).

(** ** Closed forms used in the proofs *)

(** What [stopAudio] does to the source the controller holds: the callback
    is removed and a started source is ended. *)
Definition haltSource (s : AudioBufferSourceNode) : AudioBufferSourceNode :=
  mkSource (context s) (buffer s) (connected s) None
           (match phase s with Started => Ended | ph => ph end).

Definition haltedSources (st : State) : list AudioBufferSourceNode :=
  match audioSourceRef st with
  | Some sid => alter haltSource sid (sources st)
  | None => sources st
  end.

Definition closedContexts (st : State) : list AudioContextState :=
  match audioContextRef st with
  | Some c => <[c := closed]> (contexts st)
  | None => contexts st
  end.

Definition stoppedState (st : State) : State :=
  {| currentPageIndex := currentPageIndex st;
     storyPages := storyPages st;
     playbackStatus := stopped;
     shouldAutoplay := shouldAutoplay st;
     audioContextRef := None;
     audioSourceRef := None;
     contexts := closedContexts st;
     sources := haltedSources st |}.

(** The session [playAudioForCurrentPage] creates for [buf]. *)
Definition playingState (buf : AudioBuffer) (st : State) : State :=
  {| currentPageIndex := currentPageIndex st;
     storyPages := storyPages st;
     playbackStatus := playing;
     shouldAutoplay := shouldAutoplay st;
     audioContextRef := Some (length (contexts st));
     audioSourceRef := Some (length (sources st));
     contexts := closedContexts st ++ [running];
     sources := haltedSources st
                ++ [mkSource (length (contexts st)) (Some buf) true
                             (Some StopUnlessSuspended) Started] |}.

(** The toggle handler, from [playing] with a running context and from
    [paused] with a suspended one. *)
Definition retunedState (status : PlaybackStatus) (v : AudioContextState) (st : State) : State :=
  {| currentPageIndex := currentPageIndex st;
     storyPages := storyPages st;
     playbackStatus := status;
     shouldAutoplay := false;
     audioContextRef := audioContextRef st;
     audioSourceRef := audioSourceRef st;
     contexts := match audioContextRef st with
                 | Some c => <[c := v]> (contexts st)
                 | None => contexts st
                 end;
     sources := sources st |}.

(** ** Further definitions *)

(** [{ ...u1, ...u2 }] for two update objects. *)
Definition spreadPartialField {T : Type} (a b : option (option T)) : option (option T) :=
  match b with
  | Some v => Some v
  | None => a
  end.

Definition spreadPartial (u1 u2 : Partial.t) : Partial.t :=
  {| Partial.text := spreadPartialField (Partial.text u1) (Partial.text u2);
     Partial.imagePrompt :=
       spreadPartialField (Partial.imagePrompt u1) (Partial.imagePrompt u2);
     Partial.imageUrl := spreadPartialField (Partial.imageUrl u1) (Partial.imageUrl u2);
     Partial.audioData := spreadPartialField (Partial.audioData u1) (Partial.audioData u2);
     Partial.audioBuffer :=
       spreadPartialField (Partial.audioBuffer u1) (Partial.audioBuffer u2);
     Partial.isImageLoading :=
       spreadPartialField (Partial.isImageLoading u1) (Partial.isImageLoading u2);
     Partial.isAudioLoading :=
       spreadPartialField (Partial.isAudioLoading u1) (Partial.isAudioLoading u2);
     Partial.imageError :=
       spreadPartialField (Partial.imageError u1) (Partial.imageError u2);
     Partial.audioError :=
       spreadPartialField (Partial.audioError u1) (Partial.audioError u2) |}.

(** What the updates of a log make of one page object. *)
Definition pageAfter (log : list Action) (o : StoryPageState) : StoryPageState :=
  fold_left (fun o a => match a with
                        | UpdatePage _ u => spread o u
                        | _ => o
                        end) log o.

(** The two tests of the loop body (lines 95 and 107) on the initial state:
    a page needs an image when it has a prompt and no image yet, and audio
    when it has text. *)
Definition needsImage (p : StoryPage.t) : bool :=
  truthyString (StoryPage.imagePrompt p) && negb (truthyOptString (StoryPage.imageUrl p)).
Definition needsAudio (p : StoryPage.t) : bool := truthyString (StoryPage.text p).

(** The states a page's assets can be in: for each kind, at most one of
    fetched, loading and failed. *)
Definition AssetStates (p : StoryPage.t) (o : StoryPageState) : Prop :=
  (is_Some (audioData o) <-> is_Some (audioBuffer o))
  /\ (exists a b c d, isImageLoading o = Some a /\ isAudioLoading o = Some b
                      /\ imageError o = Some c /\ audioError o = Some d)
  /\ (needsImage p = false ->
      imageUrl o = StoryPage.imageUrl p /\ isImageLoading o = Some false
      /\ imageError o = Some false)
  /\ (needsAudio p = false ->
      audioBuffer o = None /\ isAudioLoading o = Some false /\ audioError o = Some false)
  /\ (isImageLoading o = Some true ->
      imageUrl o = StoryPage.imageUrl p /\ imageError o = Some false)
  /\ (imageError o = Some true ->
      imageUrl o = StoryPage.imageUrl p /\ isImageLoading o = Some false)
  /\ (isAudioLoading o = Some true -> audioBuffer o = None /\ audioError o = Some false)
  /\ (audioError o = Some true -> audioBuffer o = None /\ isAudioLoading o = Some false).

(** The text of a page is the story's. *)
Definition KeepsStory (p : StoryPage.t) (o : StoryPageState) : Prop :=
  text o = Some (StoryPage.text p) /\ imagePrompt o = Some (StoryPage.imagePrompt p).

(** The page array while the pipeline runs: pages from [i] on are untouched. *)
Definition PagesGood (pages : list StoryPage.t) (i : nat) (arr : PageArray) : Prop :=
  length arr = length pages
  /\ forall j p, pages !! j = Some p ->
       exists o, arr !! j = Some (Some o)
         /\ KeepsStory p o /\ AssetStates p o
         /\ (i <= j -> o = initialPage p).

(** A gateway that answers every request, well or badly. *)
Definition Settles (gw : Gateway) : Prop :=
  (forall k s, generateImage gw k s <> Pending)
  /\ (forall k s, generateSpeech gw k s <> Pending)
  /\ (forall k b, decodeAudioData gw k b <> Pending)
  /\ (forall k, closeTempContext gw k <> Pending).

(** A page the pipeline is done with: nothing is loading, and each asset the
    page needed is either there or flagged as failed. *)
Definition SettledPage (p : StoryPage.t) (o : StoryPageState) : Prop :=
  isImageLoading o = Some false
  /\ isAudioLoading o = Some false
  /\ (needsImage p = true ->
      (exists url, imageUrl o = Some url /\ imageError o = Some false)
      \/ imageError o = Some true)
  /\ (needsAudio p = true ->
      (exists data buf, audioData o = Some data /\ audioBuffer o = Some buf
                        /\ audioError o = Some false)
      \/ audioError o = Some true).

Definition PagesSettled (pages : list StoryPage.t) (i : nat) (arr : PageArray) : Prop :=
  length arr = length pages
  /\ forall j p, pages !! j = Some p ->
       exists o, arr !! j = Some (Some o)
         /\ (j < i -> SettledPage p o)
         /\ (i <= j -> o = initialPage p).

Definition isUncaught (a : Action) : bool :=
  match a with
  | Uncaught _ => true
  | _ => false
  end.

(** All prefixes of a list. *)
Fixpoint inits {A} (l : list A) : list (list A) :=
  [] :: match l with
        | [] => []
        | a :: l' => map (cons a) (inits l')
        end.

(** A mounted viewer over a story of [n] pages: the index names a page and
    every slot of the array holds an object. *)
Definition Mounted (n : nat) (st : State) : Prop :=
  (0 <= currentPageIndex st < Z.of_nat n)%Z
  /\ length (storyPages st) = n
  /\ forall j, j < n -> is_Some (arrayGet (storyPages st) j).

(** A page update that names a page of the story. *)
Definition targetsPage (n : nat) (e : Event) : Prop :=
  match e with
  | PagesUpdated index _ => index < n
  | _ => True
  end.

(** Every context and every source the controller does not hold has been
    released; the source it holds plays on the context it holds. *)
Definition Tidy (st : State) : Prop :=
  (forall c x, contexts st !! c = Some x -> audioContextRef st = Some c \/ x = closed)
  /\ (forall sid s, sources st !! sid = Some s ->
        (audioSourceRef st = Some sid /\ audioContextRef st = Some (context s)
         /\ phase s <> Unstarted)
        \/ (onended s = None /\ phase s = Ended)).

(** Nothing is left open: every context is closed, every source has ended
    and has no callback. *)
Definition AllReleased (st : State) : Prop :=
  (forall c x, contexts st !! c = Some x -> x = closed)
  /\ (forall sid s, sources st !! sid = Some s -> onended s = None /\ phase s = Ended).

(** An automatic play of the displayed page [page], with buffer [buf],
    took [st] to [st']: [play()] of that page ran on [st] and the intent was
    cleared, so that one session was created, started on the page's buffer
    in a running context, and it is the session the controller holds. *)
Definition AutoPlayed (page : StoryPageState) (buf : AudioBuffer) (st st' : State) : Prop :=
  currentPage st = Some page /\ audioBuffer page = Some buf
  /\ (exists s1, playAudioForCurrentPage page st = Normal tt s1
                 /\ st' = with_shouldAutoplay false s1)
  /\ sessionsCreated st st' = 1
  /\ audioSourceRef st' = Some (length (sources st))
  /\ (exists src, sources st' !! length (sources st) = Some src
                  /\ buffer src = Some buf /\ connected src = true
                  /\ phase src = Started
                  /\ audioContextRef st' = Some (context src)
                  /\ contexts st' !! context src = Some running)
  /\ isLive st' (length (sources st)) = true
  /\ playbackStatus st' = playing
  /\ shouldAutoplay st' = false.

(** ** The toggle handler, cut at its [await] *)








(** * Facts *)

(** ** The page array *)

Lemma spreadField_merged {T : Type} (old : option T) upd :
mergedField old upd (spreadField old upd).
Proof. destruct upd; reflexivity. Qed.

Lemma arraySet_length_in (arr : PageArray) i o :
i < length arr -> length (arraySet arr i o) = length arr.
Proof.
intros Hi. unfold arraySet. destruct (decide (i < length arr)); [|lia].
apply length_insert.
Qed.

Lemma arraySet_length_out (arr : PageArray) i o :
length arr <= i -> length (arraySet arr i o) = S i.
Proof.
intros Hi. unfold arraySet. destruct (decide (i < length arr)); [lia|].
rewrite !length_app, length_replicate. simpl. lia.
Qed.

Lemma arraySet_lookup_eq (arr : PageArray) i o :
arraySet arr i o !! i = Some (Some o).
Proof.
unfold arraySet. destruct (decide (i < length arr)) as [Hi|Hi].
- by apply list_lookup_insert_eq.
- rewrite lookup_app_r by lia.
  rewrite lookup_app_r by (rewrite length_replicate; lia).
  rewrite length_replicate.
  replace (i - length arr - (i - length arr)) with 0 by lia. reflexivity.
Qed.

Lemma arraySet_get_ne (arr : PageArray) i j o :
i <> j -> arrayGet (arraySet arr i o) j = arrayGet arr j.
Proof.
intros Hne. unfold arrayGet, arraySet.
destruct (decide (i < length arr)) as [Hi|Hi].
- by rewrite list_lookup_insert_ne.
- destruct (decide (j < length arr)) as [Hj|Hj].
  + by rewrite lookup_app_l.
  + rewrite (lookup_ge_None_2 arr j) by lia.
    rewrite lookup_app_r by lia.
    destruct (decide (j - length arr < i - length arr)) as [Hlt|Hge].
    * rewrite lookup_app_l by (rewrite length_replicate; lia).
      rewrite lookup_replicate_2 by lia. reflexivity.
    * rewrite lookup_app_r by (rewrite length_replicate; lia).
      rewrite length_replicate.
      destruct (j - length arr - (i - length arr)) as [|m] eqn:E; [lia|].
      reflexivity.
Qed.

Lemma arraySet_lookup_ne_in (arr : PageArray) i j o :
i < length arr -> i <> j -> arraySet arr i o !! j = arr !! j.
Proof.
intros Hi Hne. unfold arraySet.
destruct (decide (i < length arr)); [|lia].
by apply list_lookup_insert_ne.
Qed.

Lemma updatePage_get_eq index updates prev :
arrayGet (updatePage index updates prev) index
= Some (spread (spreadSlot (arrayGet prev index)) updates).
Proof. unfold updatePage, arrayGet at 1. by rewrite arraySet_lookup_eq. Qed.

Lemma updatePage_get_ne index updates prev j :
index <> j -> arrayGet (updatePage index updates prev) j = arrayGet prev j.
Proof. intros. unfold updatePage. by apply arraySet_get_ne. Qed.

Lemma updatePage_length_ge index updates prev :
length prev <= length (updatePage index updates prev).
Proof.
unfold updatePage. destruct (decide (index < length prev)).
- by rewrite arraySet_length_in.
- rewrite arraySet_length_out; lia.
Qed.

(** C9: for a valid index [i], [updatePage i u] keeps the length of the
  array and every other slot, and in the record at [i] each property
  mentioned in [u] takes the value given by [u] while each property not
  mentioned keeps its previous value. *)
Theorem updatePage_frame (i : nat) (u : Partial.t) (prev : PageArray) :
i < length prev ->
length (updatePage i u prev) = length prev
/\ (forall j, j <> i -> updatePage i u prev !! j = prev !! j)
/\ (forall old, prev !! i = Some (Some old) ->
    exists new, updatePage i u prev !! i = Some (Some new)
      /\ mergedField (text old) (Partial.text u) (text new)
      /\ mergedField (imagePrompt old) (Partial.imagePrompt u) (imagePrompt new)
      /\ mergedField (imageUrl old) (Partial.imageUrl u) (imageUrl new)
      /\ mergedField (audioData old) (Partial.audioData u) (audioData new)
      /\ mergedField (audioBuffer old) (Partial.audioBuffer u) (audioBuffer new)
      /\ mergedField (isImageLoading old) (Partial.isImageLoading u) (isImageLoading new)
      /\ mergedField (isAudioLoading old) (Partial.isAudioLoading u) (isAudioLoading new)
      /\ mergedField (imageError old) (Partial.imageError u) (imageError new)
      /\ mergedField (audioError old) (Partial.audioError u) (audioError new)).
Proof.
intros Hi. split; [|split].
- unfold updatePage. by apply arraySet_length_in.
- intros j Hj. unfold updatePage. apply arraySet_lookup_ne_in; [done|congruence].
- intros old Hold. eexists. split.
  + unfold updatePage. apply arraySet_lookup_eq.
  + unfold arrayGet. rewrite Hold. simpl.
    repeat split; apply spreadField_merged.
Qed.

(** ** The controller *)

Lemma alter_at_ext {A} (f g : A -> A) (l : list A) i :
  (forall x, l !! i = Some x -> f x = g x) -> alter f i l = alter g i l.
Proof. intros H. by apply list_alter_ext. Qed.

(** Closing the context the controller holds. *)
Lemma closeHeld_eq idx pages status auto cref sref ctxs srcs :
  match cref with
  | Some c =>
      if decide (contextState c (mkState idx pages status auto cref sref ctxs srcs)
                 = Some closed) then ret tt
      else contextClose c
  | None => ret tt
  end (mkState idx pages status auto cref sref ctxs srcs)
  = Normal tt (mkState idx pages status auto cref sref
                 (match cref with Some c => <[c := closed]> ctxs | None => ctxs end)
                 srcs).
Proof.
  destruct cref as [c|]; [|reflexivity].
  unfold contextState; simpl.
  destruct (decide (ctxs !! c = Some closed)) as [Hc|Hc]; simpl.
  - rewrite (list_insert_id _ _ _ Hc). reflexivity.
  - reflexivity.
Qed.

(** Halting the source the controller holds. *)
Lemma haltHeld_eq idx pages status auto cref sref ctxs srcs :
  match sref with
  | Some sid =>
      alterSource sid (with_onended None) ;;
      tryCatch (sourceStop sid) (fun _ => ret tt)
  | None => ret tt
  end (mkState idx pages status auto cref sref ctxs srcs)
  = Normal tt (mkState idx pages status auto cref sref ctxs
                 (match sref with
                  | Some sid => alter haltSource sid srcs
                  | None => srcs
                  end)).
Proof.
  destruct sref as [sid|]; [|reflexivity].
  unfold bind, alterSource, modify, tryCatch, sourceStop, with_sources; simpl.
  rewrite list_lookup_alter_eq.
  destruct (srcs !! sid) as [s|] eqn:Hs; simpl.
  - destruct s as [c b cn oe ph]; destruct ph; simpl;
      try destruct stopThrowsAfterEnd; simpl;
      unfold with_sources; simpl;
      rewrite ?list_alter_alter_eq; f_equal; f_equal;
      apply alter_at_ext; intros x Hx; rewrite Hs in Hx;
      injection Hx as <-; reflexivity.
  - f_equal. f_equal. apply alter_at_ext.
    intros x Hx. rewrite Hs in Hx. discriminate.
Qed.

Lemma stopAudio_eq st : stopAudio st = Normal tt (stoppedState st).
Proof.
  destruct st as [idx pages status auto cref sref ctxs srcs].
  unfold stopAudio, bind at 1, get. cbn [audioSourceRef].
  unfold bind at 1. rewrite haltHeld_eq.
  unfold bind at 1. cbn [audioContextRef].
  unfold bind at 1. rewrite closeHeld_eq.
  reflexivity.
Qed.

Lemma alter_last {A} (f : A -> A) (l : list A) x :
  alter f (length l) (l ++ [x]) = l ++ [f x].
Proof. rewrite alter_app_r_alt by lia. by rewrite Nat.sub_diag. Qed.

Lemma lookup_last {A} (l : list A) x : (l ++ [x]) !! length l = Some x.
Proof. induction l as [|y l IH]; simpl; [reflexivity|]. exact IH. Qed.

Lemma haltedSources_length st : length (haltedSources st) = length (sources st).
Proof. unfold haltedSources. destruct (audioSourceRef st); [apply length_alter|done]. Qed.

Lemma closedContexts_length st : length (closedContexts st) = length (contexts st).
Proof. unfold closedContexts. destruct (audioContextRef st); [apply length_insert|done]. Qed.

Lemma playAudio_none page st :
  audioBuffer page = None -> playAudioForCurrentPage page st = Normal tt st.
Proof. intros H. unfold playAudioForCurrentPage. by rewrite H. Qed.

Lemma playAudio_eq page buf st :
  audioBuffer page = Some buf ->
  playAudioForCurrentPage page st = Normal tt (playingState buf st).
Proof.
  intros H. unfold playAudioForCurrentPage. rewrite H.
  unfold bind at 1. rewrite stopAudio_eq.
  unfold bind, newAudioContext, createBufferSource, alterSource, modify, sourceStart,
    setAudioContextRef, setAudioSourceRef, setPlaybackStatus, playingState,
    with_sources, with_contexts, with_audioContextRef, with_audioSourceRef,
    with_playbackStatus.
  cbn [stoppedState contexts sources currentPageIndex storyPages playbackStatus
       shouldAutoplay audioContextRef audioSourceRef].
  rewrite !alter_last, lookup_last.
  cbn. rewrite alter_last. cbn.
  rewrite haltedSources_length, closedContexts_length. reflexivity.
Qed.

(** ** Ownership of live sessions *)

Lemma isLive_true st sid :
  isLive st sid = true <->
  exists s c, sources st !! sid = Some s /\ phase s = Started
    /\ contexts st !! context s = Some c /\ c <> closed.
Proof.
  unfold isLive. split.
  - destruct (sources st !! sid) as [s|]; [|discriminate].
    intros [Hp Hc]%andb_prop.
    apply bool_decide_eq_true in Hp.
    destruct (contexts st !! context s) as [c|] eqn:Hctx; [|discriminate].
    exists s, c. repeat split; try done.
    intros ->. discriminate.
  - intros (s & c & -> & Hp & -> & Hc).
    rewrite bool_decide_eq_true_2 by done. simpl.
    by rewrite bool_decide_eq_false_2.
Qed.

Lemma isLive_lt st sid : isLive st sid = true -> sid < length (sources st).
Proof. intros (s & c & Hs & _)%isLive_true. by eapply lookup_lt_Some. Qed.

Lemma haltSource_phase s : phase (haltSource s) <> Started.
Proof. destruct s as [c b cn oe ph]; destruct ph; simpl; discriminate. Qed.

Lemma haltedSources_lookup st sid s' :
  haltedSources st !! sid = Some s' ->
  (exists s, sources st !! sid = Some s /\ s' = haltSource s
             /\ audioSourceRef st = Some sid)
  \/ (sources st !! sid = Some s' /\ audioSourceRef st <> Some sid).
Proof.
  unfold haltedSources. destruct (audioSourceRef st) as [sid0|].
  - destruct (decide (sid0 = sid)) as [->|Hne].
    + rewrite list_lookup_alter_eq.
      destruct (sources st !! sid) as [s|]; [|discriminate].
      simpl. intros [= <-]. left. by exists s.
    + rewrite list_lookup_alter_ne by done. intros H. right.
      split; [done|congruence].
  - intros H. right. split; [done|discriminate].
Qed.

Lemma haltedSources_context st sid s' :
  haltedSources st !! sid = Some s' ->
  exists s, sources st !! sid = Some s /\ context s' = context s.
Proof.
  intros [(s & Hs & -> & _)|[Hs _]]%haltedSources_lookup; eauto.
Qed.

Lemma closedContexts_lookup st c x :
  closedContexts st !! c = Some x -> x <> closed -> contexts st !! c = Some x.
Proof.
  unfold closedContexts. destruct (audioContextRef st) as [c0|]; [|done].
  destruct (decide (c0 = c)) as [->|Hne].
  - intros H Hx. apply list_lookup_insert_Some in H as [(_ & <- & _)|[? _]]; done.
  - by rewrite list_lookup_insert_ne.
Qed.

Lemma stopped_not_live st sid : Owned st -> isLive (stoppedState st) sid = false.
Proof.
  intros [_ Hown]. destruct (isLive (stoppedState st) sid) eqn:E; [|done].
  exfalso. apply isLive_true in E as (s' & c & Hs' & Hp & Hc & Hnc).
  simpl in Hs', Hc.
  apply haltedSources_lookup in Hs' as [(s & Hs & -> & _)|[Hs Href]].
  - by apply haltSource_phase in Hp.
  - apply Href, Hown, isLive_true. exists s', c.
    eauto using closedContexts_lookup.
Qed.

Lemma Owned_stopped st : Owned st -> Owned (stoppedState st).
Proof.
  intros HO. split.
  - intros sid s' Hs'. simpl in *. rewrite closedContexts_length.
    apply haltedSources_context in Hs' as (s & Hs & ->).
    by eapply (proj1 HO).
  - intros sid Hl. by rewrite stopped_not_live in Hl.
Qed.

Lemma playing_live st buf sid :
  Owned st -> isLive (playingState buf st) sid = true <-> sid = length (sources st).
Proof.
  intros HO. split.
  - intros (s & c & Hs & Hp & Hc & Hnc)%isLive_true. simpl in Hs, Hc.
    apply lookup_snoc_Some in Hs as [[Hlt Hs]|[Heq _]].
    + exfalso.
      assert (Hctx : context s < length (closedContexts st)).
      { rewrite closedContexts_length.
        apply haltedSources_context in Hs as (s0 & Hs0 & ->).
        by eapply (proj1 HO). }
      rewrite lookup_app_l in Hc by done.
      assert (Hl : isLive (stoppedState st) sid = true).
      { apply isLive_true. exists s, c. by simpl. }
      by rewrite stopped_not_live in Hl.
    + by rewrite Heq, haltedSources_length.
  - intros ->. apply isLive_true. eexists _, running. simpl.
    rewrite <- (haltedSources_length st) at 1. rewrite lookup_last.
    split; [reflexivity|]. simpl.
    rewrite <- (closedContexts_length st). rewrite lookup_last. done.
Qed.

Lemma Owned_playing st buf : Owned st -> Owned (playingState buf st).
Proof.
  intros HO. split.
  - intros sid s Hs. simpl in *. rewrite length_app, closedContexts_length. simpl.
    apply lookup_snoc_Some in Hs as [[_ Hs]|[_ <-]].
    + apply haltedSources_context in Hs as (s0 & Hs0 & ->).
      pose proof (proj1 HO _ _ Hs0). lia.
    + simpl. lia.
  - intros sid Hl. apply playing_live in Hl; [|done]. by subst.
Qed.

Lemma filter_seq_unique (f : nat -> bool) (n a : nat) :
  (forall x, f x = true -> x = a) ->
  List.filter f (seq 0 n) = if decide (a < n) then (if f a then [a] else []) else [].
Proof.
  intros Hf. induction n as [|n IH]; [reflexivity|].
  rewrite seq_S, List.filter_app, IH. simpl.
  destruct (decide (a < n)) as [Hlt|Hge].
  - destruct (decide (a < S n)); [|lia].
    destruct (f n) eqn:En.
    + apply Hf in En. lia.
    + by rewrite app_nil_r.
  - destruct (f n) eqn:En.
    + assert (n = a) as -> by by apply Hf.
      destruct (decide (a < S a)); [|lia]. by rewrite En.
    + destruct (decide (a < S n)) as [Hlt|]; [|done].
      assert (a = n) as -> by lia. by rewrite En.
Qed.

Lemma liveSessions_owned st :
  Owned st ->
  liveSessions st = match audioSourceRef st with
                    | Some sid => if isLive st sid then [sid] else []
                    | None => []
                    end.
Proof.
  intros [_ Hown]. unfold liveSessions.
  destruct (audioSourceRef st) as [sid|] eqn:Href.
  - rewrite (filter_seq_unique _ _ sid).
    + destruct (decide (sid < length (sources st))) as [|Hge]; [done|].
      destruct (isLive st sid) eqn:E; [|done].
      apply isLive_lt in E. lia.
    + intros x Hx. apply Hown in Hx. congruence.
  - rewrite (filter_seq_unique _ _ 0).
    + destruct (decide (0 < length (sources st))); [|done].
      destruct (isLive st 0) eqn:E; [|done]. by apply Hown in E.
    + intros x Hx. by apply Hown in Hx.
Qed.

Lemma liveSessions_at_most_one st : Owned st -> length (liveSessions st) <= 1.
Proof.
  intros HO. rewrite liveSessions_owned by done.
  destruct (audioSourceRef st) as [sid|]; [|simpl; lia].
  destruct (isLive st sid); simpl; lia.
Qed.

Lemma liveSessions_stopped st : Owned st -> liveSessions (stoppedState st) = [].
Proof.
  intros HO. rewrite liveSessions_owned by by apply Owned_stopped. reflexivity.
Qed.

Lemma liveSessions_playing st buf :
  Owned st -> liveSessions (playingState buf st) = [length (sources st)].
Proof.
  intros HO. rewrite liveSessions_owned by by apply Owned_playing. simpl.
  by rewrite (proj2 (playing_live st buf _ HO) eq_refl).
Qed.

(** ** The invariant is kept by every handler *)

Lemma Owned_shrink st st' :
  Owned st ->
  audioSourceRef st' = audioSourceRef st ->
  (forall sid s, sources st' !! sid = Some s -> context s < length (contexts st')) ->
  (forall sid, isLive st' sid = true -> isLive st sid = true) ->
  Owned st'.
Proof.
  intros [_ Hown] Href Hctx Hlive. split; [done|].
  intros sid Hl. rewrite Href. auto.
Qed.

Lemma Owned_retuned st status v :
  Owned st -> v <> closed ->
  (forall c, audioContextRef st = Some c -> contexts st !! c <> Some closed) ->
  Owned (retunedState status v st).
Proof.
  intros HO Hv Hc. apply (Owned_shrink st); [done|done|..].
  - intros sid s Hs. simpl in *.
    pose proof (proj1 HO _ _ Hs).
    destruct (audioContextRef st); [by rewrite length_insert|done].
  - intros sid (s & x & Hs & Hp & Hx & Hnc)%isLive_true. simpl in *.
    apply isLive_true.
    destruct (audioContextRef st) as [c|] eqn:Href; [|by eauto 6].
    destruct (decide (c = context s)) as [->|Hne].
    + apply list_lookup_insert_Some in Hx as [(_ & <- & Hlt)|[? _]]; [|done].
      destruct (lookup_lt_is_Some_2 _ _ Hlt) as [y Hy].
      exists s, y. repeat split; try done.
      intros ->. by eapply Hc.
    + rewrite list_lookup_insert_ne in Hx by done. by eauto 6.
Qed.

Lemma Owned_ended st sid :
  Owned st -> Owned (with_sources (alter (with_phase Ended) sid (sources st)) st).
Proof.
  intros HO. apply (Owned_shrink st); [done|done|..].
  - intros j s Hs. simpl in *.
    destruct (decide (sid = j)) as [->|Hne].
    + rewrite list_lookup_alter_eq in Hs.
      destruct (sources st !! j) as [s0|] eqn:Hs0; [|discriminate].
      injection Hs as <-. simpl. by eapply (proj1 HO).
    + rewrite list_lookup_alter_ne in Hs by done. by eapply (proj1 HO).
  - intros j (s & x & Hs & Hp & Hx & Hnc)%isLive_true. simpl in *.
    destruct (decide (sid = j)) as [->|Hne].
    + rewrite list_lookup_alter_eq in Hs.
      destruct (sources st !! j) as [s0|]; [|discriminate].
      injection Hs as <-. discriminate.
    + rewrite list_lookup_alter_ne in Hs by done.
      apply isLive_true. by eauto 6.
Qed.

Lemma Inv_stopped st : Inv st -> Inv (stoppedState st).
Proof. intros [HO _]. split; [by apply Owned_stopped|]. by split. Qed.

Lemma Inv_playing st buf : Inv st -> Inv (playingState buf st).
Proof.
  intros [HO _]. split; [by apply Owned_playing|].
  unfold Coherent, refContextState, contextState. simpl.
  rewrite <- (closedContexts_length st). apply lookup_last.
Qed.

Lemma Inv_frame st st' :
  playbackStatus st' = playbackStatus st ->
  audioContextRef st' = audioContextRef st ->
  audioSourceRef st' = audioSourceRef st ->
  contexts st' = contexts st ->
  sources st' = sources st ->
  Inv st -> Inv st'.
Proof.
  intros Hs Hc Hr Hx Hy [[HO1 HO2] HC]. split; [split|].
  - rewrite Hx, Hy. exact HO1.
  - intros sid Hl. rewrite Hr. apply HO2.
    unfold isLive in *. by rewrite Hx, Hy in Hl.
  - unfold Coherent, refContextState, contextState in *.
    by rewrite Hs, Hc, Hr, Hx.
Qed.

Lemma Inv_play page st : Inv st -> Inv (stateOf (playAudioForCurrentPage page st)).
Proof.
  intros HI. destruct (audioBuffer page) as [buf|] eqn:Hb.
  - rewrite (playAudio_eq _ buf) by done. by apply Inv_playing.
  - by rewrite playAudio_none.
Qed.

Lemma toggle_playing st page c :
  playbackStatus st = playing ->
  audioContextRef st = Some c -> contexts st !! c = Some running ->
  handlePlayPauseToggle st page st = Normal tt (retunedState paused suspended st).
Proof.
  intros Hs Hr Hc. unfold handlePlayPauseToggle. rewrite Hs.
  unfold bind, setShouldAutoplay, modify, get, refContextState, contextState.
  cbn. rewrite Hr. cbn. rewrite Hc.
  destruct (decide (Some running = Some running)); [|done].
  unfold contextSuspend, contextState. cbn. rewrite Hc. cbn.
  unfold retunedState, setPlaybackStatus, modify, with_playbackStatus, with_contexts,
    with_shouldAutoplay.
  cbn. rewrite Hr. reflexivity.
Qed.

Lemma toggle_paused st page c :
  playbackStatus st = paused ->
  audioContextRef st = Some c -> contexts st !! c = Some suspended ->
  handlePlayPauseToggle st page st = Normal tt (retunedState playing running st).
Proof.
  intros Hs Hr Hc. unfold handlePlayPauseToggle. rewrite Hs.
  unfold bind, setShouldAutoplay, modify, get, refContextState, contextState.
  cbn. rewrite Hr. cbn. rewrite Hc.
  destruct (decide (Some suspended = Some suspended)); [|done].
  unfold contextResume, contextState. cbn. rewrite Hc. cbn.
  unfold retunedState, setPlaybackStatus, modify, with_playbackStatus, with_contexts,
    with_shouldAutoplay.
  cbn. rewrite Hr. reflexivity.
Qed.

Lemma toggle_stopped st page :
  playbackStatus st = stopped ->
  handlePlayPauseToggle st page st
  = playAudioForCurrentPage page (with_shouldAutoplay false st).
Proof. intros Hs. unfold handlePlayPauseToggle. by rewrite Hs. Qed.

Lemma Coherent_ref st x :
  refContextState st = Some x ->
  exists c, audioContextRef st = Some c /\ contexts st !! c = Some x.
Proof.
  unfold refContextState, contextState.
  destruct (audioContextRef st) as [c|]; [|discriminate]. simpl. eauto.
Qed.

Lemma Inv_retuned st status v :
  Inv st ->
  refContextState st = Some (match v with running => suspended | _ => running end) ->
  (v = running /\ status = playing) \/ (v = suspended /\ status = paused) ->
  Inv (retunedState status v st).
Proof.
  intros [HO HC] Hx Hv.
  apply Coherent_ref in Hx as (c & Hr & Hc).
  split.
  - apply Owned_retuned; [done|by destruct Hv as [[-> _]|[-> _]]|].
    intros c' Hr'. rewrite Hr in Hr'. injection Hr' as <-. rewrite Hc.
    by destruct v.
  - unfold Coherent, refContextState, contextState. simpl. rewrite Hr. simpl.
    assert (Hlt : c < length (contexts st)) by by eapply lookup_lt_Some.
    destruct Hv as [[-> ->]|[-> ->]]; by apply list_lookup_insert_eq.
Qed.

Lemma Inv_toggle st page : Inv st -> Inv (stateOf (handlePlayPauseToggle st page st)).
Proof.
  intros HI. destruct (playbackStatus st) eqn:Hs.
  - pose proof (proj2 HI) as HC. unfold Coherent in HC. rewrite Hs in HC.
    destruct (Coherent_ref _ _ HC) as (c & Hr & Hc).
    rewrite (toggle_playing _ _ c) by done. simpl.
    apply Inv_retuned; [done|done|by right].
  - pose proof (proj2 HI) as HC. unfold Coherent in HC. rewrite Hs in HC.
    destruct (Coherent_ref _ _ HC) as (c & Hr & Hc).
    rewrite (toggle_paused _ _ c) by done. simpl.
    apply Inv_retuned; [done|done|by left].
  - rewrite toggle_stopped by done. apply Inv_play.
    by apply (Inv_frame st).
Qed.

Lemma handleNextPage_eq st :
  (currentPageIndex st < Z.of_nat (length (storyPages st)) - 1)%Z ->
  handleNextPage st st
  = Normal tt (with_shouldAutoplay true
                 (with_currentPageIndex (currentPageIndex st + 1) (stoppedState st))).
Proof.
  intros Hlt. unfold handleNextPage.
  destruct (decide _); [|done].
  unfold bind. rewrite stopAudio_eq. reflexivity.
Qed.

Lemma handleNextPage_last st :
  ~ (currentPageIndex st < Z.of_nat (length (storyPages st)) - 1)%Z ->
  handleNextPage st st = Normal tt st.
Proof. intros Hge. unfold handleNextPage. by destruct (decide _). Qed.

Lemma handlePrevPage_eq st :
  (currentPageIndex st > 0)%Z ->
  handlePrevPage st st
  = Normal tt (with_shouldAutoplay false
                 (with_currentPageIndex (currentPageIndex st - 1) (stoppedState st))).
Proof.
  intros Hlt. unfold handlePrevPage.
  destruct (decide _); [|done].
  unfold bind. rewrite stopAudio_eq. reflexivity.
Qed.

Lemma handlePrevPage_first st :
  ~ (currentPageIndex st > 0)%Z -> handlePrevPage st st = Normal tt st.
Proof. intros Hge. unfold handlePrevPage. by destruct (decide _). Qed.

Lemma Inv_next st : Inv st -> Inv (stateOf (handleNextPage st st)).
Proof.
  intros HI.
  destruct (decide (currentPageIndex st < Z.of_nat (length (storyPages st)) - 1)%Z).
  - rewrite handleNextPage_eq by done. simpl.
    by apply (Inv_frame (stoppedState st)), Inv_stopped.
  - by rewrite handleNextPage_last.
Qed.

Lemma Inv_prev st : Inv st -> Inv (stateOf (handlePrevPage st st)).
Proof.
  intros HI. destruct (decide (currentPageIndex st > 0)%Z).
  - rewrite handlePrevPage_eq by done. simpl.
    by apply (Inv_frame (stoppedState st)), Inv_stopped.
  - by rewrite handlePrevPage_first.
Qed.

Lemma runCallback_cases cb st :
  runCallback cb st = Normal tt st \/ runCallback cb st = Normal tt (stoppedState st).
Proof.
  destruct cb. unfold runCallback, bind, get.
  destruct (decide _); [by left|right]. apply stopAudio_eq.
Qed.

Lemma sourceEnds_cases sid st :
  let ended := with_sources (alter (with_phase Ended) sid (sources st)) st in
  sourceEnds sid st = Normal tt st
  \/ sourceEnds sid st = Normal tt ended
  \/ sourceEnds sid st = Normal tt (stoppedState ended).
Proof.
  intros ended. unfold sourceEnds.
  destruct (sources st !! sid) as [s|]; [|by left].
  destruct (decide _); [|by left].
  unfold bind, alterSource, modify. fold ended.
  destruct (onended s) as [cb|]; [|by right; left].
  destruct (runCallback_cases cb ended) as [->| ->]; auto.
Qed.

Lemma Inv_ended st sid :
  Inv st -> Inv (with_sources (alter (with_phase Ended) sid (sources st)) st).
Proof. intros [HO HC]. split; [by apply Owned_ended|exact HC]. Qed.

Lemma Inv_sourceEnds st sid : Inv st -> Inv (stateOf (sourceEnds sid st)).
Proof.
  intros HI. destruct (sourceEnds_cases sid st) as [->|[->| ->]]; simpl.
  - done.
  - by apply Inv_ended.
  - by apply Inv_stopped, Inv_ended.
Qed.

Lemma Inv_dispatch e st : Inv st -> Inv (stateOf (dispatch e st)).
Proof.
  intros HI. unfold dispatch.
  destruct (currentPage st) as [page|]; [|done].
  destruct e as [| | |index updates|sid].
  - destruct (isPlayButtonDisabled page); [done|]. by apply Inv_toggle.
  - destruct (decide _); [done|]. by apply Inv_next.
  - destruct (decide _); [done|]. by apply Inv_prev.
  - simpl. by apply (Inv_frame st).
  - by apply Inv_sourceEnds.
Qed.

(** The autoplay effect, case by case. *)
Lemma afterRender_fires st page buf :
  currentPage st = Some page -> shouldAutoplay st = true ->
  audioBuffer page = Some buf ->
  afterRender st = Normal tt (with_shouldAutoplay false (playingState buf st)).
Proof.
  intros Hp Ha Hb. unfold afterRender. rewrite Hp.
  unfold autoplayEffect. rewrite Ha.
  unfold currentPage in Hp. rewrite Hp, Hb.
  unfold truthyObject. rewrite bool_decide_eq_true_2 by by eexists.
  unfold bind. rewrite (playAudio_eq _ buf) by done. reflexivity.
Qed.

Lemma afterRender_waits st page :
  currentPage st = Some page -> shouldAutoplay st = true ->
  audioBuffer page = None ->
  afterRender st = Normal tt st.
Proof.
  intros Hp Ha Hb. unfold afterRender. rewrite Hp.
  unfold autoplayEffect. rewrite Ha.
  unfold currentPage in Hp. rewrite Hp, Hb.
  unfold truthyObject. rewrite bool_decide_eq_false_2; [done|].
  by intros [? ?].
Qed.

Lemma afterRender_disarmed st page :
  currentPage st = Some page -> shouldAutoplay st = false ->
  afterRender st = Normal tt st.
Proof.
  intros Hp Ha. unfold afterRender. rewrite Hp.
  unfold autoplayEffect. by rewrite Ha.
Qed.

Lemma afterRender_cases st :
  afterRender st = Throw TypeError st
  \/ afterRender st = Normal tt st
  \/ exists buf, shouldAutoplay st = true
       /\ afterRender st = Normal tt (with_shouldAutoplay false (playingState buf st)).
Proof.
  destruct (currentPage st) as [page|] eqn:Hp.
  - destruct (shouldAutoplay st) eqn:Ha.
    + destruct (audioBuffer page) as [buf|] eqn:Hb.
      * right; right. exists buf. split; [done|]. by eapply afterRender_fires.
      * right; left. by eapply afterRender_waits.
    + right; left. by eapply afterRender_disarmed.
  - left. unfold afterRender. by rewrite Hp.
Qed.

Lemma Inv_afterRender st : Inv st -> Inv (stateOf (afterRender st)).
Proof.
  intros HI. destruct (afterRender_cases st) as [->|[->|(buf & _ & ->)]]; simpl.
  - done.
  - done.
  - by apply (Inv_frame (playingState buf st)), Inv_playing.
Qed.

Lemma stateOf_bind {A B} (c : M A) (k : A -> M B) st :
  stateOf (bind c k st)
  = match c st with
    | Normal a st' => stateOf (k a st')
    | Throw _ st' => st'
    end.
Proof. unfold bind. by destruct (c st). Qed.

Lemma Inv_step e st : Inv st -> Inv (stateOf (step e st)).
Proof.
  intros HI. unfold step. rewrite stateOf_bind.
  pose proof (Inv_dispatch e st HI) as Hd.
  destruct (dispatch e st) as [[] mid|err mid]; simpl in Hd; [|done].
  by apply Inv_afterRender.
Qed.

Lemma Inv_run evs st : Inv st -> Inv (stateOf (run evs st)).
Proof.
  revert st. induction evs as [|e evs IH]; intros st HI; [done|].
  simpl. rewrite stateOf_bind.
  pose proof (Inv_step e st HI) as Hs.
  destruct (step e st) as [[] st'|err st']; simpl in Hs; [|done].
  by apply IH.
Qed.

Lemma Inv_initial pages : Inv (initialState pages).
Proof.
  split; [split|].
  - intros sid s Hs. simpl in Hs. by destruct sid.
  - intros sid Hl. unfold isLive in Hl. simpl in Hl. by destruct sid.
  - by split.
Qed.

(** Every state a mounted viewer reaches satisfies the invariant. *)
Lemma Inv_reachable pages evs : Inv (stateOf (run evs (initialState pages))).
Proof. apply Inv_run, Inv_initial. Qed.

Lemma ownedb_sound st : ownedb st = true -> Owned st.
Proof.
  unfold ownedb. intros [H1 H2]%andb_prop.
  rewrite forallb_forall in H1, H2. split.
  - intros sid s Hs. apply Nat.ltb_lt, H1.
    apply list_elem_of_In, list_elem_of_lookup. eauto.
  - intros sid Hl. pose proof (isLive_lt _ _ Hl) as Hlt.
    specialize (H2 sid). rewrite Hl in H2. simpl in H2.
    eapply bool_decide_eq_true_1, H2, in_seq. lia.
Qed.

Lemma released_by_stop st sid s c :
  audioSourceRef st = Some sid -> audioContextRef st = Some c ->
  sources st !! sid = Some s -> context s = c -> phase s = Started ->
  c < length (contexts st) ->
  released (stoppedState st) sid.
Proof.
  intros Hr Hc Hs Hctx Hp Hlt. exists (haltSource s). simpl.
  unfold haltedSources, closedContexts. rewrite Hr, Hc.
  rewrite list_lookup_alter_eq, Hs. split; [done|].
  destruct s as [c' b cn oe ph]. simpl in *. subst.
  repeat split. by apply list_lookup_insert_eq.
Qed.

Lemma released_playing st buf sid :
  released (stoppedState st) sid -> released (playingState buf st) sid.
Proof.
  intros (s & Hs & Ho & Hp & Hc). exists s. simpl in *.
  repeat split; try done.
  - by apply lookup_app_l_Some.
  - by apply lookup_app_l_Some.
Qed.

Lemma playing_new_source st buf :
  sources (playingState buf st) !! length (sources st)
  = Some (mkSource (length (contexts st)) (Some buf) true
                   (Some StopUnlessSuspended) Started).
Proof. simpl. rewrite <- (haltedSources_length st). apply lookup_last. Qed.

Lemma playing_new_context st buf :
  contexts (playingState buf st) !! length (contexts st) = Some running.
Proof. simpl. rewrite <- (closedContexts_length st). apply lookup_last. Qed.

(** ** The claims about the controller *)

(** C2: for pages A and B that both have an audio buffer, [play(A)]
    followed by [play(B)] with no [stop()] in between leaves exactly one
    live session, the one created for B's buffer and held by the
    controller, while A's session is released (callback removed, output
    ended, context closed); and no state the viewer reaches has two live
    sessions. *)
Theorem play_exclusive :
  (forall st pageA pageB a b,
      Owned st -> audioBuffer pageA = Some a -> audioBuffer pageB = Some b ->
      exists s1 s2 sidA sidB srcB,
        playAudioForCurrentPage pageA st = Normal tt s1
        /\ playAudioForCurrentPage pageB s1 = Normal tt s2
        /\ liveSessions s1 = [sidA]
        /\ liveSessions s2 = [sidB]
        /\ sidA <> sidB
        /\ released s2 sidA
        /\ audioSourceRef s2 = Some sidB
        /\ sources s2 !! sidB = Some srcB
        /\ buffer srcB = Some b
        /\ audioContextRef s2 = Some (context srcB)
        /\ playbackStatus s2 = playing)
  /\ (forall pages evs,
        length (liveSessions (stateOf (run evs (initialState pages)))) <= 1).
Proof.
  split.
  - intros st pageA pageB a b HO Ha Hb.
    pose proof (Owned_playing st a HO) as HO1.
    exists (playingState a st), (playingState b (playingState a st)),
      (length (sources st)), (length (sources (playingState a st))),
      (mkSource (length (contexts (playingState a st))) (Some b) true
                (Some StopUnlessSuspended) Started).
    split; [by apply playAudio_eq|]. split; [by apply playAudio_eq|].
    split; [by apply liveSessions_playing|].
    split; [by apply liveSessions_playing|].
    split; [simpl; rewrite length_app, haltedSources_length; simpl; lia|].
    split.
    { apply released_playing.
      eapply (released_by_stop _ _ _ (length (contexts st)));
        [done|done|apply playing_new_source|done|done|].
      eapply lookup_lt_Some, playing_new_context. }
    split; [done|]. split.
    { apply playing_new_source. }
    done.
  - intros pages evs. apply liveSessions_at_most_one, Inv_reachable.
Qed.

(** C4: [stop()] never raises and is idempotent: from any state it ends
    with status [stopped] and no session held, a second call changes
    nothing, it leaves no live session (given the controller owned its
    sessions), and on a state that was already stopped it changes
    nothing at all. *)
Theorem stopAudio_idempotent st :
  exists st',
    stopAudio st = Normal tt st'
    /\ stopAudio st' = Normal tt st'
    /\ playbackStatus st' = stopped
    /\ audioContextRef st' = None /\ audioSourceRef st' = None
    /\ (Owned st -> liveSessions st' = [])
    /\ (playbackStatus st = stopped -> Coherent st -> st' = st).
Proof.
  exists (stoppedState st). split; [apply stopAudio_eq|].
  split; [by rewrite stopAudio_eq|].
  repeat split; try done.
  - apply liveSessions_stopped.
  - intros Hs HC. unfold Coherent in HC. rewrite Hs in HC. destruct HC as [Hc Hr].
    destruct st as [idx pages status auto cref sref ctxs srcs]. simpl in *.
    subst. reflexivity.
Qed.

(** C5: for a page with an audio buffer, [play(); pause(); resume()] ends
    with status [playing] on the very context and source that [play()]
    created: the refs hold the same objects, no context or source has been
    created, and the context is running again. *)
Theorem pause_resume_roundtrip st page buf :
  audioBuffer page = Some buf ->
  exists s1 s2 s3 c sid,
    playAudioForCurrentPage page st = Normal tt s1
    /\ handlePlayPauseToggle s1 page s1 = Normal tt s2
    /\ handlePlayPauseToggle s2 page s2 = Normal tt s3
    /\ playbackStatus s1 = playing
    /\ playbackStatus s2 = paused
    /\ playbackStatus s3 = playing
    /\ audioContextRef s1 = Some c /\ audioContextRef s2 = Some c
    /\ audioContextRef s3 = Some c
    /\ audioSourceRef s1 = Some sid /\ audioSourceRef s2 = Some sid
    /\ audioSourceRef s3 = Some sid
    /\ contexts s2 !! c = Some suspended
    /\ contexts s3 = contexts s1 /\ contexts s3 !! c = Some running
    /\ sources s3 = sources s1
    /\ sessionsCreated s1 s3 = 0.
Proof.
  intros Hb.
  set (s1 := playingState buf st).
  assert (Hc1 : contexts s1 !! length (contexts st) = Some running)
    by apply playing_new_context.
  assert (Hlt : length (contexts st) < length (contexts s1)) by by eapply lookup_lt_Some.
  set (s2 := retunedState paused suspended s1).
  assert (Hc2 : contexts s2 !! length (contexts st) = Some suspended).
  { cbn [s2 retunedState contexts]. cbn [s1 playingState audioContextRef].
    by apply list_lookup_insert_eq. }
  exists s1, s2, (retunedState playing running s2), (length (contexts st)),
    (length (sources st)).
  split; [by apply playAudio_eq|].
  split; [by apply (toggle_playing _ _ (length (contexts st)))|].
  split; [by apply (toggle_paused _ _ (length (contexts st)))|].
  repeat split; try done.
  - cbn [retunedState contexts s2 audioContextRef s1 playingState].
    rewrite list_insert_insert_eq. by apply list_insert_id.
  - cbn [retunedState contexts s2 audioContextRef s1 playingState].
    rewrite list_insert_insert_eq. by apply list_lookup_insert_eq.
  - unfold sessionsCreated. simpl. lia.
Qed.

(** C6: on a page that is not the last, [next()] stops playback (it is
    [stop()] followed by the two updates), moves the index forward by
    one and arms the autoplay intent; on a page that is not the first,
    [previous()] stops playback, moves the index back by one and leaves
    the intent disarmed. *)
Theorem navigation_moves st :
  (0 <= currentPageIndex st < Z.of_nat (length (storyPages st)))%Z ->
  ((currentPageIndex st <> Z.of_nat (length (storyPages st)) - 1)%Z ->
   exists s0 st',
     stopAudio st = Normal tt s0
     /\ handleNextPage st st = Normal tt st'
     /\ st' = with_shouldAutoplay true
                (with_currentPageIndex (currentPageIndex st + 1) s0)
     /\ playbackStatus st' = stopped
     /\ audioContextRef st' = None /\ audioSourceRef st' = None
     /\ (Owned st -> liveSessions st' = [])
     /\ currentPageIndex st' = (currentPageIndex st + 1)%Z
     /\ shouldAutoplay st' = true
     /\ storyPages st' = storyPages st)
  /\ (currentPageIndex st <> 0%Z ->
      exists s0 st',
        stopAudio st = Normal tt s0
        /\ handlePrevPage st st = Normal tt st'
        /\ st' = with_shouldAutoplay false
                   (with_currentPageIndex (currentPageIndex st - 1) s0)
        /\ playbackStatus st' = stopped
        /\ audioContextRef st' = None /\ audioSourceRef st' = None
        /\ (Owned st -> liveSessions st' = [])
        /\ currentPageIndex st' = (currentPageIndex st - 1)%Z
        /\ shouldAutoplay st' = false
        /\ storyPages st' = storyPages st).
Proof.
  intros Hrange. split; intros Hne.
  - exists (stoppedState st). eexists. split; [apply stopAudio_eq|].
    split; [apply handleNextPage_eq; lia|].
    repeat split. intros HO.
    rewrite <- (liveSessions_stopped st HO). reflexivity.
  - exists (stoppedState st). eexists. split; [apply stopAudio_eq|].
    split; [apply handlePrevPage_eq; lia|].
    repeat split. intros HO.
    rewrite <- (liveSessions_stopped st HO). reflexivity.
Qed.

(** C10: [next()] on the last page and [previous()] on the first page
    change nothing: index, autoplay intent, status, refs, contexts and
    sources are all as before, so audio that is playing keeps playing. *)
Theorem navigation_boundary st :
  ((currentPageIndex st = Z.of_nat (length (storyPages st)) - 1)%Z ->
   handleNextPage st st = Normal tt st
   /\ liveSessions (stateOf (handleNextPage st st)) = liveSessions st)
  /\ (currentPageIndex st = 0%Z ->
      handlePrevPage st st = Normal tt st
      /\ liveSessions (stateOf (handlePrevPage st st)) = liveSessions st).
Proof.
  split; intros Hidx.
  - rewrite handleNextPage_last by lia. done.
  - rewrite handlePrevPage_first by lia. done.
Qed.

Lemma toggle_clears r page st :
  shouldAutoplay (stateOf (handlePlayPauseToggle r page st)) = false.
Proof.
  unfold handlePlayPauseToggle. rewrite stateOf_bind.
  cbn [setShouldAutoplay modify].
  set (st0 := with_shouldAutoplay false st).
  assert (H0 : shouldAutoplay st0 = false) by done.
  clearbody st0.
  destruct (playbackStatus r).
  - rewrite stateOf_bind. cbn [get].
    destruct (decide _); [|done].
    destruct (audioContextRef st0) as [c|]; [|done].
    rewrite stateOf_bind. unfold contextSuspend.
    destruct (contextState c st0) as [[]|]; try done.
  - rewrite stateOf_bind. cbn [get].
    destruct (decide _); [|done].
    destruct (audioContextRef st0) as [c|]; [|done].
    rewrite stateOf_bind. unfold contextResume.
    destruct (contextState c st0) as [[]|]; try done.
  - destruct (audioBuffer page) as [buf|] eqn:Hb.
    + by rewrite (playAudio_eq _ buf).
    + by rewrite playAudio_none.
Qed.






(** ** Autoplay *)

Lemma sessions_playing st buf v :
  sessionsCreated st (with_shouldAutoplay v (playingState buf st)) = 1.
Proof.
  unfold sessionsCreated. simpl. rewrite length_app, haltedSources_length. simpl. lia.
Qed.

Lemma afterRender_count st :
  sessionsCreated st (stateOf (afterRender st)) + armed (stateOf (afterRender st))
  <= armed st.
Proof.
  destruct (afterRender_cases st) as [->|[->|(buf & Ha & ->)]]; simpl.
  - unfold sessionsCreated. lia.
  - unfold sessionsCreated. lia.
  - rewrite sessions_playing. unfold armed. rewrite Ha. simpl. lia.
Qed.

Lemma dispatch_armed e st :
  e <> ClickNext -> armed (stateOf (dispatch e st)) <= armed st.
Proof.
  intros He. unfold dispatch.
  destruct (currentPage st) as [page|]; [|done].
  destruct e as [| | |index updates|sid]; [| done | | |].
  - destruct (isPlayButtonDisabled page); [done|].
    unfold armed at 1. rewrite toggle_clears. lia.
  - destruct (decide _); [done|].
    destruct (decide (currentPageIndex st > 0)%Z).
    + rewrite handlePrevPage_eq by done. unfold armed at 1. simpl. lia.
    + by rewrite handlePrevPage_first.
  - done.
  - by destruct (sourceEnds_cases sid st) as [->|[->| ->]].
Qed.

Lemma armed_le st : armed st <= 1.
Proof. unfold armed. destruct (shouldAutoplay st); lia. Qed.

Lemma autoplays_per_arming evs st : autoplays evs st <= armed st + nextClicks evs.
Proof.
  revert st. induction evs as [|e evs IH]; intros st; simpl; [lia|].
  assert (Hd : armed (stateOf (dispatch e st)) + nextClicks evs
               <= armed st + nextClicks (e :: evs)).
  { pose proof (armed_le (stateOf (dispatch ClickNext st))).
    pose proof (dispatch_armed e st).
    unfold nextClicks in *.
    destruct e; simpl in *; try lia;
      match goal with H : _ -> _ <= _ |- _ => specialize (H ltac:(discriminate)) end;
      lia. }
  destruct (dispatch e st) as [[] mid|err mid]; simpl in Hd; [|lia].
  pose proof (afterRender_count mid) as Hc.
  destruct (afterRender mid) as [[] st'|err st']; simpl in Hc.
  - specialize (IH st'). lia.
  - lia.
Qed.

Lemma nextClicks_none evs : ClickNext ∉ evs -> nextClicks evs = 0.
Proof.
  unfold nextClicks. induction evs as [|e evs IH]; intros Hn; [done|].
  apply not_elem_of_cons in Hn as [He Hn]. simpl.
  destruct e; try by apply IH. done.
Qed.

Lemma autoplays_bound evs st : ClickNext ∉ evs -> autoplays evs st <= armed st.
Proof.
  intros Hn. pose proof (autoplays_per_arming evs st).
  rewrite nextClicks_none in * by done. lia.
Qed.

Lemma currentPage_updated st page i u :
  currentPage st = Some page -> currentPageIndex st = Z.of_nat i ->
  currentPage (with_storyPages (updatePage i u (storyPages st)) st)
  = Some (spread page u).
Proof.
  unfold currentPage, arrayGetZ. simpl. intros Hp Hi. rewrite Hi in *.
  destruct (decide (Z.of_nat i < 0)%Z); [lia|]. rewrite Nat2Z.id in *.
  by rewrite updatePage_get_eq, Hp.
Qed.

Lemma AutoPlayed_fires st page buf :
  currentPage st = Some page -> audioBuffer page = Some buf ->
  AutoPlayed page buf st (with_shouldAutoplay false (playingState buf st)).
Proof.
  intros Hp Hb.
  assert (Hsrc : sources (with_shouldAutoplay false (playingState buf st))
                   !! length (sources st)
                 = Some (mkSource (length (contexts st)) (Some buf) true
                                  (Some StopUnlessSuspended) Started))
    by apply playing_new_source.
  assert (Hctx : contexts (with_shouldAutoplay false (playingState buf st))
                   !! length (contexts st) = Some running)
    by apply playing_new_context.
  split; [done|]. split; [done|].
  split; [exists (playingState buf st); split; [by apply playAudio_eq|done]|].
  split; [apply sessions_playing|].
  split; [done|].
  split; [eexists; split; [exact Hsrc|]; by repeat split|].
  split; [|done].
  unfold isLive. rewrite Hsrc. cbn [phase context]. by rewrite Hctx.
Qed.

Lemma afterRender_plays st :
  stateOf (afterRender st) = st
  \/ exists page buf st',
       shouldAutoplay st = true /\ afterRender st = Normal tt st'
       /\ AutoPlayed page buf st st'.
Proof.
  destruct (currentPage st) as [page|] eqn:Hp.
  - destruct (shouldAutoplay st) eqn:Ha.
    + destruct (audioBuffer page) as [buf|] eqn:Hb.
      * right. exists page, buf. eexists. split; [done|].
        split; [by eapply afterRender_fires|]. by apply AutoPlayed_fires.
      * left. by rewrite (afterRender_waits st page).
    + left. by rewrite (afterRender_disarmed st page).
  - left. unfold afterRender. by rewrite Hp.
Qed.

(** C3: with the autoplay intent armed and the displayed page's audio
    buffer available, the effect is one automatic play: [play()] of the
    displayed page with the intent cleared, which starts one session on that
    page's buffer, held by the controller and the only live one; run again,
    the effect does nothing.  An effect run does nothing or is such a play,
    so the sessions the effect creates count the automatic plays: along any
    run there is at most one per arming, hence at most one when no [next()]
    arms the intent again.  When the intent is armed on a page whose audio
    is missing, the update that delivers the buffer triggers one automatic
    play, of the delivered buffer, and a second delivery changes the page
    array only; and [next()] onto a page whose audio is ready triggers one
    automatic play of that page. *)
Theorem autoplay_once :
  (forall st page buf,
      currentPage st = Some page -> shouldAutoplay st = true ->
      audioBuffer page = Some buf ->
      exists st',
        afterRender st = Normal tt st'
        /\ AutoPlayed page buf st st'
        /\ (Owned st -> liveSessions st' = [length (sources st)])
        /\ afterRender st' = Normal tt st')
  /\ (forall st,
        stateOf (afterRender st) = st
        \/ exists page buf st',
             shouldAutoplay st = true /\ afterRender st = Normal tt st'
             /\ AutoPlayed page buf st st')
  /\ (forall evs st, autoplays evs st <= armed st + nextClicks evs)
  /\ (forall evs st, ClickNext ∉ evs -> autoplays evs st <= armed st)
  /\ (forall st page i data b data' b',
        currentPage st = Some page -> currentPageIndex st = Z.of_nat i ->
        shouldAutoplay st = true -> audioBuffer page = None ->
        afterRender st = Normal tt st
        /\ exists mid st1,
            dispatch (PagesUpdated i (audioLoaded data b)) st = Normal tt mid
            /\ step (PagesUpdated i (audioLoaded data b)) st = Normal tt st1
            /\ AutoPlayed (spread page (audioLoaded data b)) b mid st1
            /\ step (PagesUpdated i (audioLoaded data' b')) st1
               = Normal tt
                   (with_storyPages
                      (updatePage i (audioLoaded data' b') (storyPages st1)) st1)
            /\ autoplays [PagesUpdated i (audioLoaded data b)] st = 1
            /\ autoplays [PagesUpdated i (audioLoaded data b);
                          PagesUpdated i (audioLoaded data' b')] st = 1)
  /\ (forall st page next buf,
        currentPage st = Some page ->
        (currentPageIndex st < Z.of_nat (length (storyPages st)) - 1)%Z ->
        arrayGetZ (storyPages st) (currentPageIndex st + 1) = Some next ->
        audioBuffer next = Some buf ->
        exists mid st1,
          dispatch ClickNext st = Normal tt mid
          /\ step ClickNext st = Normal tt st1
          /\ AutoPlayed next buf mid st1
          /\ currentPageIndex st1 = (currentPageIndex st + 1)%Z
          /\ autoplays [ClickNext] st = 1).
Proof.
  split; [|split; [|split; [|split; [|split]]]].
  - intros st page buf Hp Ha Hb. eexists.
    split; [by eapply afterRender_fires|].
    split; [by apply AutoPlayed_fires|].
    split; [intros HO; exact (liveSessions_playing st buf HO)|].
    by eapply afterRender_disarmed.
  - apply afterRender_plays.
  - apply autoplays_per_arming.
  - apply autoplays_bound.
  - intros st page i data b data' b' Hp Hi Ha Hb.
    set (u := audioLoaded data b).
    set (u' := audioLoaded data' b').
    set (mid := with_storyPages (updatePage i u (storyPages st)) st).
    assert (Hd : dispatch (PagesUpdated i u) st = Normal tt mid).
    { unfold dispatch. by rewrite Hp. }
    assert (Hpm : currentPage mid = Some (spread page u))
      by by apply currentPage_updated.
    assert (Hf : afterRender mid
                 = Normal tt (with_shouldAutoplay false (playingState b mid))).
    { by eapply afterRender_fires. }
    set (st1 := with_shouldAutoplay false (playingState b mid)) in *.
    assert (H1 : autoplays [PagesUpdated i u] st = 1).
    { simpl. rewrite Hd, Hf. unfold st1. rewrite sessions_playing. lia. }
    split; [by eapply afterRender_waits|].
    exists mid, st1.
    split; [exact Hd|].
    split; [unfold step, bind; by rewrite Hd, Hf|].
    split; [by apply AutoPlayed_fires|].
    split.
    + set (mid2 := with_storyPages (updatePage i u' (storyPages st1)) st1).
      assert (Hd2 : dispatch (PagesUpdated i u') st1 = Normal tt mid2).
      { unfold dispatch.
        change (currentPage st1) with (currentPage mid). by rewrite Hpm. }
      assert (Hp2 : currentPage mid2 = Some (spread (spread page u) u')).
      { apply (currentPage_updated st1); [exact Hpm|exact Hi]. }
      unfold step, bind. rewrite Hd2.
      by apply (afterRender_disarmed mid2 _ Hp2).
    + split; [exact H1|].
      assert (Hb2 : autoplays [PagesUpdated i u'] st1 <= 0).
      { apply (autoplays_bound _ st1). intros Hin.
        apply list_elem_of_singleton in Hin. discriminate. }
      simpl in *. rewrite Hd, Hf in *.
      fold st1 in H1 |- *. lia.
  - intros st page next buf Hp Hlt Hn Hb.
    set (mid := with_shouldAutoplay true
                  (with_currentPageIndex (currentPageIndex st + 1) (stoppedState st))).
    assert (Hd : dispatch ClickNext st = Normal tt mid).
    { unfold dispatch. rewrite Hp. destruct (decide _); [lia|].
      by apply handleNextPage_eq. }
    assert (Hf : afterRender mid
                 = Normal tt (with_shouldAutoplay false (playingState buf mid))).
    { by eapply afterRender_fires. }
    exists mid. eexists.
    split; [exact Hd|].
    split; [unfold step, bind; by rewrite Hd, Hf|].
    split; [by apply AutoPlayed_fires|].
    split; [done|].
    simpl. rewrite Hd, Hf. rewrite sessions_playing. lia.
Qed.

(** ** The prefetch pipeline *)

Ltac settle_body :=
  cbn;
  repeat match goal with |- _ /\ _ => split end;
  first [ reflexivity
        | unfold bodyOk; cbn; rewrite ?Nat.eqb_refl; reflexivity
        | repeat constructor ].

Lemma imagePart_ok gw pages sp i k :
  let b := imagePart gw pages sp i k in
  Forall (fun a => pageOf a = i) b.1
  /\ bodyOk (bool_decide (is_Some b.2)) b.1 = true
  /\ countIf isSpeechRequest b.1 = 0
  /\ existsb setsAudioError b.1 = false.
Proof.
  unfold imagePart.
  destruct (pages !! i) as [p|]; [|by settle_body].
  destruct (truthyString (StoryPage.imagePrompt p)); [|by settle_body].
  destruct (arrayGet sp i) as [s|]; [|by settle_body].
  destruct (truthyOptString (imageUrl s)); [by settle_body|].
  unfold fetchImage, awaitThen.
  destruct (generateImage gw k (StoryPage.imagePrompt p)); by settle_body.
Qed.

Lemma audioPart_ok gw pages sp i k :
  let b := audioPart gw pages sp i k in
  Forall (fun a => pageOf a = i) b.1
  /\ bodyOk (bool_decide (is_Some b.2)) b.1 = true
  /\ countIf isImageRequest b.1 = 0
  /\ existsb setsImageError b.1 = false.
Proof.
  unfold audioPart.
  destruct (pages !! i) as [p|]; [|by settle_body].
  destruct (truthyString (StoryPage.text p)); [|by settle_body].
  destruct (arrayGet sp i) as [s|]; [|by settle_body].
  destruct (truthyObject (audioBuffer s)); [by settle_body|].
  unfold fetchAudio, awaitThen.
  destruct (generateSpeech gw k (StoryPage.text p)) as [audioData| |];
    [|by settle_body..].
  destruct (decode gw audioData) as [bytes|]; [|by settle_body].
  destruct (decodeAudioData gw (S k) bytes) as [buf| |]; [|by settle_body..].
  destruct (closeTempContext gw (S (S k))); by settle_body.
Qed.

Lemma loopBody_ok gw pages sp i k :
  let b := loopBody gw pages sp i k in
  Forall (fun a => pageOf a = i) b.1
  /\ bodyOk (bool_decide (is_Some b.2)) b.1 = true.
Proof.
  unfold loopBody, andThen, imagePart, audioPart.
  destruct (pages !! i) as [p|]; [|by settle_body].
  destruct (truthyString (StoryPage.imagePrompt p));
    destruct (truthyString (StoryPage.text p));
    (destruct (arrayGet sp i) as [s|]; [|by settle_body]);
    try destruct (truthyOptString (imageUrl s));
    try destruct (truthyObject (audioBuffer s));
    unfold fetchImage, fetchAudio, awaitThen;
    try (destruct (generateImage gw k (StoryPage.imagePrompt p)) as [url| |]);
    try by settle_body.
  all: cbn [skip prefix fst snd].
  all: match goal with
       | |- context [generateSpeech ?g ?k' ?t] =>
           destruct (generateSpeech g k' t) as [audioData| |]; try by settle_body
       end.
  all: match goal with
       | |- context [decode ?g ?d] =>
           destruct (decode g d) as [bytes|]; try by settle_body
       end.
  all: match goal with
       | |- context [decodeAudioData ?g ?k' ?t] =>
           destruct (decodeAudioData g k' t) as [buf| |]; try by settle_body
       end.
  all: match goal with
       | |- context [closeTempContext ?g ?k'] =>
           destruct (closeTempContext g k'); by settle_body
       end.
Qed.

Lemma prefetchFrom_shape gw pages sp n i k :
  PipelineLog i (prefetchFrom gw pages sp n i k).
Proof.
  revert i k. induction n as [|n IH]; intros i k; simpl; [constructor|].
  destruct (loopBody_ok gw pages sp i k) as [Hpage Hok].
  destruct (loopBody gw pages sp i k) as [body [k'|]]; simpl in *.
  - by apply PipelineLog_next.
  - by apply PipelineLog_cut.
Qed.

Lemma bodyOk_true c log :
  bodyOk c log = true ->
  awaitsInTurn log = true
  /\ (c = true -> endsSettled log = true)
  /\ countIf isImageRequest log <= 1
  /\ countIf isSpeechRequest log <= 1
  /\ quietAfter setsImageError isImageRequest log = true
  /\ quietAfter setsAudioError isSpeechRequest log = true
  /\ quietAfter isSpeechRequest isImageRequest log = true
  /\ forallb keepsErrors log = true.
Proof.
  unfold bodyOk. rewrite !andb_true_iff, !Nat.leb_le.
  intros [[[[[[[H1 H2] H3] H4] H5] H6] H7] H8]. repeat split; try done.
  intros ->. done.
Qed.

Lemma countIf_app {A} (f : A -> bool) l1 l2 :
  countIf f (l1 ++ l2) = countIf f l1 + countIf f l2.
Proof. unfold countIf. by rewrite List.filter_app, length_app. Qed.

Lemma countIf_none {A} (f : A -> bool) l :
  Forall (fun a => f a = false) l -> countIf f l = 0.
Proof.
  unfold countIf. induction 1 as [|a l Ha _ IH]; simpl; [done|]. by rewrite Ha.
Qed.

Lemma countIf_zero {A} (f : A -> bool) l :
  countIf f l = 0 -> forallb (fun a => negb (f a)) l = true.
Proof.
  unfold countIf. induction l as [|a l IH]; simpl; [done|].
  destruct (f a); simpl; [discriminate|done].
Qed.

Lemma countIf_le {A} (f g : A -> bool) l :
  countIf (fun a => g a && f a) l <= countIf f l.
Proof.
  unfold countIf. induction l as [|a l IH]; simpl; [lia|].
  destruct (g a), (f a); simpl; lia.
Qed.

Lemma pipeline_pages i log :
  PipelineLog i log -> Forall (fun a => i <= pageOf a) log.
Proof.
  induction 1 as [i|i body Hp _|i body rest Hp _ _ IH].
  - constructor.
  - eapply Forall_impl; [exact Hp|]. simpl. lia.
  - apply Forall_app. split.
    + eapply Forall_impl; [exact Hp|]. simpl. lia.
    + eapply Forall_impl; [exact IH|]. simpl. lia.
Qed.

Lemma offPage_later i j log :
  Forall (fun a => i <= pageOf a) log -> j < i ->
  Forall (fun a => onPage j a = false) log.
Proof.
  intros H Hlt. eapply Forall_impl; [exact H|]. simpl. intros a Ha.
  unfold onPage. apply bool_decide_eq_false_2. lia.
Qed.

Lemma offPage_other i j log :
  Forall (fun a => pageOf a = i) log -> j <> i ->
  Forall (fun a => onPage j a = false) log.
Proof.
  intros H Hne. eapply Forall_impl; [exact H|]. simpl. intros a Ha.
  unfold onPage. apply bool_decide_eq_false_2. congruence.
Qed.

Lemma offPage_and (f : Action -> bool) j log :
  Forall (fun a => onPage j a = false) log ->
  Forall (fun a => onPage j a && f a = false) log.
Proof. intros H. eapply Forall_impl; [exact H|]. simpl. by intros a ->. Qed.

(** At most one request of a kind per page. *)
Lemma pipeline_count (f : Action -> bool) i j log :
  PipelineLog i log ->
  (forall body c, bodyOk c body = true -> countIf f body <= 1) ->
  countIf (fun a => onPage j a && f a) log <= 1.
Proof.
  intros HL Hf. induction HL as [i|i body Hp Hok|i body rest Hp Hok HL IH].
  - unfold countIf. simpl. lia.
  - pose proof (countIf_le f (onPage j) body). specialize (Hf _ _ Hok). lia.
  - rewrite countIf_app.
    destruct (decide (j = i)) as [->|Hne].
    + rewrite (countIf_none _ rest).
      * pose proof (countIf_le f (onPage i) body). specialize (Hf _ _ Hok). lia.
      * apply offPage_and, (offPage_later (S i)); [by apply pipeline_pages|lia].
    + rewrite (countIf_none _ body); [done|].
      by apply offPage_and, (offPage_other i).
Qed.

Lemma quietAfter_app t q l1 l2 :
  quietAfter t q (l1 ++ l2)
  = quietAfter t q l1 && quietAfter t q l2
    && (negb (existsb t l1) || forallb (fun b => negb (q b)) l2).
Proof.
  induction l1 as [|a l1 IH]; simpl.
  - by rewrite andb_true_r.
  - rewrite IH, forallb_app.
    destruct (t a); simpl;
      destruct (forallb (fun b => negb (q b)) l1), (quietAfter t q l1),
        (quietAfter t q l2), (forallb (fun b => negb (q b)) l2),
        (existsb t l1); reflexivity.
Qed.

Lemma quietAfter_no_trigger t q log :
  Forall (fun a => t a = false) log ->
  quietAfter t q log = true /\ existsb t log = false.
Proof.
  induction 1 as [|a l Ha _ [IH1 IH2]]; simpl; [done|]. by rewrite Ha, IH1, IH2.
Qed.

Lemma quietAfter_onPage t q i log :
  Forall (fun a => pageOf a = i) log ->
  quietAfter t q log = true ->
  quietAfter (fun a => onPage i a && t a) (fun a => onPage i a && q a) log = true.
Proof.
  induction 1 as [|a l Ha Hl IH]; simpl; [done|].
  intros [H1 H2]%andb_prop. rewrite IH by done. rewrite andb_true_r.
  unfold onPage at 1. rewrite bool_decide_eq_true_2 by done. simpl.
  destruct (t a); [|done].
  rewrite forallb_forall in H1. apply forallb_forall. intros b Hb.
  specialize (H1 b Hb). destruct (q b); [discriminate|]. by rewrite andb_false_r.
Qed.

(** After the update that raises a page's error flag, the pipeline makes
    no further request of that kind for the page. *)
Lemma pipeline_quiet (t q : Action -> bool) i j log :
  PipelineLog i log ->
  (forall body c, bodyOk c body = true -> quietAfter t q body = true) ->
  quietAfter (fun a => onPage j a && t a) (fun a => onPage j a && q a) log = true.
Proof.
  intros HL Hf. induction HL as [i|i body Hp Hok|i body rest Hp Hok HL IH].
  - done.
  - destruct (decide (j = i)) as [->|Hne].
    + apply quietAfter_onPage; eauto.
    + by apply quietAfter_no_trigger, offPage_and, (offPage_other i).
  - rewrite quietAfter_app, IH. rewrite andb_true_r.
    apply andb_true_intro. split.
    + destruct (decide (j = i)) as [->|Hne].
      * apply quietAfter_onPage; eauto.
      * by apply quietAfter_no_trigger, offPage_and, (offPage_other i).
    + destruct (decide (j <= i)) as [Hle|Hgt].
      * apply orb_true_intro. right.
        apply countIf_zero, countIf_none, offPage_and.
        apply (offPage_later (S i)); [by apply pipeline_pages|lia].
      * apply orb_true_intro. left.
        assert (Hne : j <> i) by lia.
        destruct (quietAfter_no_trigger (fun a => onPage j a && t a)
                    (fun a => onPage j a && q a) body) as [_ ->]; [|done].
        by apply offPage_and, (offPage_other i).
Qed.

Lemma pipeline_keeps i log : PipelineLog i log -> forallb keepsErrors log = true.
Proof.
  induction 1 as [i|i body _ Hok|i body rest _ Hok _ IH].
  - done.
  - apply bodyOk_true in Hok. apply Hok.
  - rewrite forallb_app, IH. apply bodyOk_true in Hok.
    destruct Hok as (_ & _ & _ & _ & _ & _ & _ & ->). done.
Qed.

Lemma awaitsInTurn_tail a log : awaitsInTurn (a :: log) = true -> awaitsInTurn log = true.
Proof.
  destruct a; simpl; try done.
  destruct log as [|[] log]; try done.
  by intros [_ H]%andb_prop.
Qed.

Lemma endsSettled_cons a b log : endsSettled (a :: b :: log) = endsSettled (b :: log).
Proof. reflexivity. Qed.

Lemma awaitsInTurn_app l1 l2 :
  awaitsInTurn l1 = true -> endsSettled l1 = true -> awaitsInTurn l2 = true ->
  awaitsInTurn (l1 ++ l2) = true.
Proof.
  intros H1 He H2. induction l1 as [|a l1 IH]; [done|].
  assert (Htail : awaitsInTurn (l1 ++ l2) = true).
  { apply IH; [by eapply awaitsInTurn_tail|].
    destruct l1; [done|]. by rewrite endsSettled_cons in He. }
  destruct a; simpl in *; try done.
  destruct l1 as [|[] l1]; simpl in *; try done.
  apply andb_prop in H1 as [-> _]. done.
Qed.

Lemma awaitsInTurn_split l1 k i rq l2 :
  awaitsInTurn (l1 ++ Await k i rq :: l2) = true ->
  l2 = [] \/ exists ok l3, l2 = Resume k i ok :: l3.
Proof.
  induction l1 as [|a l1 IH]; simpl.
  - destruct l2 as [|[] l2]; try done; [by left|].
    intros [[Hk Hi]%andb_prop _]%andb_prop.
    apply Nat.eqb_eq in Hk, Hi. subst. right. eauto.
  - intros H. apply IH. by eapply awaitsInTurn_tail.
Qed.

Lemma pipeline_inTurn i log : PipelineLog i log -> awaitsInTurn log = true.
Proof.
  induction 1 as [i|i body _ Hok|i body rest _ Hok _ IH].
  - done.
  - apply bodyOk_true in Hok. apply Hok.
  - apply bodyOk_true in Hok as (H1 & H2 & _).
    apply awaitsInTurn_app; auto.
Qed.

Lemma samePage_sorted i log :
  Forall (fun a => pageOf a = i) log -> StronglySorted pageOrder log.
Proof.
  induction 1 as [|a l Ha Hl IH]; constructor; [done|].
  eapply Forall_impl; [exact Hl|]. unfold pageOrder. simpl. lia.
Qed.

Lemma pipeline_sorted i log : PipelineLog i log -> StronglySorted pageOrder log.
Proof.
  induction 1 as [i|i body Hp _|i body rest Hp _ HL IH].
  - constructor.
  - by eapply samePage_sorted.
  - apply StronglySorted_app_2; [|by eapply samePage_sorted|done].
    intros a b Ha Hb. unfold pageOrder.
    apply pipeline_pages in HL.
    rewrite Forall_forall in Hp, HL.
    specialize (Hp a Ha). specialize (HL b Hb). simpl in *. lia.
Qed.

(** ** Error flags under the updates of a log *)

Lemma imageErrorAt_update arr j u i :
  imageErrorAt (updatePage j u arr) i
  = if decide (j = i)
    then truthyBool (spreadField (imageError (spreadSlot (arrayGet arr i)))
                                 (Partial.imageError u))
    else imageErrorAt arr i.
Proof.
  unfold imageErrorAt. destruct (decide (j = i)) as [->|Hne].
  - by rewrite updatePage_get_eq.
  - by rewrite updatePage_get_ne.
Qed.

Lemma audioErrorAt_update arr j u i :
  audioErrorAt (updatePage j u arr) i
  = if decide (j = i)
    then truthyBool (spreadField (audioError (spreadSlot (arrayGet arr i)))
                                 (Partial.audioError u))
    else audioErrorAt arr i.
Proof.
  unfold audioErrorAt. destruct (decide (j = i)) as [->|Hne].
  - by rewrite updatePage_get_eq.
  - by rewrite updatePage_get_ne.
Qed.

Lemma applyLog_app l1 l2 arr : applyLog (l1 ++ l2) arr = applyLog l2 (applyLog l1 arr).
Proof. apply fold_left_app. Qed.

Lemma errors_kept log arr i :
  forallb keepsErrors log = true ->
  (imageErrorAt arr i = true -> imageErrorAt (applyLog log arr) i = true)
  /\ (audioErrorAt arr i = true -> audioErrorAt (applyLog log arr) i = true).
Proof.
  revert arr. induction log as [|a log IH]; intros arr Hk; [done|].
  simpl in Hk. apply andb_prop in Hk as [Ha Hk].
  specialize (IH (applyAction arr a) Hk). simpl.
  split; intros Hf; apply IH; destruct a as [j u| | | | |]; simpl; try done.
  - rewrite imageErrorAt_update. destruct (decide (j = i)) as [->|]; [|done].
    unfold imageErrorAt in Hf.
    destruct (arrayGet arr i) as [s|]; [|done]. simpl in *.
    apply andb_prop in Ha as [Ha _].
    by destruct (Partial.imageError u) as [[[]|]|].
  - rewrite audioErrorAt_update. destruct (decide (j = i)) as [->|]; [|done].
    unfold audioErrorAt in Hf.
    destruct (arrayGet arr i) as [s|]; [|done]. simpl in *.
    apply andb_prop in Ha as [_ Ha].
    by destruct (Partial.audioError u) as [[[]|]|].
Qed.

Lemma imageError_raised log arr i :
  imageErrorAt arr i = false ->
  imageErrorAt (applyLog log arr) i = true ->
  existsb (fun a => onPage i a && setsImageError a) log = true.
Proof.
  revert arr. induction log as [|a log IH]; intros arr H0 H1; simpl in *; [congruence|].
  destruct (onPage i a && setsImageError a) eqn:Ht; [done|]. simpl.
  apply (IH (applyAction arr a)); [|done].
  destruct a as [j u| | | | |]; simpl in *; try done.
  rewrite imageErrorAt_update. destruct (decide (j = i)) as [->|]; [|done].
  unfold onPage in Ht. simpl in Ht. rewrite bool_decide_eq_true_2 in Ht by done.
  simpl in Ht. unfold imageErrorAt in H0.
  destruct (Partial.imageError u) as [[[]|]|]; simpl in *; try done.
  by destruct (arrayGet arr i).
Qed.

Lemma audioError_raised log arr i :
  audioErrorAt arr i = false ->
  audioErrorAt (applyLog log arr) i = true ->
  existsb (fun a => onPage i a && setsAudioError a) log = true.
Proof.
  revert arr. induction log as [|a log IH]; intros arr H0 H1; simpl in *; [congruence|].
  destruct (onPage i a && setsAudioError a) eqn:Ht; [done|]. simpl.
  apply (IH (applyAction arr a)); [|done].
  destruct a as [j u| | | | |]; simpl in *; try done.
  rewrite audioErrorAt_update. destruct (decide (j = i)) as [->|]; [|done].
  unfold onPage in Ht. simpl in Ht. rewrite bool_decide_eq_true_2 in Ht by done.
  simpl in Ht. unfold audioErrorAt in H0.
  destruct (Partial.audioError u) as [[[]|]|]; simpl in *; try done.
  by destruct (arrayGet arr i).
Qed.

Lemma initial_no_errors pages i :
  imageErrorAt (initialStoryPages pages) i = false
  /\ audioErrorAt (initialStoryPages pages) i = false.
Proof.
  unfold imageErrorAt, audioErrorAt, arrayGet, initialStoryPages.
  rewrite list_lookup_fmap. by destruct (pages !! i).
Qed.

(** Only [PagesUpdated] changes the page array. *)
Lemma toggle_pages r page st :
  storyPages (stateOf (handlePlayPauseToggle r page st)) = storyPages st.
Proof.
  unfold handlePlayPauseToggle. rewrite stateOf_bind.
  cbn [setShouldAutoplay modify].
  set (st0 := with_shouldAutoplay false st).
  change (storyPages st) with (storyPages st0).
  clearbody st0.
  destruct (playbackStatus r).
  - rewrite stateOf_bind. cbn [get].
    destruct (decide _); [|done].
    destruct (audioContextRef st0) as [c|]; [|done].
    rewrite stateOf_bind. unfold contextSuspend.
    destruct (contextState c st0) as [[]|]; try done.
  - rewrite stateOf_bind. cbn [get].
    destruct (decide _); [|done].
    destruct (audioContextRef st0) as [c|]; [|done].
    rewrite stateOf_bind. unfold contextResume.
    destruct (contextState c st0) as [[]|]; try done.
  - destruct (audioBuffer page) as [buf|] eqn:Hb.
    + by rewrite (playAudio_eq _ buf).
    + by rewrite playAudio_none.
Qed.

Lemma dispatch_pages e st :
  (forall j u, e <> PagesUpdated j u) ->
  storyPages (stateOf (dispatch e st)) = storyPages st.
Proof.
  intros He. unfold dispatch.
  destruct (currentPage st) as [page|]; [|done].
  destruct e as [| | |index updates|sid].
  - destruct (isPlayButtonDisabled page); [done|]. apply toggle_pages.
  - destruct (decide _); [done|].
    destruct (decide (currentPageIndex st < Z.of_nat (length (storyPages st)) - 1)%Z).
    + by rewrite handleNextPage_eq.
    + by rewrite handleNextPage_last.
  - destruct (decide _); [done|].
    destruct (decide (currentPageIndex st > 0)%Z).
    + by rewrite handlePrevPage_eq.
    + by rewrite handlePrevPage_first.
  - by destruct (He index updates).
  - by destruct (sourceEnds_cases sid st) as [->|[->| ->]].
Qed.

Lemma afterRender_pages st : storyPages (stateOf (afterRender st)) = storyPages st.
Proof. by destruct (afterRender_cases st) as [->|[->|(buf & _ & ->)]]. Qed.

Lemma step_pages e st :
  (forall j u, e <> PagesUpdated j u) ->
  storyPages (stateOf (step e st)) = storyPages st.
Proof.
  intros He. unfold step. rewrite stateOf_bind.
  pose proof (dispatch_pages e st He) as Hd.
  destruct (dispatch e st) as [[] mid|err mid]; simpl in Hd; [|done].
  by rewrite afterRender_pages.
Qed.

Lemma prefetchAssets_shape gw pages : PipelineLog 0 (prefetchAssets gw pages).
Proof. apply prefetchFrom_shape. Qed.

(** C8: the pipeline requests the image of a page at most once and its
    audio at most once; once a page's error flag is set, the rest of the
    pipeline's pass keeps it set and makes no further request of that kind
    for the page; and no click or playback event touches the page array. *)
Theorem errors_sticky (gw : Gateway) (pages : list StoryPage.t) (i : nat) :
  countIf (isImageFetch i) (prefetchAssets gw pages) <= 1
  /\ countIf (isAudioFetch i) (prefetchAssets gw pages) <= 1
  /\ (forall l1 l2 l3,
        prefetchAssets gw pages = l1 ++ l2 ++ l3 ->
        (imageErrorAt (applyLog l1 (initialStoryPages pages)) i = true ->
         imageErrorAt (applyLog (l1 ++ l2) (initialStoryPages pages)) i = true
         /\ countIf (isImageFetch i) (l2 ++ l3) = 0)
        /\ (audioErrorAt (applyLog l1 (initialStoryPages pages)) i = true ->
            audioErrorAt (applyLog (l1 ++ l2) (initialStoryPages pages)) i = true
            /\ countIf (isAudioFetch i) (l2 ++ l3) = 0))
  /\ (forall e st,
        (forall j u, e <> PagesUpdated j u) ->
        storyPages (stateOf (step e st)) = storyPages st).
Proof.
  pose proof (prefetchAssets_shape gw pages) as HL.
  split; [|split; [|split]].
  - apply (pipeline_count isImageRequest 0); [done|].
    intros body c Hok. by destruct (bodyOk_true _ _ Hok) as (?&?&?&?&?&?&?&?).
  - apply (pipeline_count isSpeechRequest 0); [done|].
    intros body c Hok. by destruct (bodyOk_true _ _ Hok) as (?&?&?&?&?&?&?&?).
  - intros l1 l2 l3 Hlog.
    pose proof (pipeline_keeps _ _ HL) as Hk.
    rewrite Hlog, !forallb_app in Hk.
    apply andb_prop in Hk as [_ [Hk2 _]%andb_prop].
    destruct (initial_no_errors pages i) as [Hi0 Ha0].
    split; intros Hf; (split; [rewrite applyLog_app; by apply errors_kept|]).
    + pose proof (pipeline_quiet setsImageError isImageRequest 0 i _ HL) as Hq.
      rewrite Hlog, quietAfter_app in Hq.
      rewrite (imageError_raised _ _ _ Hi0 Hf) in Hq. simpl in Hq.
      assert (Hq' : forallb (fun b => negb (onPage i b && isImageRequest b)) (l2 ++ l3)
                    = true).
      { assert (Hall : forall body c, bodyOk c body = true ->
                   quietAfter setsImageError isImageRequest body = true)
          by (intros body c Hok; by destruct (bodyOk_true _ _ Hok) as (?&?&?&?&?&?&?&?)).
        specialize (Hq Hall). by apply andb_prop in Hq as [_ Hq]. }
      unfold countIf, isImageFetch. clear -Hq'.
      induction (l2 ++ l3) as [|a l IH]; simpl in *; [done|].
      apply andb_prop in Hq' as [Ha Hl].
      destruct (onPage i a && isImageRequest a); [done|]. by apply IH.
    + pose proof (pipeline_quiet setsAudioError isSpeechRequest 0 i _ HL) as Hq.
      rewrite Hlog, quietAfter_app in Hq.
      rewrite (audioError_raised _ _ _ Ha0 Hf) in Hq. simpl in Hq.
      assert (Hq' : forallb (fun b => negb (onPage i b && isSpeechRequest b)) (l2 ++ l3)
                    = true).
      { assert (Hall : forall body c, bodyOk c body = true ->
                   quietAfter setsAudioError isSpeechRequest body = true)
          by (intros body c Hok; by destruct (bodyOk_true _ _ Hok) as (?&?&?&?&?&?&?&?)).
        specialize (Hq Hall). by apply andb_prop in Hq as [_ Hq]. }
      unfold countIf, isAudioFetch. clear -Hq'.
      induction (l2 ++ l3) as [|a l IH]; simpl in *; [done|].
      apply andb_prop in Hq' as [Ha Hl].
      destruct (onPage i a && isSpeechRequest a); [done|]. by apply IH.
  - apply step_pages.
Qed.

(** C1, as the code has it: the pipeline handles the pages in story order,
    the image of a page before its audio, and one request at a time: every
    await is directly followed by its own resumption or is the last thing
    the pipeline did, so while a request is pending nothing else is
    issued and no later flag or result is written. *)
Theorem pipeline_sequential (gw : Gateway) (pages : list StoryPage.t) :
  StronglySorted pageOrder (prefetchAssets gw pages)
  /\ (forall i, quietAfter (isAudioFetch i) (isImageFetch i)
                           (prefetchAssets gw pages) = true)
  /\ awaitsInTurn (prefetchAssets gw pages) = true
  /\ (forall l1 k i rq l2,
        prefetchAssets gw pages = l1 ++ Await k i rq :: l2 ->
        l2 = [] \/ exists ok l3, l2 = Resume k i ok :: l3).
Proof.
  pose proof (prefetchAssets_shape gw pages) as HL.
  split; [by eapply pipeline_sorted|].
  split.
  { intros i. apply (pipeline_quiet isSpeechRequest isImageRequest 0 i _ HL).
    intros body c Hok. by destruct (bodyOk_true _ _ Hok) as (?&?&?&?&?&?&?&?). }
  split; [by eapply pipeline_inTurn|].
  intros l1 k i rq l2 Hlog. apply (awaitsInTurn_split l1 k i rq).
  rewrite <- Hlog. by eapply pipeline_inTurn.
Qed.

(** * Further properties *)

(** ** The page array *)

Ltac split_decide :=
  repeat (match goal with
          | |- context [decide ?P] => destruct (decide P)
          end; try lia; try done).

Lemma arraySet_lookup (arr : PageArray) i o k :
  arraySet arr i o !! k
  = if decide (k = i) then Some (Some o)
    else if decide (k < length arr) then arr !! k
    else if decide (k < i) then Some None
    else None.
Proof.
  destruct (decide (k = i)) as [->|Hne]; [apply arraySet_lookup_eq|].
  unfold arraySet. destruct (decide (i < length arr)) as [Hi|Hi].
  - rewrite list_lookup_insert_ne by done.
    destruct (decide (k < length arr)); [done|].
    rewrite lookup_ge_None_2 by lia. destruct (decide (k < i)); [lia|done].
  - destruct (decide (k < length arr)) as [Hk|Hk]; [by rewrite lookup_app_l|].
    rewrite lookup_app_r by lia.
    destruct (decide (k < i)) as [Hlt|Hge].
    + rewrite lookup_app_l by (rewrite length_replicate; lia).
      apply lookup_replicate_2. lia.
    + rewrite lookup_app_r by (rewrite length_replicate; lia).
      rewrite length_replicate.
      destruct (k - length arr - (i - length arr)) as [|m] eqn:E; [lia|done].
Qed.

Lemma arraySet_length (arr : PageArray) i o :
  length (arraySet arr i o) = max (length arr) (S i).
Proof.
  destruct (decide (i < length arr)).
  - rewrite arraySet_length_in by done. lia.
  - rewrite arraySet_length_out by lia. lia.
Qed.

Lemma spreadField_assoc {T : Type} (base : option T) a b :
  spreadField (spreadField base a) b = spreadField base (spreadPartialField a b).
Proof. by destruct b. Qed.

Lemma spread_spread base u1 u2 :
  spread (spread base u1) u2 = spread base (spreadPartial u1 u2).
Proof. unfold spread, spreadPartial. simpl. by rewrite !spreadField_assoc. Qed.

(** X1: writing past the end, at an array index (below [2^32 - 1]), grows
    the array to [index + 1]: the old slots read as before, the slots in
    between read as [undefined], and the new slot holds the object built
    from the update alone. *)
Theorem updatePage_grows (i : nat) (u : Partial.t) (prev : PageArray) :
  length prev <= i -> (Z.of_nat i < 2 ^ 32 - 1)%Z ->
  length (updatePage i u prev) = S i
  /\ (forall k, k < length prev ->
        arrayGet (updatePage i u prev) k = arrayGet prev k)
  /\ (forall k, length prev <= k < i ->
        k < length (updatePage i u prev) /\ arrayGet (updatePage i u prev) k = None)
  /\ arrayGet (updatePage i u prev) i = Some (spread emptyObject u)
  /\ imageUrl (spread emptyObject u) = default None (Partial.imageUrl u)
  /\ text (spread emptyObject u) = default None (Partial.text u).
Proof.
  intros Hi _. unfold updatePage.
  assert (Hlen : length (arraySet prev i (spread (spreadSlot (arrayGet prev i)) u)) = S i)
    by by apply arraySet_length_out.
  split; [exact Hlen|].
  split.
  { intros k Hk. apply arraySet_get_ne. lia. }
  split.
  { intros k Hk. split; [lia|]. unfold arrayGet. rewrite arraySet_lookup.
    destruct (decide (k = i)); [lia|].
    destruct (decide (k < length prev)); [lia|].
    destruct (decide (k < i)); [done|lia]. }
  split.
  { unfold arrayGet at 1. rewrite arraySet_lookup_eq. unfold arrayGet.
    by rewrite lookup_ge_None_2 by lia. }
  split; simpl; by destruct (_ u).
Qed.

(** X2: updates of two different pages of the array commute. *)
Theorem updatePage_commute (i j : nat) (u v : Partial.t) (arr : PageArray) :
  i < length arr -> j < length arr -> i <> j ->
  updatePage i u (updatePage j v arr) = updatePage j v (updatePage i u arr).
Proof.
  intros _ _ Hne. apply list_eq. intros k. unfold updatePage.
  rewrite !arraySet_lookup, !arraySet_length.
  rewrite !arraySet_get_ne by done.
  destruct (decide (k = i)) as [Hki|Hki], (decide (k = j)) as [Hkj|Hkj];
    try done; try congruence; subst; split_decide.
Qed.

(** X3: two updates of the same page of the array are one update with the
    later value winning property by property; in particular an update is
    idempotent. *)
Theorem updatePage_compose (i : nat) (u1 u2 : Partial.t) (arr : PageArray) :
  i < length arr ->
  updatePage i u2 (updatePage i u1 arr) = updatePage i (spreadPartial u1 u2) arr
  /\ updatePage i u1 (updatePage i u1 arr) = updatePage i u1 arr.
Proof.
  intros _.
  assert (Hc : forall a b,
             updatePage i b (updatePage i a arr) = updatePage i (spreadPartial a b) arr).
  { intros a b. apply list_eq. intros k. unfold updatePage.
    rewrite !arraySet_lookup, !arraySet_length.
    unfold arrayGet at 1. rewrite arraySet_lookup_eq. simpl.
    rewrite spread_spread.
    destruct (decide (k = i)) as [->|Hki]; [done|].
    split_decide. }
  split; [apply Hc|].
  rewrite Hc. f_equal.
  destruct u1 as [a b c d e f g h k]. unfold spreadPartial. simpl.
  f_equal; by match goal with |- spreadPartialField ?x ?x = _ => destruct x end.
Qed.

(** ** The page array under the pipeline *)

Lemma inits_spec {A} (l pre rest : list A) : l = pre ++ rest -> In pre (inits l).
Proof.
  revert l. induction pre as [|a pre IH]; intros l ->.
  - destruct rest; simpl; auto.
  - simpl. right. apply in_map. by apply IH.
Qed.

Lemma applyLog_samePage log i (arr : PageArray) o :
  Forall (fun a => pageOf a = i) log -> arr !! i = Some (Some o) ->
  applyLog log arr = <[i := Some (pageAfter log o)]> arr.
Proof.
  intros Hl. revert arr o. induction Hl as [|a l Ha Hl IH]; intros arr o Ho.
  - simpl. by rewrite list_insert_id.
  - assert (Hlt : i < length arr) by by eapply lookup_lt_Some.
    change (applyLog (a :: l) arr) with (applyLog l (applyAction arr a)).
    change (pageAfter (a :: l) o)
      with (pageAfter l (match a with UpdatePage _ u => spread o u | _ => o end)).
    destruct a as [j u| | | | |]; simpl in Ha; subst; try by apply IH.
    simpl. unfold updatePage, arrayGet, arraySet. rewrite Ho. simpl.
    destruct (decide (i < length arr)); [|lia].
    rewrite (IH _ (spread o u)) by by apply list_lookup_insert_eq.
    by rewrite list_insert_insert_eq.
Qed.

Lemma initialPage_states p : KeepsStory p (initialPage p) /\ AssetStates p (initialPage p).
Proof.
  split; [by split|]. unfold AssetStates, needsImage. simpl.
  split; [split; by intros [? ?]|].
  split; [by exists false, false, false, false|].
  repeat split; try done.
Qed.

Ltac settle_states :=
  unfold KeepsStory, AssetStates, pageAfter, needsImage, needsAudio in *; cbn;
  repeat match goal with
         | |- _ /\ _ => split
         | |- _ <-> _ => split
         | |- _ -> _ => intros ?
         end;
  try done; try congruence; eauto 8;
  try (exfalso; match goal with
                | H : is_Some None |- _ => by destruct H
                | H : _ && _ = false, H1 : _ = true, H2 : _ = false |- _ =>
                    rewrite H1, H2 in H; discriminate
                | H : ?x = false, H1 : ?x = true |- _ => congruence
                end).

Lemma initialStoryPages_get pages i p :
  pages !! i = Some p -> arrayGet (initialStoryPages pages) i = Some (initialPage p).
Proof.
  intros Hp. unfold arrayGet, initialStoryPages. by rewrite list_lookup_fmap, Hp.
Qed.

Ltac settle_prefixes :=
  cbn [inits map fst snd prefix skip abort app];
  repeat (apply List.Forall_cons; [split; settle_states|]); apply List.Forall_nil.

Lemma loopBody_states gw pages i k p :
  pages !! i = Some p ->
  Forall (fun pre => KeepsStory p (pageAfter pre (initialPage p))
                     /\ AssetStates p (pageAfter pre (initialPage p)))
         (inits (loopBody gw pages (initialStoryPages pages) i k).1).
Proof.
  intros Hp. unfold loopBody, andThen, imagePart, audioPart.
  rewrite Hp, (initialStoryPages_get _ _ _ Hp).
  change (imageUrl (initialPage p)) with (StoryPage.imageUrl p).
  change (audioBuffer (initialPage p)) with (@None AudioBuffer).
  replace (truthyObject (@None AudioBuffer)) with false by done.
  destruct (truthyString (StoryPage.imagePrompt p)) eqn:Hprompt;
    destruct (truthyString (StoryPage.text p)) eqn:Htext;
    try destruct (truthyOptString (StoryPage.imageUrl p)) eqn:Hurl;
    unfold fetchImage, fetchAudio, awaitThen;
    try (destruct (generateImage gw k (StoryPage.imagePrompt p)) as [url| |]);
    try by settle_prefixes.
  all: cbn [skip prefix fst snd].
  all: match goal with
       | |- context [generateSpeech ?g ?k' ?t] =>
           destruct (generateSpeech g k' t) as [audioData| |]; try by settle_prefixes
       end.
  all: match goal with
       | |- context [decode ?g ?d] =>
           destruct (decode g d) as [bytes|]; try by settle_prefixes
       end.
  all: match goal with
       | |- context [decodeAudioData ?g ?k' ?t] =>
           destruct (decodeAudioData g k' t) as [buf| |]; try by settle_prefixes
       end.
  all: match goal with
       | |- context [closeTempContext ?g ?k'] =>
           destruct (closeTempContext g k'); by settle_prefixes
       end.
Qed.

Lemma loopBody_prefix_states gw pages i k p pre rest :
  pages !! i = Some p ->
  (loopBody gw pages (initialStoryPages pages) i k).1 = pre ++ rest ->
  KeepsStory p (pageAfter pre (initialPage p))
  /\ AssetStates p (pageAfter pre (initialPage p)).
Proof.
  intros Hp Hpre. pose proof (loopBody_states gw pages i k p Hp) as Hall.
  rewrite Forall_forall in Hall. apply Hall, list_elem_of_In.
  by eapply inits_spec.
Qed.

Lemma PagesGood_weaken pages i i' arr :
  i <= i' -> PagesGood pages i arr -> PagesGood pages i' arr.
Proof.
  intros Hle [Hlen Hall]. split; [done|].
  intros j p Hp. destruct (Hall j p Hp) as (o & Ho & Hk & Hs & Hinit).
  exists o. split; [done|]. split; [done|]. split; [done|].
  intros Hj. apply Hinit. lia.
Qed.

Lemma PagesGood_step pages i arr p o :
  PagesGood pages i arr -> pages !! i = Some p ->
  KeepsStory p o /\ AssetStates p o ->
  PagesGood pages (S i) (<[i := Some o]> arr).
Proof.
  intros [Hlen Hall] Hp [Hk Hs]. split; [by rewrite length_insert|].
  intros j q Hq. destruct (decide (j = i)) as [->|Hne].
  - assert (q = p) as -> by congruence.
    exists o. split.
    + apply list_lookup_insert_eq. rewrite Hlen. by eapply lookup_lt_Some.
    + split; [done|]. split; [done|]. lia.
  - destruct (Hall j q Hq) as (o' & Ho' & Hk' & Hs' & Hinit).
    exists o'. rewrite list_lookup_insert_ne by done.
    split; [done|]. split; [done|]. split; [done|].
    intros Hj. apply Hinit. lia.
Qed.

Lemma PagesGood_initial pages : PagesGood pages 0 (initialStoryPages pages).
Proof.
  split; [apply length_map|].
  intros j p Hp. exists (initialPage p).
  split; [unfold initialStoryPages; by rewrite list_lookup_fmap, Hp|].
  destruct (initialPage_states p). done.
Qed.

Lemma prefetchFrom_good gw pages n i k arr pre rest :
  n + i = length pages ->
  PagesGood pages i arr ->
  prefetchFrom gw pages (initialStoryPages pages) n i k = pre ++ rest ->
  PagesGood pages (length pages) (applyLog pre arr).
Proof.
  revert i k arr pre rest. induction n as [|n IH]; intros i k arr pre rest Hn HG Hlog.
  - simpl in Hlog. symmetry in Hlog. apply app_eq_nil in Hlog as [-> _].
    simpl. eapply PagesGood_weaken; [|done]. lia.
  - simpl in Hlog.
    destruct (lookup_lt_is_Some_2 pages i) as [p Hp]; [lia|].
    destruct (loopBody_ok gw pages (initialStoryPages pages) i k) as [Hpage _].
    destruct (proj2 HG i p Hp) as (o & Ho & _ & _ & Hinit).
    rewrite (Hinit (Nat.le_refl i)) in Ho.
    assert (Hcut : forall pre' rest',
               (loopBody gw pages (initialStoryPages pages) i k).1 = pre' ++ rest' ->
               PagesGood pages (S i) (applyLog pre' arr)).
    { intros pre' rest' Hb.
      rewrite (applyLog_samePage pre' i arr (initialPage p)); [|
        rewrite Hb in Hpage; by apply Forall_app in Hpage as [? _] | done].
      apply (PagesGood_step pages i arr p); [done|done|].
      by eapply loopBody_prefix_states. }
    destruct (loopBody gw pages (initialStoryPages pages) i k) as [body [k'|]];
      simpl in *.
    + symmetry in Hlog. apply app_eq_app in Hlog as [m [[Hb Hr]|[Hb Hr]]].
      * subst pre. rewrite applyLog_app.
        eapply (IH (S i) k'); [lia| |exact Hr].
        apply (Hcut body []). by rewrite app_nil_r.
      * eapply PagesGood_weaken; [|by eapply Hcut]. lia.
    + eapply PagesGood_weaken; [|by eapply Hcut]. lia.
Qed.

(** X4: whatever the gateway answers and however far the pipeline has got,
    the page array has the length of the story, every slot holds a record,
    and the text and prompt of each record are those of the story. *)
Theorem pipeline_keeps_story (gw : Gateway) (pages : list StoryPage.t)
    (pre rest : list Action) :
  prefetchAssets gw pages = pre ++ rest ->
  length (applyLog pre (initialStoryPages pages)) = length pages
  /\ forall j p, pages !! j = Some p ->
       exists o, applyLog pre (initialStoryPages pages) !! j = Some (Some o)
         /\ text o = Some (StoryPage.text p)
         /\ imagePrompt o = Some (StoryPage.imagePrompt p).
Proof.
  intros Hlog.
  destruct (prefetchFrom_good gw pages (length pages) 0 0 (initialStoryPages pages)
              pre rest) as [Hlen Hall];
    [lia|apply PagesGood_initial|exact Hlog|].
  split; [done|]. intros j p Hp.
  destruct (Hall j p Hp) as (o & Ho & [Ht Hi] & _). eauto.
Qed.

(** X5: at every point of the pipeline's pass, for each page and each kind
    of asset at most one of fetched, loading and failed holds: a loading or
    failed image comes with the image the page started with, loading or
    failed audio with no buffer, the audio data and its decoded buffer are
    present together, and an asset that needs no fetch is never touched. *)
Theorem pipeline_asset_states (gw : Gateway) (pages : list StoryPage.t)
    (pre rest : list Action) (j : nat) (p : StoryPage.t) :
  prefetchAssets gw pages = pre ++ rest ->
  pages !! j = Some p ->
  exists o, arrayGet (applyLog pre (initialStoryPages pages)) j = Some o
    /\ AssetStates p o.
Proof.
  intros Hlog Hp.
  destruct (prefetchFrom_good gw pages (length pages) 0 0 (initialStoryPages pages)
              pre rest) as [Hlen Hall];
    [lia|apply PagesGood_initial|exact Hlog|].
  destruct (Hall j p Hp) as (o & Ho & _ & Hs & _).
  exists o. split; [|done]. unfold arrayGet. by rewrite Ho.
Qed.

(** ** What the pipeline fetches *)

Ltac settle_facts :=
  cbn [fst snd prefix skip abort app];
  unfold SettledPage, Settles in *;
  repeat match goal with
         | |- _ /\ _ => split
         | |- _ -> _ => intros ?
         end;
  unfold needsImage, needsAudio, pageAfter in *;
  repeat match goal with
         | H : truthyString _ = _ |- _ => rewrite ?H in *; clear H
         | H : truthyOptString _ = _ |- _ => rewrite ?H in *; clear H
         end;
  cbn in *;
  repeat match goal with
         | |- _ /\ _ => split
         end;
  try done; try congruence;
  try (left; by eauto);
  try (right; done);
  try (exfalso;
       match goal with
       | H : _ /\ _ /\ _ /\ _ |- _ =>
           destruct H as (Hs1 & Hs2 & Hs3 & Hs4);
           first [ eapply Hs1; eassumption | eapply Hs2; eassumption
                 | eapply Hs3; eassumption | eapply Hs4; eassumption ]
       end).

Lemma loopBody_facts gw pages i k p :
  pages !! i = Some p ->
  forallb (fun a => negb (isUncaught a))
          (loopBody gw pages (initialStoryPages pages) i k).1 = true
  /\ (needsImage p = false ->
      countIf isImageRequest (loopBody gw pages (initialStoryPages pages) i k).1 = 0)
  /\ (needsAudio p = false ->
      countIf isSpeechRequest (loopBody gw pages (initialStoryPages pages) i k).1 = 0)
  /\ (Settles gw ->
      is_Some (loopBody gw pages (initialStoryPages pages) i k).2
      /\ countIf isImageRequest (loopBody gw pages (initialStoryPages pages) i k).1
         = (if needsImage p then 1 else 0)
      /\ countIf isSpeechRequest (loopBody gw pages (initialStoryPages pages) i k).1
         = (if needsAudio p then 1 else 0)
      /\ SettledPage p
           (pageAfter (loopBody gw pages (initialStoryPages pages) i k).1
                      (initialPage p))).
Proof.
  intros Hp. unfold loopBody, andThen, imagePart, audioPart.
  rewrite Hp, (initialStoryPages_get _ _ _ Hp).
  change (imageUrl (initialPage p)) with (StoryPage.imageUrl p).
  change (audioBuffer (initialPage p)) with (@None AudioBuffer).
  replace (truthyObject (@None AudioBuffer)) with false by done.
  destruct (truthyString (StoryPage.imagePrompt p)) eqn:Hprompt;
    destruct (truthyString (StoryPage.text p)) eqn:Htext;
    unfold fetchImage, fetchAudio, awaitThen.
  all: try match goal with
           | |- context [truthyOptString ?x] =>
               destruct (truthyOptString x) eqn:Hurl
           end.
  all: try match goal with
           | |- context [generateImage ?g ?k' ?t] =>
               destruct (generateImage g k' t) as [url| |] eqn:Eimg
           end.
  all: cbn [skip prefix fst snd].
  all: try match goal with
           | |- context [generateSpeech ?g ?k' ?t] =>
               destruct (generateSpeech g k' t) as [audioData| |] eqn:Espeech
           end.
  all: try match goal with
           | |- context [decode ?g ?d] =>
               destruct (decode g d) as [bytes|] eqn:Edecode
           end.
  all: try match goal with
           | |- context [decodeAudioData ?g ?k' ?t] =>
               destruct (decodeAudioData g k' t) as [buf| |] eqn:Edec
           end.
  all: try match goal with
           | |- context [closeTempContext ?g ?k'] =>
               destruct (closeTempContext g k') eqn:Eclose
           end.
  all: by settle_facts.
Qed.

Lemma countIf_samePage (f : Action -> bool) i body :
  Forall (fun a => pageOf a = i) body ->
  countIf (fun a => onPage i a && f a) body = countIf f body.
Proof.
  unfold countIf. induction 1 as [|a l Ha _ IH]; [done|]. simpl.
  unfold onPage at 1. rewrite bool_decide_eq_true_2 by done. simpl.
  destruct (f a); simpl; by rewrite IH.
Qed.

Lemma countIf_laterPages (f : Action -> bool) gw pages sp n i k j :
  j < i -> countIf (fun a => onPage j a && f a) (prefetchFrom gw pages sp n i k) = 0.
Proof.
  intros Hlt. apply countIf_none, offPage_and, (offPage_later i); [|done].
  apply pipeline_pages, prefetchFrom_shape.
Qed.

Lemma countIf_otherPage (f : Action -> bool) i j body :
  Forall (fun a => pageOf a = i) body -> j <> i ->
  countIf (fun a => onPage j a && f a) body = 0.
Proof. intros Hb Hne. by apply countIf_none, offPage_and, (offPage_other i). Qed.

Lemma prefetchFrom_counts gw pages (f : Action -> bool) (expect : StoryPage.t -> nat) :
  Settles gw ->
  (forall i k p, pages !! i = Some p ->
     countIf f (loopBody gw pages (initialStoryPages pages) i k).1 = expect p) ->
  forall n i k j p,
    n + i = length pages -> i <= j -> pages !! j = Some p ->
    countIf (fun a => onPage j a && f a)
            (prefetchFrom gw pages (initialStoryPages pages) n i k) = expect p.
Proof.
  intros HS Hbody. induction n as [|n IH]; intros i k j p Hn Hij Hp.
  - apply lookup_lt_Some in Hp. lia.
  - simpl.
    destruct (lookup_lt_is_Some_2 pages i) as [q Hq]; [lia|].
    destruct (loopBody_ok gw pages (initialStoryPages pages) i k) as [Hpage _].
    destruct (loopBody_facts gw pages i k q Hq) as (_ & _ & _ & Hset).
    destruct (Hset HS) as ([k' Hk'] & _).
    specialize (Hbody i k).
    destruct (loopBody gw pages (initialStoryPages pages) i k) as [body o].
    simpl in *. subst o. rewrite countIf_app.
    destruct (decide (j = i)) as [->|Hne].
    + assert (q = p) as -> by congruence.
      rewrite countIf_samePage by done.
      rewrite countIf_laterPages by lia. rewrite (Hbody p Hq). lia.
    + rewrite (countIf_otherPage f i j body) by done.
      rewrite (IH (S i) k' j p); [done|lia|lia|done].
Qed.

Lemma prefetchFrom_skips gw pages (f : Action -> bool) (cond : StoryPage.t -> Prop) :
  (forall i k p, pages !! i = Some p -> cond p ->
     countIf f (loopBody gw pages (initialStoryPages pages) i k).1 = 0) ->
  forall n i k j p,
    n + i = length pages -> pages !! j = Some p -> cond p ->
    countIf (fun a => onPage j a && f a)
            (prefetchFrom gw pages (initialStoryPages pages) n i k) = 0.
Proof.
  intros Hbody. induction n as [|n IH]; intros i k j p Hn Hp Hc; [done|].
  simpl.
  destruct (lookup_lt_is_Some_2 pages i) as [q Hq]; [lia|].
  destruct (loopBody_ok gw pages (initialStoryPages pages) i k) as [Hpage _].
  specialize (Hbody i k).
  assert (Hb : countIf (fun a => onPage j a && f a)
                 (loopBody gw pages (initialStoryPages pages) i k).1 = 0).
  { destruct (decide (j = i)) as [->|Hne].
    - assert (q = p) as -> by congruence.
      rewrite countIf_samePage by done. by apply (Hbody p).
    - by apply (countIf_otherPage f i j). }
  destruct (loopBody gw pages (initialStoryPages pages) i k) as [body [k'|]];
    simpl in *; [|done].
  rewrite countIf_app, Hb. rewrite (IH (S i) k' j p); [done|lia|done|done].
Qed.

Lemma PagesSettled_step pages i arr p o :
  PagesSettled pages i arr -> pages !! i = Some p -> SettledPage p o ->
  PagesSettled pages (S i) (<[i := Some o]> arr).
Proof.
  intros [Hlen Hall] Hp Hs. split; [by rewrite length_insert|].
  intros j q Hq. destruct (decide (j = i)) as [->|Hne].
  - assert (q = p) as -> by congruence.
    exists o. split.
    + apply list_lookup_insert_eq. rewrite Hlen. by eapply lookup_lt_Some.
    + split; [done|lia].
  - destruct (Hall j q Hq) as (o' & Ho' & Hs' & Hinit).
    exists o'. rewrite list_lookup_insert_ne by done.
    split; [done|]. split; intros Hj; [apply Hs'|apply Hinit]; lia.
Qed.

Lemma prefetchFrom_settled gw pages :
  Settles gw ->
  forall n i k arr,
    n + i = length pages -> PagesSettled pages i arr ->
    PagesSettled pages (length pages)
      (applyLog (prefetchFrom gw pages (initialStoryPages pages) n i k) arr).
Proof.
  intros HS. induction n as [|n IH]; intros i k arr Hn HG.
  - simpl. by replace (length pages) with i by lia.
  - simpl.
    destruct (lookup_lt_is_Some_2 pages i) as [p Hp]; [lia|].
    destruct (loopBody_ok gw pages (initialStoryPages pages) i k) as [Hpage _].
    destruct (loopBody_facts gw pages i k p Hp) as (_ & _ & _ & Hset).
    destruct (Hset HS) as ([k' Hk'] & _ & _ & Hfinal).
    destruct (proj2 HG i p Hp) as (o & Ho & _ & Hinit).
    rewrite (Hinit (Nat.le_refl i)) in Ho.
    destruct (loopBody gw pages (initialStoryPages pages) i k) as [body o'].
    simpl in *. subst o'. rewrite applyLog_app.
    apply (IH (S i) k'); [lia|].
    rewrite (applyLog_samePage body i arr (initialPage p)) by done.
    by apply (PagesSettled_step pages i arr p).
Qed.

Lemma PagesSettled_initial pages : PagesSettled pages 0 (initialStoryPages pages).
Proof.
  split; [apply length_map|].
  intros j p Hp. exists (initialPage p).
  split; [unfold initialStoryPages; by rewrite list_lookup_fmap, Hp|].
  split; [lia|done].
Qed.

(** X6: when the gateway answers every request, well or badly, the pipeline
    requests the image of every page that needs one exactly once and its
    audio exactly once, whatever failed before, and at the end no page is
    loading and each needed asset is either present or flagged as failed. *)
Theorem pipeline_settles (gw : Gateway) (pages : list StoryPage.t)
    (j : nat) (p : StoryPage.t) :
  Settles gw -> pages !! j = Some p ->
  countIf (isImageFetch j) (prefetchAssets gw pages) = (if needsImage p then 1 else 0)
  /\ countIf (isAudioFetch j) (prefetchAssets gw pages) = (if needsAudio p then 1 else 0)
  /\ exists o,
      arrayGet (applyLog (prefetchAssets gw pages) (initialStoryPages pages)) j = Some o
      /\ SettledPage p o.
Proof.
  intros HS Hp. split; [|split].
  - apply (prefetchFrom_counts gw pages isImageRequest
             (fun p => if needsImage p then 1 else 0) HS); [|lia|lia|done].
    intros i k q Hq. destruct (loopBody_facts gw pages i k q Hq) as (_ & _ & _ & Hset).
    by destruct (Hset HS) as (_ & ? & _).
  - apply (prefetchFrom_counts gw pages isSpeechRequest
             (fun p => if needsAudio p then 1 else 0) HS); [|lia|lia|done].
    intros i k q Hq. destruct (loopBody_facts gw pages i k q Hq) as (_ & _ & _ & Hset).
    by destruct (Hset HS) as (_ & _ & ? & _).
  - destruct (prefetchFrom_settled gw pages HS (length pages) 0 0
                (initialStoryPages pages)) as [_ Hall];
      [lia|apply PagesSettled_initial|].
    destruct (Hall j p Hp) as (o & Ho & Hs & _).
    exists o. unfold arrayGet, prefetchAssets. rewrite Ho.
    split; [done|]. apply Hs. by eapply lookup_lt_Some.
Qed.

(** X7: whatever the gateway does, the pipeline requests no image for a
    page that has no prompt or already has an image, and no speech for a
    page without text. *)
Theorem pipeline_skips (gw : Gateway) (pages : list StoryPage.t)
    (j : nat) (p : StoryPage.t) :
  pages !! j = Some p ->
  (needsImage p = false -> countIf (isImageFetch j) (prefetchAssets gw pages) = 0)
  /\ (needsAudio p = false -> countIf (isAudioFetch j) (prefetchAssets gw pages) = 0).
Proof.
  intros Hp. split; intros Hn.
  - refine (prefetchFrom_skips gw pages isImageRequest (fun p => needsImage p = false)
              _ (length pages) 0 0 j p _ Hp Hn); [|lia].
    intros i k q Hq Hc.
    destruct (loopBody_facts gw pages i k q Hq) as (_ & H & _). by apply H.
  - refine (prefetchFrom_skips gw pages isSpeechRequest (fun p => needsAudio p = false)
              _ (length pages) 0 0 j p _ Hp Hn); [|lia].
    intros i k q Hq Hc.
    destruct (loopBody_facts gw pages i k q Hq) as (_ & _ & H & _). by apply H.
Qed.

Lemma prefetchFrom_caught gw pages n i k :
  n + i = length pages ->
  forallb (fun a => negb (isUncaught a))
          (prefetchFrom gw pages (initialStoryPages pages) n i k) = true.
Proof.
  revert i k. induction n as [|n IH]; intros i k Hn; [done|]. simpl.
  destruct (lookup_lt_is_Some_2 pages i) as [p Hp]; [lia|].
  destruct (loopBody_facts gw pages i k p Hp) as (Hc & _).
  destruct (loopBody gw pages (initialStoryPages pages) i k) as [body [k'|]];
    simpl in *; [|done].
  rewrite forallb_app, Hc. simpl. apply IH. lia.
Qed.

(** X8: the pipeline never leaves its loop by an exception: for every story
    and gateway the records it reads exist, so no [TypeError] escapes. *)
Theorem pipeline_never_throws (gw : Gateway) (pages : list StoryPage.t) :
  forallb (fun a => negb (isUncaught a)) (prefetchAssets gw pages) = true.
Proof. apply prefetchFrom_caught. lia. Qed.

(** ** More of the controller *)

Lemma released_after_stop st sid s c :
  audioSourceRef st = Some sid -> audioContextRef st = Some c ->
  sources st !! sid = Some s -> context s = c -> phase s <> Unstarted ->
  c < length (contexts st) ->
  released (stoppedState st) sid.
Proof.
  intros Hr Hc Hs Hctx Hp Hlt. exists (haltSource s). simpl.
  unfold haltedSources, closedContexts. rewrite Hr, Hc.
  rewrite list_lookup_alter_eq, Hs. split; [done|].
  destruct s as [c' b cn oe ph]. simpl in *. subst.
  split; [done|]. split; [by destruct ph|]. by apply list_lookup_insert_eq.
Qed.

Lemma sourceEnds_playing st buf :
  sourceEnds (length (sources st)) (playingState buf st)
  = Normal tt (stoppedState
                 (with_sources (alter (with_phase Ended) (length (sources st))
                                      (sources (playingState buf st)))
                               (playingState buf st))).
Proof.
  unfold sourceEnds. rewrite playing_new_source.
  cbn [phase context onended].
  destruct (decide _) as [_|Hn];
    [|destruct Hn; split; [done|apply playing_new_context]].
  unfold bind, alterSource, modify, runCallback, get. unfold bind.
  destruct (decide _) as [Hsus|_]; [|apply stopAudio_eq].
  exfalso. revert Hsus.
  unfold refContextState, contextState. cbn [with_sources audioContextRef contexts mbind
                                             option_bind].
  cbn. rewrite <- (closedContexts_length st), lookup_last. discriminate.
Qed.

(** X9: when the source that [play()] started plays to its end, the
    completion callback stops the controller: the status is [stopped], both
    refs are null, the session is released and none is live. *)
Theorem playback_ends st page buf :
  Owned st -> audioBuffer page = Some buf ->
  exists s1 s2 sid,
    playAudioForCurrentPage page st = Normal tt s1
    /\ audioSourceRef s1 = Some sid
    /\ sourceEnds sid s1 = Normal tt s2
    /\ playbackStatus s2 = stopped
    /\ audioContextRef s2 = None /\ audioSourceRef s2 = None
    /\ released s2 sid
    /\ liveSessions s2 = [].
Proof.
  intros HO Hb.
  set (s1 := playingState buf st).
  set (ended := with_sources (alter (with_phase Ended) (length (sources st)) (sources s1))
                             s1).
  exists s1, (stoppedState ended), (length (sources st)).
  split; [by apply playAudio_eq|]. split; [done|].
  split; [apply sourceEnds_playing|].
  split; [done|]. split; [done|]. split; [done|].
  split.
  - eapply (released_after_stop ended _ _ (length (contexts st))); [done|done| | |..].
    + cbn [ended with_sources sources]. rewrite list_lookup_alter_eq.
      unfold s1. rewrite playing_new_source. reflexivity.
    + done.
    + done.
    + cbn [ended with_sources contexts].
      eapply lookup_lt_Some, playing_new_context.
  - apply liveSessions_stopped, Owned_ended, Owned_playing, HO.
Qed.

(** X10: going forward and then back returns to the same page with the
    autoplay intent disarmed; going back and then forward returns to the
    same page with the intent armed.  Either way playback is stopped and
    the pages are untouched. *)
Theorem navigation_round_trip st :
  ((0 <= currentPageIndex st < Z.of_nat (length (storyPages st)) - 1)%Z ->
   exists s1 s2,
     handleNextPage st st = Normal tt s1
     /\ handlePrevPage s1 s1 = Normal tt s2
     /\ currentPageIndex s2 = currentPageIndex st
     /\ shouldAutoplay s2 = false
     /\ playbackStatus s2 = stopped
     /\ storyPages s2 = storyPages st)
  /\ ((0 < currentPageIndex st < Z.of_nat (length (storyPages st)))%Z ->
      exists s1 s2,
        handlePrevPage st st = Normal tt s1
        /\ handleNextPage s1 s1 = Normal tt s2
        /\ currentPageIndex s2 = currentPageIndex st
        /\ shouldAutoplay s2 = true
        /\ playbackStatus s2 = stopped
        /\ storyPages s2 = storyPages st).
Proof.
  split; intros Hr.
  - eexists. eexists. split; [apply handleNextPage_eq; lia|].
    split; [apply handlePrevPage_eq; simpl; lia|].
    simpl. repeat split. lia.
  - eexists. eexists. split; [apply handlePrevPage_eq; lia|].
    split; [apply handleNextPage_eq; simpl; lia|].
    simpl. repeat split. lia.
Qed.

Lemma enabled_has_audio page :
  isPlayButtonDisabled page = false -> exists buf, audioBuffer page = Some buf.
Proof.
  unfold isPlayButtonDisabled, truthyObject.
  intros H. apply orb_false_elim in H as [_ H].
  apply negb_false_iff, bool_decide_eq_true in H. by destruct H as [buf ?]; eauto.
Qed.

(** X11: the play button is enabled only when the page's audio is ready,
    not loading and not failed; a click on it while stopped starts a
    session on that page's buffer and clears the intent, and a click on
    the disabled button changes nothing. *)
Theorem play_click st page :
  currentPage st = Some page ->
  (isPlayButtonDisabled page = true -> dispatch ClickPlayPause st = Normal tt st)
  /\ (isPlayButtonDisabled page = false -> playbackStatus st = stopped -> Owned st ->
      exists buf st' src,
        audioBuffer page = Some buf
        /\ truthyBool (isAudioLoading page) = false
        /\ truthyBool (audioError page) = false
        /\ dispatch ClickPlayPause st = Normal tt st'
        /\ playbackStatus st' = playing
        /\ shouldAutoplay st' = false
        /\ liveSessions st' = [length (sources st)]
        /\ sources st' !! length (sources st) = Some src
        /\ buffer src = Some buf).
Proof.
  intros Hp. split.
  - intros Hd. unfold dispatch. by rewrite Hp, Hd.
  - intros Hd Hs HO. destruct (enabled_has_audio page Hd) as [buf Hb].
    exists buf. eexists. eexists. split; [done|].
    unfold isPlayButtonDisabled in Hd.
    apply orb_false_elim in Hd as [[Hl He]%orb_false_elim _].
    split; [done|]. split; [done|].
    split.
    { unfold dispatch. rewrite Hp.
      unfold isPlayButtonDisabled. rewrite Hl, He. unfold truthyObject.
      rewrite bool_decide_eq_true_2 by by eexists. simpl.
      rewrite toggle_stopped by done. by apply playAudio_eq. }
    split; [done|]. split; [done|].
    split; [by apply (liveSessions_playing (with_shouldAutoplay false st))|].
    split; [apply (playing_new_source (with_shouldAutoplay false st))|done].
Qed.

Lemma currentPage_after_update st page i u :
  currentPage st = Some page ->
  exists page', currentPage (with_storyPages (updatePage i u (storyPages st)) st)
                = Some page'
    /\ (currentPageIndex st <> Z.of_nat i -> page' = page).
Proof.
  unfold currentPage, arrayGetZ. simpl. intros Hp.
  destruct (decide (currentPageIndex st < 0)%Z); [done|].
  destruct (decide (i = Z.to_nat (currentPageIndex st))) as [->|Hne].
  - rewrite updatePage_get_eq. eexists. split; [done|]. lia.
  - rewrite updatePage_get_ne by done. eauto.
Qed.

(** X12: while the autoplay intent is disarmed, a page update from the
    pipeline changes the page array and nothing else: status, refs,
    contexts and sources are as before, so playback goes on undisturbed. *)
Theorem update_leaves_playback st page i u :
  currentPage st = Some page -> shouldAutoplay st = false ->
  step (PagesUpdated i u) st
  = Normal tt (with_storyPages (updatePage i u (storyPages st)) st).
Proof.
  intros Hp Ha. unfold step, bind.
  assert (Hd : dispatch (PagesUpdated i u) st
               = Normal tt (with_storyPages (updatePage i u (storyPages st)) st)).
  { unfold dispatch. by rewrite Hp. }
  rewrite Hd.
  destruct (currentPage_after_update st page i u Hp) as (page' & Hp' & _).
  by eapply afterRender_disarmed.
Qed.

Lemma toggle_total r page st :
  exists st', handlePlayPauseToggle r page st = Normal tt st'
    /\ currentPageIndex st' = currentPageIndex st
    /\ storyPages st' = storyPages st.
Proof.
  unfold handlePlayPauseToggle, bind at 1. cbn [setShouldAutoplay modify].
  set (st0 := with_shouldAutoplay false st).
  change (currentPageIndex st) with (currentPageIndex st0).
  change (storyPages st) with (storyPages st0).
  clearbody st0.
  destruct (playbackStatus r).
  - unfold bind at 1, get. destruct (decide _) as [Hr|]; [|by eexists].
    unfold refContextState in Hr.
    destruct (audioContextRef st0) as [c|]; [|done]. simpl in Hr.
    unfold bind, contextSuspend. rewrite Hr. by eexists.
  - unfold bind at 1, get. destruct (decide _) as [Hr|]; [|by eexists].
    unfold refContextState in Hr.
    destruct (audioContextRef st0) as [c|]; [|done]. simpl in Hr.
    unfold bind, contextResume. rewrite Hr. by eexists.
  - destruct (audioBuffer page) as [buf|] eqn:Hb.
    + rewrite (playAudio_eq _ buf) by done. by eexists.
    + rewrite playAudio_none by done. by eexists.
Qed.

Lemma Mounted_same n st st' :
  currentPageIndex st' = currentPageIndex st -> storyPages st' = storyPages st ->
  Mounted n st -> Mounted n st'.
Proof. unfold Mounted. by intros -> ->. Qed.

Lemma Mounted_currentPage n st : Mounted n st -> is_Some (currentPage st).
Proof.
  intros (Hi & _ & Hs). unfold currentPage, arrayGetZ.
  destruct (decide _); [lia|]. apply Hs. lia.
Qed.

Lemma Mounted_initial pages : pages <> [] -> Mounted (length pages) (initialState pages).
Proof.
  intros Hne. split; [|split].
  - simpl. destruct pages; [done|]. simpl. lia.
  - simpl. unfold initialStoryPages. by rewrite length_map.
  - intros j Hj. simpl. unfold arrayGet, initialStoryPages.
    rewrite list_lookup_fmap.
    destruct (lookup_lt_is_Some_2 pages j Hj) as [p ->]. by eexists.
Qed.

Lemma Mounted_dispatch n e st :
  Mounted n st -> targetsPage n e ->
  exists st', dispatch e st = Normal tt st' /\ Mounted n st'.
Proof.
  intros HM He. pose proof HM as (Hi & Hl & Hs).
  destruct (Mounted_currentPage n st HM) as [page Hp].
  unfold dispatch. rewrite Hp.
  destruct e as [| | |index updates|sid].
  - destruct (isPlayButtonDisabled page); [by eexists|].
    destruct (toggle_total st page st) as (st' & -> & Hi' & Hp').
    eexists. split; [done|]. by eapply Mounted_same.
  - destruct (decide _); [by eexists|].
    rewrite handleNextPage_eq by lia. eexists. split; [done|].
    split; [simpl; lia|]. by split.
  - destruct (decide _); [by eexists|].
    rewrite handlePrevPage_eq by lia. eexists. split; [done|].
    split; [simpl; lia|]. by split.
  - simpl in He. eexists. split; [done|].
    split; [done|]. simpl. split.
    + unfold updatePage. rewrite arraySet_length. lia.
    + intros j Hj. destruct (decide (index = j)) as [->|Hne].
      * rewrite updatePage_get_eq. by eexists.
      * rewrite updatePage_get_ne by done. by apply Hs.
  - destruct (sourceEnds_cases sid st) as [->|[->| ->]]; by eexists.
Qed.

Lemma Mounted_afterRender n st :
  Mounted n st -> exists st', afterRender st = Normal tt st' /\ Mounted n st'.
Proof.
  intros HM. destruct (Mounted_currentPage n st HM) as [page Hp].
  destruct (shouldAutoplay st) eqn:Ha.
  - destruct (audioBuffer page) as [buf|] eqn:Hb.
    + rewrite (afterRender_fires st page buf) by done. by eexists.
    + rewrite (afterRender_waits st page) by done. by eexists.
  - rewrite (afterRender_disarmed st page) by done. by eexists.
Qed.

(** X13: a viewer mounted on a non-empty story never reads a missing page
    and never has a suspend or resume rejected: under clicks, ends of
    playback and updates of existing pages, every handler and every
    render completes, the index stays inside the array, the array keeps
    its length and every slot stays an object. *)
Theorem viewer_never_crashes pages evs :
  pages <> [] -> Forall (targetsPage (length pages)) evs ->
  exists st', run evs (initialState pages) = Normal tt st'
    /\ Mounted (length pages) st'.
Proof.
  intros Hne Hevs. pose proof (Mounted_initial pages Hne) as HM.
  revert HM. generalize (initialState pages) as st. revert Hevs.
  generalize (length pages) as n.
  intros n Hevs. induction Hevs as [|e evs He _ IH]; intros st HM.
  - by exists st.
  - destruct (Mounted_dispatch n e st HM He) as (mid & Hd & HMm).
    destruct (Mounted_afterRender n mid HMm) as (st1 & Ha & HM1).
    destruct (IH st1 HM1) as (st' & Hr & HM').
    exists st'. split; [|done].
    cbn [run]. unfold step, bind. by rewrite Hd, Ha.
Qed.

(** ** Nothing leaks *)

Lemma Tidy_frame st st' :
  audioContextRef st' = audioContextRef st -> audioSourceRef st' = audioSourceRef st ->
  contexts st' = contexts st -> sources st' = sources st ->
  Tidy st -> Tidy st'.
Proof. unfold Tidy. by intros -> -> -> ->. Qed.

Lemma stopped_released st : Tidy st -> AllReleased (stoppedState st).
Proof.
  intros [HC HS]. split.
  - intros c x. simpl. unfold closedContexts.
    destruct (audioContextRef st) as [h|] eqn:Hh.
    + destruct (decide (h = c)) as [->|Hne].
      * intros Hx. apply list_lookup_insert_Some in Hx as [(_ & <- & _)|(? & _)]; done.
      * rewrite list_lookup_insert_ne by done. intros Hx.
        destruct (HC c x Hx) as [[=]|]; done.
    + intros Hx. by destruct (HC c x Hx).
  - intros sid s. simpl. unfold haltedSources.
    destruct (audioSourceRef st) as [h|] eqn:Hh.
    + destruct (decide (h = sid)) as [->|Hne].
      * rewrite list_lookup_alter_eq.
        destruct (sources st !! sid) as [s0|] eqn:Hs0; [|done].
        intros [= <-]. simpl. split; [done|].
        destruct (HS sid s0 Hs0) as [(_ & _ & Hp)|(_ & ->)]; [|done].
        by destruct (phase s0).
      * rewrite list_lookup_alter_ne by done. intros Hs.
        destruct (HS sid s Hs) as [([=] & _)|]; done.
    + intros Hs. by destruct (HS sid s Hs) as [(? & _)|].
Qed.

Lemma Tidy_stopped st : Tidy st -> Tidy (stoppedState st).
Proof.
  intros HT. destruct (stopped_released st HT) as [HC HS]. split.
  - intros c x Hx. right. by eapply HC.
  - intros sid s Hs. right. by eapply HS.
Qed.

Lemma Tidy_playing st buf : Tidy st -> Tidy (playingState buf st).
Proof.
  intros HT. destruct (stopped_released st HT) as [HC HS]. simpl in HC, HS. split.
  - intros c x. simpl. intros [[_ Hx]|[-> <-]]%lookup_snoc_Some.
    + right. by eapply HC.
    + left. by rewrite closedContexts_length.
  - intros sid s. simpl. intros [[_ Hs]|[-> <-]]%lookup_snoc_Some.
    + right. by eapply HS.
    + left. simpl. by rewrite haltedSources_length.
Qed.

Lemma Tidy_retuned st status v : Tidy st -> Tidy (retunedState status v st).
Proof.
  intros [HC HS]. split; [|exact HS].
  intros c x. simpl. destruct (audioContextRef st) as [h|] eqn:Hh; [|apply HC].
  destruct (decide (h = c)) as [->|Hne]; [by left|].
  rewrite list_lookup_insert_ne by done. apply HC.
Qed.

Lemma Tidy_ended st sid :
  Tidy st -> Tidy (with_sources (alter (with_phase Ended) sid (sources st)) st).
Proof.
  intros [HC HS]. split; [exact HC|].
  intros j s. simpl. destruct (decide (sid = j)) as [->|Hne].
  - rewrite list_lookup_alter_eq.
    destruct (sources st !! j) as [s0|] eqn:Hs0; [|done].
    intros [= <-]. destruct (HS j s0 Hs0) as [(? & ? & _)|(? & _)]; [left|right]; done.
  - rewrite list_lookup_alter_ne by done. apply HS.
Qed.

Lemma toggle_forms r page st :
  let st0 := with_shouldAutoplay false st in
  handlePlayPauseToggle r page st = Normal tt st0
  \/ (exists status v, handlePlayPauseToggle r page st = Normal tt (retunedState status v st))
  \/ (exists buf, handlePlayPauseToggle r page st = Normal tt (playingState buf st0)).
Proof.
  intros st0.
  assert (Hst : forall x, refContextState st0 = Some x ->
                  exists c, audioContextRef st = Some c /\ contexts st !! c = Some x).
  { intros x Hr. unfold refContextState in Hr. simpl in Hr.
    destruct (audioContextRef st) as [c|]; [|done]. by exists c. }
  destruct (playbackStatus r) eqn:Hs.
  - destruct (decide (refContextState st0 = Some running)) as [Hr|Hr].
    + right. left. exists paused, suspended.
      destruct (Hst _ Hr) as (c & Hc & Hx).
      unfold handlePlayPauseToggle. rewrite Hs.
      unfold bind, get. cbn [setShouldAutoplay modify]. fold st0.
      destruct (decide _); [|done].
      unfold contextSuspend, contextState, retunedState. subst st0. simpl.
      rewrite Hc. simpl. rewrite Hx. clear -Hc. destruct st. simpl in *. by subst.
    + left. unfold handlePlayPauseToggle. rewrite Hs.
      unfold bind, get. cbn [setShouldAutoplay modify]. fold st0.
      by destruct (decide _).
  - destruct (decide (refContextState st0 = Some suspended)) as [Hr|Hr].
    + right. left. exists playing, running.
      destruct (Hst _ Hr) as (c & Hc & Hx).
      unfold handlePlayPauseToggle. rewrite Hs.
      unfold bind, get. cbn [setShouldAutoplay modify]. fold st0.
      destruct (decide _); [|done].
      unfold contextResume, contextState, retunedState. subst st0. simpl.
      rewrite Hc. simpl. rewrite Hx. clear -Hc. destruct st. simpl in *. by subst.
    + left. unfold handlePlayPauseToggle. rewrite Hs.
      unfold bind, get. cbn [setShouldAutoplay modify]. fold st0.
      by destruct (decide _).
  - destruct (audioBuffer page) as [buf|] eqn:Hb.
    + right. right. exists buf. unfold handlePlayPauseToggle. rewrite Hs.
      unfold bind at 1. cbn [setShouldAutoplay modify]. by apply playAudio_eq.
    + left. unfold handlePlayPauseToggle. rewrite Hs.
      unfold bind at 1. cbn [setShouldAutoplay modify]. by apply playAudio_none.
Qed.

Lemma Tidy_dispatch e st : Tidy st -> Tidy (stateOf (dispatch e st)).
Proof.
  intros HT. unfold dispatch.
  destruct (currentPage st) as [page|]; [|done].
  destruct e as [| | |index updates|sid].
  - destruct (isPlayButtonDisabled page); [done|].
    destruct (toggle_forms st page st) as [->|[(status & v & ->)|(buf & ->)]].
    + by eapply Tidy_frame; [..|exact HT].
    + by apply Tidy_retuned.
    + apply Tidy_playing. by eapply Tidy_frame; [..|exact HT].
  - destruct (decide _); [done|].
    destruct (decide (currentPageIndex st < Z.of_nat (length (storyPages st)) - 1)%Z).
    + rewrite handleNextPage_eq by done.
      by eapply Tidy_frame; [..|exact (Tidy_stopped st HT)].
    + by rewrite handleNextPage_last.
  - destruct (decide _); [done|].
    destruct (decide (currentPageIndex st > 0)%Z).
    + rewrite handlePrevPage_eq by done.
      by eapply Tidy_frame; [..|exact (Tidy_stopped st HT)].
    + by rewrite handlePrevPage_first.
  - by eapply Tidy_frame; [..|exact HT].
  - destruct (sourceEnds_cases sid st) as [->|[->| ->]]; [done|..].
    + by apply Tidy_ended.
    + by apply Tidy_stopped, Tidy_ended.
Qed.

Lemma Tidy_afterRender st : Tidy st -> Tidy (stateOf (afterRender st)).
Proof.
  intros HT. destruct (afterRender_cases st) as [->|[->|(buf & _ & ->)]]; [done..|].
  by eapply Tidy_frame; [..|exact (Tidy_playing st buf HT)].
Qed.

Lemma Tidy_run evs st : Tidy st -> Tidy (stateOf (run evs st)).
Proof.
  revert st. induction evs as [|e evs IH]; intros st HT; [done|].
  cbn [run]. rewrite stateOf_bind. unfold step.
  pose proof (Tidy_dispatch e st HT) as Hd.
  pose proof (stateOf_bind (dispatch e) (fun _ => afterRender) st) as Hb.
  destruct (dispatch e st) as [[] mid|err mid] eqn:Hdis.
  - unfold bind at 1. rewrite Hdis.
    pose proof (Tidy_afterRender mid Hd) as Ha.
    destruct (afterRender mid) as [[] st1|err st1]; simpl in Ha; [by apply IH|done].
  - unfold bind at 1. by rewrite Hdis.
Qed.

(** X14: the cleanup that runs when the viewer unmounts releases
    everything: after any run of the viewer, [stopAudio] leaves every
    audio context ever created closed and every source ever created ended
    and without a callback, so no session is live. *)
Theorem unmount_releases pages evs :
  exists st',
    stopAudio (stateOf (run evs (initialState pages))) = Normal tt st'
    /\ AllReleased st'
    /\ liveSessions st' = [].
Proof.
  eexists. split; [apply stopAudio_eq|]. split.
  - apply stopped_released, Tidy_run. split; intros ? ?; simpl; by rewrite lookup_nil.
  - apply liveSessions_stopped. apply (Inv_reachable pages evs).
Qed.

End Controller.

(** * The chat window and the story form *)

Lemma trimStart_nil s : trimStart s = [] <-> forallb isWhiteSpace s = true.
Proof.
  induction s as [|c s IH]; simpl; [done|].
  destruct (isWhiteSpace c); simpl; [done|]. split; discriminate.
Qed.

Lemma trimStart_head s c t : trimStart s = c :: t -> isWhiteSpace c = false.
Proof.
  induction s as [|d s IH]; simpl; [done|].
  destruct (isWhiteSpace d) eqn:Hd; [done|]. by intros [= <- _].
Qed.

Lemma isBlank_spec s : isBlank s = true <-> forallb isWhiteSpace s = true.
Proof.
  unfold isBlank, trim, trimEnd. rewrite bool_decide_eq_true, <- trimStart_nil.
  split.
  - intros H. apply (f_equal (@rev N)) in H. rewrite rev_involutive in H. simpl in H.
    apply trimStart_nil in H. rewrite forallb_forall in H.
    destruct (trimStart s) as [|c t] eqn:Ht; [done|].
    apply trimStart_head in Ht. rewrite H in Ht; [done|].
    apply in_rev. rewrite rev_involutive. by left.
  - by intros ->.
Qed.

Section ChatBotFacts.
Import ChatBot.

Lemma Transcript_initial : Transcript initialState.
Proof.
  split; [exists []; by split|]. split; [done|]. split; [done|]. split; [done|].
  simpl. lia.
Qed.

Lemma Transcript_send st :
  Transcript st -> isLoading st = false -> Transcript (handleSendMessage st).
Proof.
  intros HT Hl. pose proof HT as ((turns & Hm & Hq) & Hn & Hf & Hc & Hle).
  unfold handleSendMessage. destruct (isBlank (userInput st)) eqn:Hb; [done|].
  destruct st as [op msgs inp ld ci cc fl]. simpl in *. subst ld.
  apply nil_length_inv in Hn. subst fl.
  unfold awaited in Hm. simpl in Hm. rewrite app_nil_r in Hm.
  unfold getChatInstance. simpl.
  destruct (decide (cc = 0)) as [->|H0]; subst ci; simpl.
  - split; [|by repeat constructor].
    exists turns. by rewrite Hm.
  - split; [exists turns; by rewrite Hm|].
    split; [done|]. split; [by repeat constructor|].
    split; [|done]. by destruct (decide _).
Qed.

Lemma Transcript_resume k reply st : Transcript st -> Transcript (resume k reply st).
Proof.
  intros HT. pose proof HT as ((turns & Hm & Hq) & Hn & Hf & Hc & Hle).
  unfold resume. destruct (inFlight st !! k) as [r|] eqn:Hk; [|done].
  destruct (inFlight st) as [|[c q] [|? ?]] eqn:Hi; [done| |by destruct (isLoading st)].
  destruct k as [|k]; [|done]. simpl.
  split; [|by repeat split].
  exists (turns ++ [(q, default apology reply)]). split.
  - rewrite Hm. unfold awaited. rewrite Hi, map_app, concat_app. simpl.
    by rewrite !app_nil_r, <- app_assoc.
  - apply Forall_app. split; [done|]. constructor; [|done].
    by apply Forall_inv in Hf as [_ ?].
Qed.

Lemma Transcript_step e st : Transcript st -> Transcript (step e st).
Proof.
  intros HT. destruct e as [| |s| | |k reply]; simpl.
  - exact HT.
  - by destruct (isOpen st).
  - by destruct (isOpen st && negb (isLoading st)).
  - destruct (isOpen st); [|done]. destruct (isLoading st) eqn:Hl; [done|].
    by apply Transcript_send.
  - destruct (isOpen st); [|done]. destruct (isLoading st) eqn:Hl; [done|].
    simpl. destruct (isBlank (userInput st)); [done|]. by apply Transcript_send.
  - by apply Transcript_resume.
Qed.

(** X15: in every run of the chat window the transcript is the greeting
    followed by question-and-answer pairs, then the one question that
    waits for its answer, if any; no question is blank; at most one
    request is in flight, exactly when [isLoading] is set; and every
    request went to the one chat that was ever created. *)
Theorem chat_transcript (evs : list Event) :
  let st := run evs initialState in
  (exists turns,
     messages st = greeting :: concat (map exchange turns) ++ awaited st
     /\ Forall (fun qa => isBlank qa.1 = false) turns)
  /\ length (inFlight st) = (if isLoading st then 1 else 0)
  /\ Forall (fun r => r.1 = 0 /\ isBlank r.2 = false) (inFlight st)
  /\ chatInstance st = (if decide (chatsCreated st = 0) then None else Some 0)
  /\ chatsCreated st <= 1.
Proof.
  simpl. change (Transcript (run evs initialState)).
  pose proof Transcript_initial as HT. revert HT.
  generalize initialState as st.
  induction evs as [|e evs IH]; intros st HT; [done|].
  apply IH, Transcript_step, HT.
Qed.

End ChatBotFacts.

Section AppFacts.
Import App.

Lemma OneRequest_initial : OneRequest initialState.
Proof. by repeat split. Qed.

Lemma formEnabled_idle st :
  formEnabled st = true ->
  storyPages st = [] /\ isLoading st = false /\ isIdeaLoading st = false.
Proof.
  unfold formEnabled, formShown.
  intros [Hs [Hl Hi]%negb_true_iff%orb_false_elim]%andb_prop.
  by apply bool_decide_eq_true in Hs.
Qed.

Lemma OneRequest_step e st : OneRequest st -> OneRequest (step e st).
Proof.
  intros HI. pose proof HI as (Hu & Hn & Hm & Hx & Hp & Hq).
  destruct e as [s| | | |k result|result]; simpl.
  - by destruct (formEnabled st).
  - destruct (formEnabled st) eqn:He; [|done].
    apply formEnabled_idle in He as (Hs & Hl & Hi).
    unfold handleGenerateStory. destruct (isBlank (prompt st)) eqn:Hb; [done|].
    rewrite Hl in Hn. apply nil_length_inv in Hn. rewrite Hi in Hm.
    split; [done|]. simpl. rewrite Hn, Hi. simpl.
    split; [done|]. split; [done|]. split; [done|]. split; [done|].
    by constructor.
  - destruct (formEnabled st) eqn:He; [|done].
    apply formEnabled_idle in He as (Hs & Hl & Hi).
    unfold handleGenerateIdea. rewrite Hi in Hm.
    rewrite Hl in Hn.
    split; [done|]. simpl. rewrite Hl, Hm. by repeat split.
  - destruct (formShown st) eqn:Hf; [done|].
    split; [done|]. by repeat split.
  - unfold storySettles. destruct (storyRequests st !! k) as [q|] eqn:Hk; [|done].
    destruct (isLoading st) eqn:Hl;
      [|apply nil_length_inv in Hn; by rewrite Hn in Hk].
    destruct (storyRequests st) as [|q0 [|? ?]] eqn:Hr; [done| |done].
    destruct k as [|k]; [|done]. simpl in Hx.
    rewrite Hx in Hm. split.
    { simpl. destruct result as [pages|]; [|done].
      apply Forall_forall. by intros p [p0 [-> _]]%list_elem_of_fmap. }
    simpl. rewrite Hx. split; [done|]. split; [done|]. split; [done|].
    split; [done|]. constructor.
  - unfold ideaSettles. destruct (ideaRequests st) as [|n] eqn:Hr; [done|].
    destruct (isIdeaLoading st) eqn:Hi; [|done].
    injection Hm as ->.
    split; [done|]. simpl. split; [done|]. split; [done|].
    split; [by rewrite andb_false_r|]. split; [|done].
    intros Hl. apply Hp. by rewrite orb_true_r.
Qed.

Lemma OneRequest_run evs st : OneRequest st -> OneRequest (run evs st).
Proof.
  revert st. induction evs as [|e evs IH]; intros st HI; [done|].
  apply IH, OneRequest_step, HI.
Qed.

(** X16: in every run of the story form at most one request, for a story
    or for an idea, is awaited, with its loading flag set exactly then and
    the form shown all the while; no story is ever requested with a blank
    prompt; and no page of the story handed to the viewer carries an image. *)
Theorem form_one_request (evs : list Event) :
  let st := run evs initialState in
  Forall (fun p => StoryPage.imageUrl p = None) (storyPages st)
  /\ length (storyRequests st) = (if isLoading st then 1 else 0)
  /\ ideaRequests st = (if isIdeaLoading st then 1 else 0)
  /\ isLoading st && isIdeaLoading st = false
  /\ (isLoading st || isIdeaLoading st = true -> storyPages st = [])
  /\ Forall (fun q => isBlank q = false) (storyRequests st).
Proof.
  exact (OneRequest_run evs initialState OneRequest_initial).
Qed.

(** X17: a click on the enabled generate button with a blank prompt only
    sets the advisory: nothing is requested and the loading flag stays
    clear.  With any other prompt the story is requested with that
    prompt, and when the request settles the loading flag is cleared
    either way: fulfilled, the story is the pages without images and no
    advisory is shown; failed, there is no story and the advisory is. *)
Theorem story_outcome (st : State) :
  formEnabled st = true -> storyRequests st = [] ->
  (isBlank (prompt st) = true ->
   storyRequests (step ClickGenerate st) = []
   /\ isLoading (step ClickGenerate st) = false
   /\ storyPages (step ClickGenerate st) = []
   /\ error (step ClickGenerate st) = Some "Please enter a story idea!"%string)
  /\ (isBlank (prompt st) = false ->
      storyRequests (step ClickGenerate st) = [prompt st]
      /\ isLoading (step ClickGenerate st) = true
      /\ forall result,
          let st' := run [ClickGenerate; StorySettles 0 result] st in
          isLoading st' = false /\ storyRequests st' = []
          /\ prompt st' = prompt st
          /\ match result with
             | Some pages =>
                 storyPages st' = map withoutImage pages /\ error st' = None
             | None =>
                 storyPages st' = []
                 /\ error st'
                    = Some "Oops! Something went wrong while creating the story. Please try again."%string
             end).
Proof.
  intros He Hr. pose proof (formEnabled_idle st He) as (Hs & Hl & Hi).
  unfold run. simpl. rewrite He. unfold handleGenerateStory.
  split; intros Hb; rewrite Hb; simpl.
  - by rewrite Hr, Hl, Hs.
  - rewrite Hr. split; [done|]. split; [done|].
    intros result. unfold storySettles. simpl.
    by destruct result.
Qed.

(** X18: the form strips the image of every page it hands over (line 27),
    so the viewer's pipeline leaves out no page that has a prompt: on any
    story the form delivers, with a gateway that answers, the image of a
    page is requested exactly once when its prompt is not empty and not at
    all when it is. *)
Theorem delivered_story_images (gw : Gateway) (evs : list Event)
    (j : nat) (p : StoryPage.t) :
  Settles gw -> storyPages (run evs initialState) !! j = Some p ->
  StoryPage.imageUrl p = None
  /\ countIf (isImageFetch j) (prefetchAssets gw (storyPages (run evs initialState)))
     = (if truthyString (StoryPage.imagePrompt p) then 1 else 0).
Proof.
  intros HS Hp.
  pose proof (OneRequest_run evs initialState OneRequest_initial) as (Hu & _).
  assert (Hnone : StoryPage.imageUrl p = None).
  { rewrite Forall_forall in Hu. eapply Hu, list_elem_of_lookup_2, Hp. }
  split; [done|].
  assert (Hneed : needsImage p = truthyString (StoryPage.imagePrompt p)).
  { unfold needsImage. rewrite Hnone. apply andb_true_r. }
  rewrite <- Hneed.
  apply (prefetchFrom_counts gw _ isImageRequest
           (fun p => if needsImage p then 1 else 0) HS); [|lia|lia|done].
  intros i k q Hq. destruct (loopBody_facts gw _ i k q Hq) as (_ & _ & _ & Hset).
  by destruct (Hset HS) as (_ & ? & _).
Qed.

End AppFacts.

(** * The claims on the two-page story *)

(** C1, as stated, fails: when the image request of page 0 never settles,
    the pipeline never marks page 1 as loading and never requests its
    image. *)
Lemma pipeline_blocks : ~ NonBlockingPipeline.
Proof.
  intros H.
  destruct (H slowGateway examplePages 1 (StoryPage.mk "B" "p2" None)
              eq_refl eq_refl eq_refl) as [Hflag _].
  vm_compute in Hflag. destruct Hflag as [Hflag|[Hflag|[]]]; discriminate.
Qed.


(** With image requests that never settle the log stops at the first await. *)
Lemma pipeline_sequential_witness :
  prefetchAssets slowGateway examplePages
  = [UpdatePage 0 imageLoading] ++ [Await 0 0 (GenerateImage "p1")]
  /\ (@nil Action = [] \/ exists ok l3, [] = Resume 0 0 ok :: l3).
Proof.
  split; [reflexivity|].
  apply (proj2 (proj2 (proj2 (pipeline_sequential slowGateway examplePages)))
           [UpdatePage 0 imageLoading] 0 0 (GenerateImage "p1") []).
  reflexivity.
Defined.

(** Playing page A and then page B of the ready story. *)
Lemma play_exclusive_witness :
  Owned readyState
  /\ exists s1 s2 sidA sidB,
      playAudioForCurrentPage true (readyPage (StoryPage.mk "A" "p1" None) 7) readyState
      = Normal tt s1
      /\ playAudioForCurrentPage true (readyPage (StoryPage.mk "B" "p2" None) 8) s1
         = Normal tt s2
      /\ liveSessions s1 = [sidA] /\ liveSessions s2 = [sidB] /\ released s2 sidA.
Proof.
  assert (HO : Owned readyState) by (apply ownedb_sound; reflexivity).
  split; [exact HO|].
  destruct (proj1 (play_exclusive true) readyState
              (readyPage (StoryPage.mk "A" "p1" None) 7)
              (readyPage (StoryPage.mk "B" "p2" None) 8) 7 8 HO eq_refl eq_refl)
    as (s1 & s2 & sidA & sidB & srcB & H1 & H2 & H3 & H4 & _ & H5 & _).
  exists s1, s2, sidA, sidB. repeat split; assumption.
Defined.

(** An armed intent fires at most once without [next()], and [next()] onto
    the ready page B plays its buffer. *)
Lemma autoplay_once_witness :
  currentPage readyState = Some (readyPage (StoryPage.mk "A" "p1" None) 7)
  /\ (ClickNext ∉ [ClickPrev; ClickPlayPause; SourceEnds 0])
  /\ autoplays true [ClickPrev; ClickPlayPause; SourceEnds 0]
       (with_shouldAutoplay true readyState) <= 1
  /\ exists st1 src,
      step true ClickNext readyState = Normal tt st1
      /\ currentPageIndex st1 = 1%Z
      /\ audioSourceRef st1 = Some 0
      /\ sources st1 !! 0 = Some src /\ buffer src = Some 8
      /\ isLive st1 0 = true
      /\ shouldAutoplay st1 = false
      /\ autoplays true [ClickNext] readyState = 1.
Proof.
  split; [reflexivity|].
  assert (Hn : ClickNext ∉ [ClickPrev; ClickPlayPause; SourceEnds 0]).
  { intros Hin. repeat (apply elem_of_cons in Hin as [Hin|Hin]; [discriminate|]).
    by apply elem_of_nil in Hin. }
  split; [exact Hn|]. split.
  - apply (proj1 (proj2 (proj2 (proj2 (autoplay_once true)))) _
             (with_shouldAutoplay true readyState) Hn).
  - destruct (proj2 (proj2 (proj2 (proj2 (proj2 (autoplay_once true))))) readyState
                (readyPage (StoryPage.mk "A" "p1" None) 7)
                (readyPage (StoryPage.mk "B" "p2" None) 8) 8
                eq_refl ltac:(simpl; lia) eq_refl eq_refl)
      as (mid & st1 & Hd & Hs & HA & Hi & Hc).
    vm_compute in Hd. injection Hd as <-.
    destruct HA as (_ & _ & _ & _ & Hr & (src & Hsrc & Hb & _) & Hl & _ & Ha).
    exists st1, src. repeat split; assumption.
Defined.

(** Stopping the ready, stopped viewer changes nothing. *)
Lemma stopAudio_idempotent_witness :
  Owned readyState /\ playbackStatus readyState = stopped /\ Coherent readyState
  /\ exists st', stopAudio false readyState = Normal tt st'
       /\ stopAudio false st' = Normal tt st'
       /\ liveSessions st' = [] /\ st' = readyState.
Proof.
  assert (HO : Owned readyState) by (apply ownedb_sound; reflexivity).
  assert (HC : Coherent readyState) by (split; reflexivity).
  split; [exact HO|]. split; [reflexivity|]. split; [exact HC|].
  destruct (stopAudio_idempotent false readyState)
    as (st' & H1 & H2 & _ & _ & _ & H3 & H4).
  exists st'. repeat split; auto.
Defined.

(** Play, pause and resume on page A keep the objects [play()] created. *)
Lemma pause_resume_roundtrip_witness :
  audioBuffer (readyPage (StoryPage.mk "A" "p1" None) 7) = Some 7
  /\ exists s1 s3,
      playAudioForCurrentPage true (readyPage (StoryPage.mk "A" "p1" None) 7) readyState
      = Normal tt s1
      /\ playbackStatus s3 = playing
      /\ audioContextRef s3 = audioContextRef s1
      /\ audioSourceRef s3 = audioSourceRef s1
      /\ sessionsCreated s1 s3 = 0.
Proof.
  split; [reflexivity|].
  destruct (pause_resume_roundtrip true readyState
              (readyPage (StoryPage.mk "A" "p1" None) 7) 7 eq_refl)
    as (s1 & s2 & s3 & c & sid & H1 & _ & _ & _ & _ & H3 & Hc1 & _ & Hc3 & Hs1 & _ & Hs3
        & _ & _ & _ & _ & Hn).
  exists s1, s3. repeat split; try assumption; congruence.
Defined.

(** [next()] from page 0 of the two-page story. *)
Lemma navigation_moves_witness :
  (0 <= currentPageIndex readyState < Z.of_nat (length (storyPages readyState)))%Z
  /\ currentPageIndex readyState <> (Z.of_nat (length (storyPages readyState)) - 1)%Z
  /\ exists st', handleNextPage true readyState readyState = Normal tt st'
       /\ currentPageIndex st' = 1%Z /\ shouldAutoplay st' = true
       /\ playbackStatus st' = stopped.
Proof.
  assert (Hr : (0 <= currentPageIndex readyState
                < Z.of_nat (length (storyPages readyState)))%Z) by (simpl; lia).
  assert (Hn : currentPageIndex readyState
               <> (Z.of_nat (length (storyPages readyState)) - 1)%Z) by (simpl; lia).
  split; [exact Hr|]. split; [exact Hn|].
  destruct (proj1 (navigation_moves true readyState Hr) Hn)
    as (s0 & st' & _ & H1 & _ & H2 & _ & _ & _ & H3 & H4 & _).
  exists st'. repeat split; assumption.
Defined.


(** With a failing gateway, the image error of page 0 is raised by the first
    five actions, stays raised, and no image request for page 0 follows. *)
Lemma errors_sticky_witness :
  prefetchAssets failingGateway examplePages
  = firstn 5 (prefetchAssets failingGateway examplePages)
    ++ firstn 3 (skipn 5 (prefetchAssets failingGateway examplePages))
    ++ skipn 8 (prefetchAssets failingGateway examplePages)
  /\ imageErrorAt (applyLog (firstn 5 (prefetchAssets failingGateway examplePages))
                            (initialStoryPages examplePages)) 0 = true
  /\ imageErrorAt (applyLog (firstn 8 (prefetchAssets failingGateway examplePages))
                            (initialStoryPages examplePages)) 0 = true
  /\ countIf (isImageFetch 0) (skipn 5 (prefetchAssets failingGateway examplePages)) = 0.
Proof.
  split; [reflexivity|]. split; [reflexivity|].
  destruct (proj1 (proj2 (proj2 (errors_sticky true failingGateway examplePages 0)))
              (firstn 5 (prefetchAssets failingGateway examplePages))
              (firstn 3 (skipn 5 (prefetchAssets failingGateway examplePages)))
              (skipn 8 (prefetchAssets failingGateway examplePages))
              eq_refl) as [Himg _].
  destruct (Himg eq_refl) as [Hkeep Hquiet].
  split; [exact Hkeep|exact Hquiet].
Defined.

(** Marking page 0 as loading leaves page 1 and the text of page 0 alone. *)
Lemma updatePage_frame_witness :
  0 < length (initialStoryPages examplePages)
  /\ length (updatePage 0 imageLoading (initialStoryPages examplePages)) = 2
  /\ updatePage 0 imageLoading (initialStoryPages examplePages) !! 1
     = initialStoryPages examplePages !! 1
  /\ exists new,
      updatePage 0 imageLoading (initialStoryPages examplePages) !! 0 = Some (Some new)
      /\ isImageLoading new = Some true
      /\ text new = Some "A"%string.
Proof.
  assert (Hlt : 0 < length (initialStoryPages examplePages)) by (simpl; lia).
  split; [exact Hlt|].
  destruct (updatePage_frame 0 imageLoading (initialStoryPages examplePages) Hlt)
    as (Hlen & Hother & Hmerge).
  split; [exact Hlen|]. split; [apply Hother; lia|].
  destruct (Hmerge _ eq_refl) as (new & Hnew & Ht & _ & _ & _ & _ & Hl & _).
  exists new. repeat split; assumption.
Defined.

(** [previous()] on page 0 does nothing. *)
Lemma navigation_boundary_witness :
  currentPageIndex readyState = 0%Z
  /\ handlePrevPage true readyState readyState = Normal tt readyState.
Proof.
  split; [reflexivity|].
  apply (proj2 (navigation_boundary true readyState) eq_refl).
Defined.

(** * The further properties on examples *)

Lemma failingGateway_settles : Settles failingGateway.
Proof. repeat split; intros; discriminate. Qed.

(** Writing slot 4 of the two-page array. *)
Lemma updatePage_grows_witness :
  length (initialStoryPages examplePages) <= 4
  /\ (Z.of_nat 4 < 2 ^ 32 - 1)%Z
  /\ length (updatePage 4 imageLoading (initialStoryPages examplePages)) = 5
  /\ arrayGet (updatePage 4 imageLoading (initialStoryPages examplePages)) 3 = None
  /\ arrayGet (updatePage 4 imageLoading (initialStoryPages examplePages)) 4
     = Some (spread emptyObject imageLoading).
Proof.
  split; [simpl; lia|]. split; [reflexivity|].
  destruct (updatePage_grows 4 imageLoading (initialStoryPages examplePages))
    as (Hl & _ & Hh & Hn & _); [simpl; lia|reflexivity|].
  split; [exact Hl|]. split; [|exact Hn].
  apply Hh. simpl. lia.
Defined.

(** Updates of pages 0 and 1 in either order. *)
Lemma updatePage_commute_witness :
  0 < length (initialStoryPages examplePages)
  /\ 1 < length (initialStoryPages examplePages)
  /\ 0 <> 1
  /\ updatePage 0 imageLoading (updatePage 1 audioLoading (initialStoryPages examplePages))
     = updatePage 1 audioLoading (updatePage 0 imageLoading (initialStoryPages examplePages)).
Proof.
  split; [simpl; lia|]. split; [simpl; lia|]. split; [lia|].
  apply updatePage_commute; simpl; lia.
Defined.

(** Page 0 starts loading its image and then fails. *)
Lemma updatePage_compose_witness :
  0 < length (initialStoryPages examplePages)
  /\ updatePage 0 imageFailed (updatePage 0 imageLoading (initialStoryPages examplePages))
     = updatePage 0 (spreadPartial imageLoading imageFailed)
                  (initialStoryPages examplePages).
Proof.
  split; [simpl; lia|].
  apply (updatePage_compose 0 imageLoading imageFailed (initialStoryPages examplePages)).
  simpl. lia.
Defined.

(** The story is all there after the first update of a stalled pipeline. *)
Lemma pipeline_keeps_story_witness :
  prefetchAssets slowGateway examplePages
  = [UpdatePage 0 imageLoading] ++ [Await 0 0 (GenerateImage "p1")]
  /\ length (applyLog [UpdatePage 0 imageLoading] (initialStoryPages examplePages)) = 2.
Proof.
  split; [reflexivity|].
  apply (pipeline_keeps_story slowGateway examplePages [UpdatePage 0 imageLoading]
           [Await 0 0 (GenerateImage "p1")]).
  reflexivity.
Defined.

(** Page 1 of the stalled pipeline. *)
Lemma pipeline_asset_states_witness :
  prefetchAssets slowGateway examplePages
  = [UpdatePage 0 imageLoading] ++ [Await 0 0 (GenerateImage "p1")]
  /\ examplePages !! 1 = Some (StoryPage.mk "B" "p2" None)
  /\ exists o,
      arrayGet (applyLog [UpdatePage 0 imageLoading] (initialStoryPages examplePages)) 1
      = Some o
      /\ AssetStates (StoryPage.mk "B" "p2" None) o.
Proof.
  split; [reflexivity|]. split; [reflexivity|].
  apply (pipeline_asset_states slowGateway examplePages [UpdatePage 0 imageLoading]
           [Await 0 0 (GenerateImage "p1")] 1); reflexivity.
Defined.

(** With every image failing and no audio decodable, page 0 is still
    asked for once each and ends settled. *)
Lemma pipeline_settles_witness :
  Settles failingGateway
  /\ examplePages !! 0 = Some (StoryPage.mk "A" "p1" None)
  /\ countIf (isImageFetch 0) (prefetchAssets failingGateway examplePages) = 1
  /\ countIf (isAudioFetch 0) (prefetchAssets failingGateway examplePages) = 1.
Proof.
  split; [exact failingGateway_settles|]. split; [reflexivity|].
  destruct (pipeline_settles failingGateway examplePages 0 (StoryPage.mk "A" "p1" None)
              failingGateway_settles eq_refl) as (Hi & Ha & _).
  split; [exact Hi|exact Ha].
Defined.

(** A page with neither prompt nor text is asked for nothing. *)
Lemma pipeline_skips_witness :
  [StoryPage.mk "" "" None] !! 0 = Some (StoryPage.mk "" "" None)
  /\ countIf (isImageFetch 0) (prefetchAssets slowGateway [StoryPage.mk "" "" None]) = 0
  /\ countIf (isAudioFetch 0) (prefetchAssets slowGateway [StoryPage.mk "" "" None]) = 0.
Proof.
  split; [reflexivity|].
  destruct (pipeline_skips slowGateway [StoryPage.mk "" "" None] 0
              (StoryPage.mk "" "" None) eq_refl) as [Hi Ha].
  split; [apply Hi|apply Ha]; reflexivity.
Defined.

(** Page A of the ready story plays to its end. *)
Lemma playback_ends_witness :
  Owned readyState
  /\ audioBuffer (readyPage (StoryPage.mk "A" "p1" None) 7) = Some 7
  /\ exists s1 s2 sid,
      playAudioForCurrentPage true (readyPage (StoryPage.mk "A" "p1" None) 7) readyState
      = Normal tt s1
      /\ sourceEnds true sid s1 = Normal tt s2
      /\ playbackStatus s2 = stopped /\ liveSessions s2 = [].
Proof.
  assert (HO : Owned readyState) by (apply ownedb_sound; reflexivity).
  split; [exact HO|]. split; [reflexivity|].
  destruct (playback_ends true readyState (readyPage (StoryPage.mk "A" "p1" None) 7) 7
              HO eq_refl)
    as (s1 & s2 & sid & H1 & _ & H2 & H3 & _ & _ & _ & H4).
  exists s1, s2, sid. repeat split; assumption.
Defined.

(** Forward and back from page 0 of the ready story. *)
Lemma navigation_round_trip_witness :
  (0 <= currentPageIndex readyState < Z.of_nat (length (storyPages readyState)) - 1)%Z
  /\ exists s1 s2,
      handleNextPage true readyState readyState = Normal tt s1
      /\ handlePrevPage true s1 s1 = Normal tt s2
      /\ currentPageIndex s2 = 0%Z
      /\ shouldAutoplay s2 = false.
Proof.
  assert (Hr : (0 <= currentPageIndex readyState
                < Z.of_nat (length (storyPages readyState)) - 1)%Z) by (simpl; lia).
  split; [exact Hr|].
  destruct (proj1 (navigation_round_trip true readyState) Hr)
    as (s1 & s2 & H1 & H2 & H3 & H4 & _).
  exists s1, s2. repeat split; assumption.
Defined.

(** A click on the play button of the ready story. *)
Lemma play_click_witness :
  currentPage readyState = Some (readyPage (StoryPage.mk "A" "p1" None) 7)
  /\ exists st',
      dispatch true ClickPlayPause readyState = Normal tt st'
      /\ playbackStatus st' = playing
      /\ liveSessions st' = [0].
Proof.
  split; [reflexivity|].
  assert (HO : Owned readyState) by (apply ownedb_sound; reflexivity).
  destruct (proj2 (play_click true readyState
                     (readyPage (StoryPage.mk "A" "p1" None) 7) eq_refl)
              eq_refl eq_refl HO)
    as (buf & st' & src & _ & _ & _ & H1 & H2 & _ & H3 & _).
  exists st'. repeat split; assumption.
Defined.

(** Page 1 starts loading its image while the ready story shows page 0. *)
Lemma update_leaves_playback_witness :
  currentPage readyState = Some (readyPage (StoryPage.mk "A" "p1" None) 7)
  /\ shouldAutoplay readyState = false
  /\ step true (PagesUpdated 1 imageLoading) readyState
     = Normal tt (with_storyPages (updatePage 1 imageLoading (storyPages readyState))
                                  readyState).
Proof.
  split; [reflexivity|]. split; [reflexivity|].
  apply (update_leaves_playback true readyState
           (readyPage (StoryPage.mk "A" "p1" None) 7)); reflexivity.
Defined.

(** A run of the viewer on the two-page story. *)
Lemma viewer_never_crashes_witness :
  examplePages <> []
  /\ Forall (targetsPage (length examplePages))
            [ClickNext; PagesUpdated 1 imageLoading; ClickPlayPause; ClickPrev]
  /\ exists st',
      run true [ClickNext; PagesUpdated 1 imageLoading; ClickPlayPause; ClickPrev]
          (initialState examplePages)
      = Normal tt st'
      /\ Mounted (length examplePages) st'.
Proof.
  assert (Hne : examplePages <> []) by discriminate.
  assert (He : Forall (targetsPage (length examplePages))
                      [ClickNext; PagesUpdated 1 imageLoading; ClickPlayPause; ClickPrev]).
  { repeat constructor. }
  split; [exact Hne|]. split; [exact He|].
  exact (viewer_never_crashes true examplePages _ Hne He).
Defined.

(** Asking for the story of the default prompt. *)
Lemma story_outcome_witness :
  App.formEnabled App.initialState = true
  /\ App.storyRequests App.initialState = []
  /\ isBlank (App.prompt App.initialState) = false
  /\ App.isLoading (App.step App.ClickGenerate App.initialState) = true.
Proof.
  split; [reflexivity|]. split; [reflexivity|]. split; [reflexivity|].
  apply (proj2 (story_outcome App.initialState eq_refl eq_refl)). reflexivity.
Defined.

(** The two-page story, delivered by the form, in the viewer. *)
Lemma delivered_story_images_witness :
  Settles failingGateway
  /\ App.storyPages
       (App.run [App.ClickGenerate; App.StorySettles 0 (Some examplePages)]
                App.initialState) !! 0
     = Some (StoryPage.mk "A" "p1" None)
  /\ countIf (isImageFetch 0)
       (prefetchAssets failingGateway
          (App.storyPages
             (App.run [App.ClickGenerate; App.StorySettles 0 (Some examplePages)]
                      App.initialState)))
     = 1.
Proof.
  split; [exact failingGateway_settles|]. split; [reflexivity|].
  apply (delivered_story_images failingGateway
           [App.ClickGenerate; App.StorySettles 0 (Some examplePages)] 0
           (StoryPage.mk "A" "p1" None) failingGateway_settles eq_refl).
Defined.
